(** * villas/slides1: listing repository and slideshow playback controllers

    A shallow embedding of
      - [src/api.js]         class [RealEstateAPI]       (module [Api]),
      - [src/slideshow.js]   class [RealEstateSlideshow] (module [Slideshow]),
      - the second [PropertySlideshow] class of the slideshow application
        script (module [PropertySlideshow]),
      - the event listeners of the two controllers and [escapeHtml]
        (modules [SlideshowEvents] and [PropertySlideshowEvents]),
    preceded by a model of the JavaScript built-ins these classes call
    (module [JS]) and followed by their properties (modules [ApiSpec],
    [SlideshowSpec], [PropertySlideshowSpec], [ApiMore], [SlideshowMore]
    and [PropertySlideshowMore]). *)

From Stdlib Require Import ZArith Ascii String List Bool Lia Sorted.
From stdpp Require Import gmap strings list pretty.

Open Scope Z_scope.

(** ** JavaScript values and built-ins *)

Module JS.

(** Numbers are IEEE 754 binary64 values.  A finite number is a sign and the
    magnitude [m * 2^e] in canonical form: [m] is odd, or [m = 0] and
    [e = 0]; [m < 2^53], [-1074 <= e] and [m * 2^e < 2^1024].  Equal
    doubles are equal terms, and the two zeros differ in the sign. *)
Inductive number : Type :=
  | NaN
  | Infinity (negative : bool)
  | Fin (negative : bool) (m e : Z).

Fixpoint strip2 (fuel : nat) (m e : Z) : Z * Z :=
  match fuel with
  | O => (m, e)
  | S f =>
      if m =? 0 then (0, 0)
      else if Z.even m then strip2 f (m / 2) (e + 1)
      else (m, e)
  end.

Definition canonical (neg : bool) (m e : Z) : number :=
  let '(m', e') := strip2 (S (Z.to_nat (Z.log2 m))) m e in Fin neg m' e'.

(** The integer part of the binary logarithm of [N / D], for [0 < N, D]. *)
Definition ilog2 (N D : Z) : Z :=
  let l := Z.log2 N - Z.log2 D in
  if (if 0 <=? l then D * 2 ^ l <=? N else D <=? N * 2 ^ (- l)) then l
  else l - 1.

(** [N / D] rounded to an integer, ties to even. *)
Definition div_half_even (N D : Z) : Z :=
  let q := N / D in
  let r := N mod D in
  if 2 * r <? D then q
  else if D <? 2 * r then q + 1
  else if Z.even q then q else q + 1.

(** The double nearest to [N / D], for [0 <= N] and [0 < D]: 53 significant
    bits, ties to even, gradual underflow below [2^-1022], [Infinity] from
    [2^1024] on. *)
Definition round (neg : bool) (N D : Z) : number :=
  if N =? 0 then Fin neg 0 0
  else
    let e := Z.max (ilog2 N D - 52) (-1074) in
    let m := if 0 <=? e then div_half_even N (D * 2 ^ e)
             else div_half_even (N * 2 ^ (- e)) D in
    if (0 <? m) && (1024 <=? Z.log2 m + e) then Infinity neg
    else canonical neg m e.

(** The double nearest to the decimal [m * 10^e], for [0 <= m]. *)
Definition decimal (neg : bool) (m e : Z) : number :=
  if 0 <=? e then round neg (m * 10 ^ e) 1 else round neg m (10 ^ (- e)).

(** The value of the numeric literal [m * 10^e] and of the integer [z]. *)
Definition dec (m e : Z) : number := decimal (m <? 0) (Z.abs m) e.
Definition of_Z (z : Z) : number := dec z 0.

Definition num_eqb (a b : number) : bool :=
  match a, b with
  | NaN, NaN => true
  | Infinity x, Infinity y => Bool.eqb x y
  | Fin x m e, Fin y m' e' => Bool.eqb x y && (m =? m') && (e =? e')
  | _, _ => false
  end.

Definition num_is_nan (n : number) : bool :=
  match n with NaN => true | _ => false end.

Definition num_is_zero (n : number) : bool :=
  match n with Fin _ m _ => m =? 0 | _ => false end.

(** [0 <= n]: false for [NaN] as every comparison with [NaN] is, true for
    both zeros. *)
Definition num_nonneg (n : number) : bool :=
  match n with
  | NaN => false
  | Infinity neg => negb neg
  | Fin neg m _ => (m =? 0) || negb neg
  end.

(** Values: the primitives, arrays and plain objects (an object is the list
    of its own properties, see below).  Strings are sequences of bytes, the
    UTF-8 encoding of the text. *)
#[warnings="-register-all"]
Inductive value : Type :=
  | VUndefined
  | VNull
  | VBool (b : bool)
  | VNum (n : number)
  | VStr (s : string)
  | VArray (l : list value)
  | VObject (o : list (string * value)).

(** *** Scanning of numeric strings *)

Definition byte (c : ascii) : Z := Z.of_nat (nat_of_ascii c).

(** [WhiteSpace] and [LineTerminator] of one byte: TAB, LF, VT, FF, CR, SP. *)
Definition is_ws (c : ascii) : bool :=
  match nat_of_ascii c with
  | 9%nat | 10%nat | 11%nat | 12%nat | 13%nat | 32%nat => true
  | _ => false
  end.

(** Of two bytes: U+00A0. *)
Definition is_ws2 (a b : ascii) : bool :=
  (byte a =? 194) && (byte b =? 160).

(** Of three bytes: U+1680, U+2000 to U+200A, U+2028, U+2029, U+202F,
    U+205F, U+3000 and U+FEFF. *)
Definition is_ws3 (a b c : ascii) : bool :=
  let x := byte a in
  let y := byte b in
  let z := byte c in
  ((x =? 225) && (y =? 154) && (z =? 128))
  || ((x =? 226) && (y =? 128)
      && (((128 <=? z) && (z <=? 138)) || (z =? 168) || (z =? 169)
          || (z =? 175)))
  || ((x =? 226) && (y =? 129) && (z =? 159))
  || ((x =? 227) && (y =? 128) && (z =? 128))
  || ((x =? 239) && (y =? 187) && (z =? 191)).

Definition digit_of (c : ascii) : option Z :=
  let n := Z.of_nat (nat_of_ascii c) in
  if (48 <=? n) && (n <=? 57) then Some (n - 48) else None.

Definition hex_digit_of (c : ascii) : option Z :=
  let n := Z.of_nat (nat_of_ascii c) in
  if (48 <=? n) && (n <=? 57) then Some (n - 48)
  else if (65 <=? n) && (n <=? 70) then Some (n - 55)
  else if (97 <=? n) && (n <=? 102) then Some (n - 87)
  else None.

Definition radix_digit_of (radix : Z) (c : ascii) : option Z :=
  match hex_digit_of c with
  | Some d => if d <? radix then Some d else None
  | None => None
  end.

(** [s] without the white space at its head. *)
Fixpoint skip_ws (s : string) : string :=
  match s with
  | EmptyString => EmptyString
  | String a r =>
      if is_ws a then skip_ws r
      else
        match r with
        | String b r2 =>
            if is_ws2 a b then skip_ws r2
            else
              match r2 with
              | String c r3 => if is_ws3 a b c then skip_ws r3 else s
              | EmptyString => s
              end
        | EmptyString => s
        end
  end.

(** [s] is white space only. *)
Definition blank (s : string) : bool :=
  match skip_ws s with
  | EmptyString => true
  | _ => false
  end.

Fixpoint trim_end (s : string) : string :=
  if blank s then EmptyString
  else
    match s with
    | String c r => String c (trim_end r)
    | EmptyString => EmptyString
    end.

(** [TrimString(s, start+end)] *)
Definition trim (s : string) : string := trim_end (skip_ws s).

(** The longest run of digits of [radix] at the head of [s]: its value, its
    length and what follows it. *)
Fixpoint read_digits (radix : Z) (s : string) (acc : Z) (n : nat)
  : Z * nat * string :=
  match s with
  | String c r =>
      match radix_digit_of radix c with
      | Some d => read_digits radix r (radix * acc + d) (S n)
      | None => (acc, n, s)
      end
  | EmptyString => (acc, n, s)
  end.

Definition strip_prefix (p s : string) : option string :=
  if String.prefix p s
  then Some (String.substring (String.length p) (String.length s - String.length p) s)
  else None.

(** A leading [+] or [-]: whether the sign is negative, and the rest. *)
Definition read_sign (s : string) : bool * string :=
  match s with
  | String "-" r => (true, r)
  | String "+" r => (false, r)
  | _ => (false, s)
  end.

Definition signed (neg : bool) (m : Z) : Z := if neg then - m else m.

(** [ExponentPart]: [e] or [E], an optional sign and at least one digit.
    Returns the exponent and the rest; an incomplete exponent is not part of
    the literal. *)
Definition read_exponent (s : string) : Z * string :=
  match s with
  | String c r =>
      if (Ascii.eqb c "e" || Ascii.eqb c "E")%bool then
        let '(neg, r1) := read_sign r in
        let '(x, n, r2) := read_digits 10 r1 0 0 in
        match n with
        | O => (0, s)
        | S _ => (signed neg x, r2)
        end
      else (0, s)
  | EmptyString => (0, s)
  end.

(** The fraction after [n1] integer digits of value [ip]: a point and the
    digits after it, which extend the mantissa; a point with no digit on
    either side is not part of the literal. *)
Definition read_fraction (ip : Z) (n1 : nat) (s : string) : Z * nat * string :=
  match s with
  | String "." r =>
      let '(m, n2, r') := read_digits 10 r ip 0 in
      match n1, n2 with
      | O, O => (ip, O, s)
      | _, _ => (m, n2, r')
      end
  | _ => (ip, O, s)
  end.

(** The longest prefix of [s] that is a [StrDecimalLiteral], with the
    remainder of [s]; [None] when no prefix is one.  The value is the double
    nearest to the literal, whatever the number of its digits. *)
Definition read_decimal (s : string) : option (number * string) :=
  let '(neg, s1) := read_sign s in
  match strip_prefix "Infinity" s1 with
  | Some r => Some (Infinity neg, r)
  | None =>
      let '(ip, n1, s2) := read_digits 10 s1 0 0 in
      let '(m, n2, s3) := read_fraction ip n1 s2 in
      match n1, n2 with
      | O, O => None
      | _, _ =>
          let '(x, s4) := read_exponent s3 in
          Some (decimal neg m (x - Z.of_nat n2), s4)
      end
  end.

(** [NonDecimalIntegerLiteral]: [0x], [0o] or [0b] and digits to the end. *)
Definition read_nondecimal (s : string) : option number :=
  match s with
  | String "0" (String c r) =>
      let radix :=
        if (Ascii.eqb c "x" || Ascii.eqb c "X")%bool then Some 16
        else if (Ascii.eqb c "o" || Ascii.eqb c "O")%bool then Some 8
        else if (Ascii.eqb c "b" || Ascii.eqb c "B")%bool then Some 2
        else None in
      match radix with
      | Some rx =>
          match read_digits rx r 0 0 with
          | (v, S _, EmptyString) => Some (of_Z v)
          | _ => None
          end
      | None => None
      end
  | _ => None
  end.

(** [StringToNumber] *)
Definition string_to_number (s : string) : number :=
  let t := trim s in
  match t with
  | EmptyString => of_Z 0
  | _ =>
      match read_decimal t with
      | Some (n, EmptyString) => n
      | _ => match read_nondecimal t with Some n => n | None => NaN end
      end
  end.

(** [parseFloat] on a string *)
Definition parseFloat_string (s : string) : number :=
  match read_decimal (skip_ws s) with
  | Some (n, _) => n
  | None => NaN
  end.

(** [parseInt] on a string, no radix argument *)
Definition parseInt_string (s : string) : number :=
  let '(neg, s1) := read_sign (skip_ws s) in
  let '(radix, s2) :=
    match s1 with
    | String "0" (String c r) =>
        if (Ascii.eqb c "x" || Ascii.eqb c "X")%bool then (16, r) else (10, s1)
    | _ => (10, s1)
    end in
  match read_digits radix s2 0 0 with
  | (_, O, _) => NaN
  | (v, S _, _) => decimal neg v 0
  end.

(** *** Conversions *)

(** The one-character string holding a double quote. *)
Definition dquote : string := String (ascii_of_nat 34) EmptyString.

Definition zeros (n : nat) : string := String.concat "" (repeat "0"%string n).

(** [10^p <= N / D] *)
Definition le_pow10 (p N D : Z) : bool :=
  if 0 <=? p then 10 ^ p * D <=? N else D <=? N * 10 ^ (- p).

(** The integer part of the decimal logarithm of [N / D]. *)
Definition ilog10 (N D : Z) : Z :=
  let p := (ilog2 N D * 1233) / 4096 in
  if le_pow10 (p + 1) N D then p + 1
  else if le_pow10 p N D then p
  else p - 1.

(** The decimal [s * 10^(n - k)] with the fewest digits [k] that rounds to
    the double [x = N / D], the nearest to [x] among those with [k] digits
    ([10^(n-1) <= x < 10^n]).  Seventeen digits always do. *)
Fixpoint shortest (fuel : nat) (x : number) (N D n k : Z) : Z * Z * Z :=
  let q := n - k in
  let A := if 0 <=? q then N else N * 10 ^ (- q) in
  let B := if 0 <=? q then D * 10 ^ q else D in
  let lo := A / B in
  let r := A mod B in
  let hi := lo + 1 in
  let lo_ok := num_eqb (decimal false lo q) x in
  let hi_ok := num_eqb (decimal false hi q) x in
  let up := if hi =? 10 ^ k then (10 ^ (k - 1), k, n + 1) else (hi, k, n) in
  let down := (lo, k, n) in
  if lo_ok && hi_ok then
    (if 2 * r <? B then down
     else if B <? 2 * r then up
     else if Z.even lo then down else up)
  else if lo_ok then down
  else if hi_ok then up
  else
    match fuel with
    | O => down
    | S f => shortest f x N D n (k + 1)
    end.

(** The digits [s], their number [k] and the position [n] of the point in
    the shortest decimal that reads back as the double [m * 2^e]. *)
Definition digits (m e : Z) : Z * Z * Z :=
  let N := if 0 <=? e then m * 2 ^ e else m in
  let D := if 0 <=? e then 1 else 2 ^ (- e) in
  shortest 17 (Fin false m e) N D (ilog10 N D + 1) 1.

(** [Number::toString], radix 10 *)
Definition number_to_string (x : number) : string :=
  match x with
  | NaN => "NaN"
  | Infinity neg => if neg then "-Infinity" else "Infinity"
  | Fin neg m e =>
      if m =? 0 then "0"
      else
        let '(s, k, n) := digits m e in
        let d := pretty s in
        let body :=
          if (k <=? n) && (n <=? 21) then d +:+ zeros (Z.to_nat (n - k))
          else if (0 <? n) && (n <=? 21) then
            String.substring 0 (Z.to_nat n) d +:+ "." +:+
            String.substring (Z.to_nat n) (Z.to_nat (k - n)) d
          else if (-6 <? n) && (n <=? 0) then
            "0." +:+ zeros (Z.to_nat (- n)) +:+ d
          else
            let x := (if n - 1 <? 0 then "e-" else "e+") +:+ pretty (Z.abs (n - 1)) in
            if k =? 1 then d +:+ x
            else String.substring 0 1 d +:+ "." +:+
                 String.substring 1 (Z.to_nat (k - 1)) d +:+ x in
        if neg then "-" +:+ body else body
  end.

(** [ToString]; of an array, [Array.prototype.join] of its elements. *)
Fixpoint to_string (v : value) : string :=
  match v with
  | VUndefined => "undefined"
  | VNull => "null"
  | VBool b => if b then "true" else "false"
  | VNum n => number_to_string n
  | VStr s => s
  | VArray l =>
      String.concat ","
        (map (fun x => match x with
                       | VUndefined | VNull => EmptyString
                       | _ => to_string x
                       end) l)
  | VObject _ => "[object Object]"
  end.

(** [ToNumber]; arrays and objects convert through their strings. *)
Definition to_number (v : value) : number :=
  match v with
  | VUndefined => NaN
  | VNull => of_Z 0
  | VBool b => if b then of_Z 1 else of_Z 0
  | VNum n => n
  | VStr s => string_to_number s
  | VArray _ | VObject _ => string_to_number (to_string v)
  end.

(** [ToBoolean] *)
Definition truthy (v : value) : bool :=
  match v with
  | VUndefined | VNull => false
  | VBool b => b
  | VNum n => negb (num_is_nan n || num_is_zero n)
  | VStr EmptyString => false
  | VStr _ => true
  | VArray _ | VObject _ => true
  end.

(** [a || b] *)
Definition or (a b : value) : value := if truthy a then a else b.

(** The global [isNaN], [parseFloat] and [parseInt]. *)
Definition isNaN (v : value) : bool := num_is_nan (to_number v).
Definition parseFloat (v : value) : number := parseFloat_string (to_string v).
Definition parseInt (v : value) : number := parseInt_string (to_string v).

(** *** Objects

    An object is the list of its own properties in the order of their
    creation.  A missing property reads as [undefined]. *)
Abbreviation object := (list (string * value)).

Fixpoint get (o : object) (k : string) : value :=
  match o with
  | [] => VUndefined
  | (k', v) :: r => if String.eqb k' k then v else get r k
  end.

(** [o[k] = v]: in place when the key exists, a new property otherwise. *)
Fixpoint set (o : object) (k : string) (v : value) : object :=
  match o with
  | [] => [(k, v)]
  | (k', v') :: r =>
      if String.eqb k' k then (k', v) :: r else (k', v') :: set r k v
  end.

(** The array index a key is, if it is one: the canonical decimal of an
    integer below [2^32 - 1]. *)
Definition array_index (k : string) : option Z :=
  match read_digits 10 k 0 0 with
  | (v, S _, EmptyString) =>
      if String.eqb (pretty v) k && (v <=? 4294967294) then Some v else None
  | _ => None
  end.

Definition is_named (kv : string * value) : bool :=
  match array_index (fst kv) with
  | Some _ => false
  | None => true
  end.

Fixpoint insert_index (i : Z) (kv : string * value)
  (l : list (Z * (string * value))) : list (Z * (string * value)) :=
  match l with
  | [] => [(i, kv)]
  | (j, kv') :: r =>
      if i <? j then (i, kv) :: l else (j, kv') :: insert_index i kv r
  end.

Fixpoint index_properties (o : object) : list (Z * (string * value)) :=
  match o with
  | [] => []
  | kv :: r =>
      match array_index (fst kv) with
      | Some i => insert_index i kv (index_properties r)
      | None => index_properties r
      end
  end.

(** [OrdinaryOwnPropertyKeys]: the order in which the properties of an
    object are enumerated, array indices first, from the least on, then the
    other keys as they were created. *)
Definition own_properties (o : object) : object :=
  map snd (index_properties o) ++ List.filter is_named o.

(** [{...o, ...src}] *)
Definition spread (o src : object) : object :=
  fold_left (fun acc kv => set acc (fst kv) (snd kv)) (own_properties src) o.

(** *** [URLSearchParams] *)

Definition hex_char (d : Z) : ascii :=
  ascii_of_nat (Z.to_nat (if d <? 10 then 48 + d else 55 + d)).

(** The [application/x-www-form-urlencoded] byte serializer. *)
Definition urlencode_byte (c : ascii) : string :=
  let n := Z.of_nat (nat_of_ascii c) in
  if n =? 32 then "+"
  else if ((48 <=? n) && (n <=? 57)) || ((65 <=? n) && (n <=? 90))
          || ((97 <=? n) && (n <=? 122))
          || (n =? 42) || (n =? 45) || (n =? 46) || (n =? 95)
  then String c ""
  else String "%" (String (hex_char (n / 16)) (String (hex_char (n mod 16)) "")).

Fixpoint urlencode (s : string) : string :=
  match s with
  | EmptyString => ""
  | String c r => urlencode_byte c +:+ urlencode r
  end.

Definition urlencode_pair (kv : string * value) : string :=
  urlencode (fst kv) +:+ "=" +:+ urlencode (to_string (snd kv)).

(** [new URLSearchParams(o).toString()]: one pair for each own property of
    [o], in the order of enumeration. *)
Definition URLSearchParams_toString (o : object) : string :=
  String.concat "&" (map urlencode_pair (own_properties o)).

(** *** [Intl.NumberFormat('en-US', {style: 'currency', currency: 'USD',
        maximumFractionDigits: 0}).format] *)

(** Rounding of the magnitude [m * 2^e] to an integer, ties away from
    zero. *)
Definition round_magnitude (m e : Z) : Z :=
  if 0 <=? e then m * 2 ^ e
  else (2 * m + 2 ^ (- e)) / (2 * 2 ^ (- e)).

(** Digits in groups of three, from a reversed list of digits. *)
Fixpoint group3 (rev_digits : list ascii) (i : nat) (acc : list ascii)
  : list ascii :=
  match rev_digits with
  | [] => acc
  | c :: r =>
      match i with
      | 3%nat => group3 r 1 (c :: ","%char :: acc)
      | _ => group3 r (S i) (c :: acc)
      end
  end.

Definition grouped (z : Z) : string :=
  string_of_list_ascii
    (group3 (rev (list_ascii_of_string (pretty z))) 0 []).

Definition format_usd (n : number) : string :=
  match n with
  | NaN => "$NaN"
  | Infinity neg => (if neg then "-$" else "$") +:+ "∞"
  | Fin neg m e => (if neg then "-$" else "$") +:+ grouped (round_magnitude m e)
  end.

(** *** Array indices

    The numbers the slideshow classes compute with are array indices and
    lengths: integers, and the [NaN] that [x % 0] gives. *)
Inductive index : Type :=
  | INaN
  | Idx (z : Z).

Definition idx_add (a b : index) : index :=
  match a, b with
  | Idx x, Idx y => Idx (x + y)
  | _, _ => INaN
  end.

Definition idx_sub (a b : index) : index :=
  match a, b with
  | Idx x, Idx y => Idx (x - y)
  | _, _ => INaN
  end.

(** [a % b]: the remainder has the sign of the dividend. *)
Definition idx_rem (a b : index) : index :=
  match a, b with
  | Idx x, Idx y => if y =? 0 then INaN else Idx (Z.rem x y)
  | _, _ => INaN
  end.

Definition idx_lt (a b : index) : bool :=
  match a, b with
  | Idx x, Idx y => x <? y
  | _, _ => false
  end.

Definition idx_ge (a b : index) : bool :=
  match a, b with
  | Idx x, Idx y => y <=? x
  | _, _ => false
  end.

(** [a === b] *)
Definition idx_eq (a b : index) : bool :=
  match a, b with
  | Idx x, Idx y => x =? y
  | _, _ => false
  end.

Definition idx_to_string (a : index) : string :=
  match a with
  | INaN => "NaN"
  | Idx z => pretty z
  end.

(** [l.length] *)
Definition len {A} (l : list A) : index := Idx (Z.of_nat (length l)).

(** [l[i]], [None] for [undefined] *)
Definition nth_index {A} (l : list A) (i : index) : option A :=
  match i with
  | INaN => None
  | Idx z => if z <? 0 then None else l !! Z.to_nat z
  end.

End JS.

(** ** [src/api.js]: class [RealEstateAPI] *)

Module Api.
Import JS.

(** The own properties a read [j.k] of one of the keys of a record looks
    through; [None] when the read throws ([null] and [undefined] have no
    properties).  Numbers, booleans, strings and arrays have none of these
    keys. *)
Definition properties_of (j : value) : option object :=
  match j with
  | VNull | VUndefined => None
  | VObject o => Some o
  | _ => Some []
  end.

(** Thrown values: error objects by constructor name and message. *)
Inductive exn : Type :=
  | JsError (name message : string)
  | Thrown (v : value).

Inductive result (A : Type) : Type :=
  | Ok (a : A)
  | Throw (e : exn).
Arguments Ok {A} a.
Arguments Throw {A} e.

(** *** Normalized records *)

Record image := {
  url : value;
  thumbnail : value;
  alt : value;
  caption : value }.

Record location := {
  address : value;
  city : value;
  state : value;
  zip : value;
  country : value }.

Record features := {
  bedrooms : number;
  bathrooms : number;
  area : number;
  type : value;
  yearBuilt : number;
  garage : number }.

Record Property := {
  id : value;
  title : value;
  price : string;
  loc : location;
  feat : features;
  description : value;
  status : value;
  images : list image;
  createdAt : value;
  updatedAt : value }.

(** *** The world the API object lives in *)

(** The outcome of one [fetch] call: the promise rejects (transport
    failure), or resolves to a response. *)
Record response := {
  resp_status : Z;
  resp_statusText : string;
  resp_body : option value  (* [None]: the body is not JSON *) }.

Inductive outcome : Type :=
  | NetFailure (message : string)
  | NetResponse (r : response).

(** [response.ok]: the status is in the range 200-299. *)
Definition ok (r : response) : bool :=
  (200 <=? resp_status r) && (resp_status r <=? 299).

Inductive event : Type :=
  | EvFetch (u : string)
  | EvDelay (ms : Z).

(** Arrays and objects handed out by the API are heap cells, so that the
    cache and its callers share them by reference. *)
Inductive cell : Type :=
  | CProperties (l : list Property)
  | CProperty (p : Property)
  | CImages (l : list image).

Abbreviation ref := nat.

Record world := {
  baseUrl : string;
  cache : gmap string ref;
  retryAttempts : Z;
  retryDelay : Z;
  heap : list cell;
  (** the network: what the [n]-th request of a URL results in *)
  net : string -> nat -> outcome;
  (** [new Date().toISOString()] *)
  now : string;
  (** the [fetch] calls and [delay]s performed so far, oldest first *)
  log : list event }.

Definition set_cache (c : gmap string ref) (w : world) : world :=
  {| baseUrl := baseUrl w; cache := c; retryAttempts := retryAttempts w;
     retryDelay := retryDelay w; heap := heap w; net := net w; now := now w;
     log := log w |}.

Definition set_heap (h : list cell) (w : world) : world :=
  {| baseUrl := baseUrl w; cache := cache w; retryAttempts := retryAttempts w;
     retryDelay := retryDelay w; heap := h; net := net w; now := now w;
     log := log w |}.

Definition set_log (l : list event) (w : world) : world :=
  {| baseUrl := baseUrl w; cache := cache w; retryAttempts := retryAttempts w;
     retryDelay := retryDelay w; heap := heap w; net := net w; now := now w;
     log := l |}.

(** [constructor(baseUrl = '/api')], in a given environment *)
Definition constructor (network : string -> nat -> outcome) (date : string)
  : world :=
  {| baseUrl := "/api"; cache := ∅; retryAttempts := 3; retryDelay := 1000;
     heap := []; net := network; now := date; log := [] |}.

(** *** Computations: state and exceptions *)

Definition M (A : Type) : Type := world -> result A * world.

Definition ret {A} (a : A) : M A := fun w => (Ok a, w).
Definition throw {A} (e : exn) : M A := fun w => (Throw e, w).
Definition bind {A B} (m : M A) (k : A -> M B) : M B :=
  fun w => match m w with
           | (Ok a, w') => k a w'
           | (Throw e, w') => (Throw e, w')
           end.
(** [try { m } catch (e) { h e }] *)
Definition try_catch {A} (m : M A) (h : exn -> M A) : M A :=
  fun w => match m w with
           | (Ok a, w') => (Ok a, w')
           | (Throw e, w') => h e w'
           end.
Definition lift {A} (r : result A) : M A := fun w => (r, w).

Notation "x <- m ;; k" := (bind m (fun x => k))
  (at level 100, m at next level, right associativity).
Notation "m ;;; k" := (bind m (fun _ => k))
  (at level 100, right associativity).

Definition requests (u : string) (l : list event) : nat :=
  length (List.filter (fun e => match e with
                                | EvFetch u' => String.eqb u' u
                                | EvDelay _ => false
                                end) l).

Definition fetches (l : list event) : nat :=
  length (List.filter (fun e => match e with
                                | EvFetch _ => true
                                | EvDelay _ => false
                                end) l).

Definition delays (l : list event) : list Z :=
  omap (fun e => match e with EvDelay ms => Some ms | _ => None end) l.

(** The browser's [fetch(url, ...)]: one network call. *)
Definition fetch (u : string) : M response :=
  fun w =>
    let w' := set_log (log w ++ [EvFetch u]) w in
    match net w u (requests u (log w)) with
    | NetFailure msg => (Throw (JsError "TypeError" msg), w')
    | NetResponse r => (Ok r, w')
    end.

(** [delay(ms)] *)
Definition delay (ms : Z) : M unit :=
  fun w => (Ok tt, set_log (log w ++ [EvDelay ms]) w).

(** [response.json()] *)
Definition json_of (r : response) : M value :=
  match resp_body r with
  | Some j => ret j
  | None => throw (JsError "SyntaxError" "Unexpected token in JSON")
  end.

Definition alloc (c : cell) : M ref :=
  fun w => (Ok (length (heap w)), set_heap (heap w ++ [c]) w).

(** *** Methods *)

(** [formatPrice(price)] *)
Definition formatPrice (price : value) : string :=
  if negb (truthy price) || isNaN price then "Price on request"
  else
    let numPrice := parseFloat price in
    format_usd numPrice.

(** What [this] is bound to inside a method: the API object when the method
    is called on it, [undefined] when the method is passed around as a bare
    function (class bodies are strict code). *)
Inductive this_binding : Type := ThisApi | ThisUndefined.

(** [Array.prototype.map] with a callback that may throw. *)
Fixpoint array_map {A B} (f : A -> result B) (l : list A) : result (list B) :=
  match l with
  | [] => Ok []
  | x :: r =>
      match f x with
      | Throw e => Throw e
      | Ok y => match array_map f r with
                | Throw e => Throw e
                | Ok ys => Ok (y :: ys)
                end
      end
  end.

(** [normalizeProperty(property)].  The object literal is evaluated top to
    bottom: [property.id] is read first, [this.formatPrice] is the first use
    of [this]. *)
Definition normalizeProperty (this : this_binding) (date : string)
  (property : value) : result Property :=
  match properties_of property with
  | None =>
      Throw (JsError "TypeError" "Cannot read properties of null (reading 'id')")
  | Some o =>
      match this with
      | ThisUndefined =>
          Throw (JsError "TypeError"
                   "Cannot read properties of undefined (reading 'formatPrice')")
      | ThisApi =>
          Ok {| id := or (get o "id") (get o "property_id");
                title := or (or (get o "title") (get o "name"))
                            (VStr "Untitled Property");
                price := formatPrice (get o "price");
                loc := {| address := or (get o "address") (VStr "");
                          city := or (get o "city") (VStr "");
                          state := or (get o "state") (VStr "");
                          zip := or (or (get o "zip") (get o "postal_code"))
                                    (VStr "");
                          country := or (get o "country") (VStr "US") |};
                feat := {|
                  bedrooms := parseInt (or (or (get o "bedrooms") (get o "beds"))
                                           (VNum (of_Z 0)));
                  bathrooms := parseFloat (or (or (get o "bathrooms") (get o "baths"))
                                              (VNum (of_Z 0)));
                  area := parseInt (or (or (get o "area") (get o "square_feet"))
                                       (VNum (of_Z 0)));
                  type := or (or (get o "type") (get o "property_type"))
                             (VStr "Unknown");
                  yearBuilt := parseInt (or (or (get o "year_built")
                                                (get o "built_year"))
                                            (VNum (of_Z 0)));
                  garage := parseInt (or (or (get o "garage_spaces")
                                             (get o "garage"))
                                         (VNum (of_Z 0))) |};
                description := or (get o "description") (VStr "");
                status := or (get o "status") (VStr "available");
                images := [];
                createdAt := or (or (get o "created_at") (get o "date_added"))
                                (VStr date);
                updatedAt := or (or (get o "updated_at") (get o "date_modified"))
                                (VStr date) |}
      end
  end.

(** [getPlaceholderImage()] *)
Definition getPlaceholderImage : string :=
  "data:image/svg+xml;base64,PHN2ZyB3aWR0aD0iNDAwIiBoZWlnaHQ9IjMwMCIgeG1sbnM9Imh0dHA6Ly93d3cudzMub3JnLzIwMDAvc3ZnIj4KICA8cmVjdCB3aWR0aD0iNDAwIiBoZWlnaHQ9IjMwMCIgZmlsbD0iIzMzMyIvPgogIDx0ZXh0IHg9IjUwJSIgeT0iNTAlIiBmb250LWZhbWlseT0iQXJpYWwsIHNhbnMtc2VyaWYiIGZvbnQtc2l6ZT0iMThweCIgZmlsbD0iIzk5OSIgdGV4dC1hbmNob3I9Im1pZGRsZSIgZHk9Ii4zZW0iPk5vIEltYWdlIEF2YWlsYWJsZTwvdGV4dD4KPC9zdmc+".

(** [getMockProperties()] *)
Definition getMockProperties (date : string) : list Property :=
  [ {| id := VNum (of_Z 1);
       title := VStr "Luxury Waterfront Villa";
       price := "$2,850,000";
       loc := {| address := VStr "123 Ocean Drive"; city := VStr "Miami Beach";
                 state := VStr "FL"; zip := VStr "33139"; country := VStr "US" |};
       feat := {| bedrooms := of_Z 5; bathrooms := dec 45 (-1);
                  area := of_Z 4200; type := VStr "Villa";
                  yearBuilt := of_Z 2018; garage := of_Z 3 |};
       description := VStr "Stunning waterfront villa with panoramic ocean views, private beach access, and state-of-the-art amenities. This architectural masterpiece features floor-to-ceiling windows, an infinity pool, and a gourmet kitchen perfect for entertaining.";
       status := VStr "available";
       images := [];
       createdAt := VStr date;
       updatedAt := VStr date |};
    {| id := VNum (of_Z 2);
       title := VStr "Modern Downtown Penthouse";
       price := "$1,650,000";
       loc := {| address := VStr "456 High Street"; city := VStr "Seattle";
                 state := VStr "WA"; zip := VStr "98101"; country := VStr "US" |};
       feat := {| bedrooms := of_Z 3; bathrooms := of_Z 3;
                  area := of_Z 2800; type := VStr "Penthouse";
                  yearBuilt := of_Z 2020; garage := of_Z 2 |};
       description := VStr "Sophisticated penthouse in the heart of downtown with breathtaking city skyline views. Features include a private rooftop terrace, smart home technology, and premium finishes throughout.";
       status := VStr "available";
       images := [];
       createdAt := VStr date;
       updatedAt := VStr date |};
    {| id := VNum (of_Z 3);
       title := VStr "Charming Victorian Home";
       price := "$875,000";
       loc := {| address := VStr "789 Elm Avenue"; city := VStr "San Francisco";
                 state := VStr "CA"; zip := VStr "94102"; country := VStr "US" |};
       feat := {| bedrooms := of_Z 4; bathrooms := of_Z 2;
                  area := of_Z 2100; type := VStr "Victorian";
                  yearBuilt := of_Z 1895; garage := of_Z 1 |};
       description := VStr "Beautifully restored Victorian home with original hardwood floors, ornate moldings, and modern updates. Located in a quiet neighborhood with tree-lined streets and excellent schools nearby.";
       status := VStr "available";
       images := [];
       createdAt := VStr date;
       updatedAt := VStr date |} ].

(** The body of the [for] loop of [fetchWithRetry], from iteration [attempt]
    on, with [fuel] iterations left ([attempt <= retryAttempts] holds for
    exactly those).  After the last one, [throw lastError]. *)
Fixpoint fetchWithRetry_loop (fuel : nat) (u : string) (attempt : Z)
  (lastError : exn) : M response :=
  match fuel with
  | O => throw lastError
  | S f =>
      try_catch
        (response <- fetch u ;;
         if negb (ok response)
         then throw (JsError "Error"
                       ("HTTP " +:+ pretty (resp_status response) +:+ ": "
                        +:+ resp_statusText response))
         else ret response)
        (fun error =>
           fun w =>
             ((if attempt <? retryAttempts w
               then delay (retryDelay w * attempt)
               else ret tt) ;;;
              fetchWithRetry_loop f u (attempt + 1) error) w)
  end.

(** [fetchWithRetry(url, options = {})]; [lastError] starts [undefined]. *)
Definition fetchWithRetry (u : string) : M response :=
  fun w =>
    fetchWithRetry_loop (Z.to_nat (retryAttempts w)) u 1 (Thrown VUndefined) w.

(** The query of [fetchProperties]:
    [new URLSearchParams({limit: options.limit || 50,
                          offset: options.offset || 0, ...options})] *)
Definition params (options : object) : string :=
  URLSearchParams_toString
    (spread [("limit", or (get options "limit") (VNum (of_Z 50)));
             ("offset", or (get options "offset") (VNum (of_Z 0)))]
            options).

Definition cacheKey (options : object) : string :=
  "properties_" +:+ params options.

Definition properties_url (w : world) (options : object) : string :=
  baseUrl w +:+ "/properties?" +:+ params options.

(** [options.useMockData !== false] *)
Definition fallback_permitted (options : object) : bool :=
  match get options "useMockData" with
  | VBool false => false
  | _ => true
  end.

Definition cache_set (k : string) (r : ref) : M unit :=
  fun w => (Ok tt, set_cache (<[k := r]> (cache w)) w).

(** [fetchProperties(options = {})].  [properties.map(this.normalizeProperty)]
    hands the method over unbound, so it runs with [this] undefined. *)
Definition fetchProperties (options : object) : M ref :=
  fun w =>
    match cache w !! cacheKey options with
    | Some r => (Ok r, w)
    | None =>
        try_catch
          (response <- fetchWithRetry (properties_url w options) ;;
           properties <- json_of response ;;
           normalizedProperties <-
             match properties with
             | VArray l =>
                 fun w' => lift (array_map (normalizeProperty ThisUndefined (now w')) l) w'
             | _ => throw (JsError "TypeError" "properties.map is not a function")
             end ;;
           r <- alloc (CProperties normalizedProperties) ;;
           cache_set (cacheKey options) r ;;;
           ret r)
          (fun error =>
             if fallback_permitted options
             then fun w' => alloc (CProperties (getMockProperties (now w'))) w'
             else throw (JsError "Error"
                    "Unable to load properties. Please check your connection."))
          w
    end.

(** [fetchProperty(id)] *)
Definition fetchProperty (i : value) : M ref :=
  fun w =>
    let cacheKey := "property_" +:+ to_string i in
    match cache w !! cacheKey with
    | Some r => (Ok r, w)
    | None =>
        try_catch
          (response <- fetchWithRetry (baseUrl w +:+ "/properties/" +:+ to_string i) ;;
           property <- json_of response ;;
           normalizedProperty <-
             (fun w' => lift (normalizeProperty ThisApi (now w') property) w') ;;
           r <- alloc (CProperty normalizedProperty) ;;
           cache_set cacheKey r ;;;
           ret r)
          (fun error => throw error)
          w
    end.

Definition placeholder_image : image :=
  {| url := VStr getPlaceholderImage;
     thumbnail := VStr getPlaceholderImage;
     alt := VStr "Property image not available";
     caption := VStr "" |}.

(** The callback of [images.map] in [fetchPropertyImages]. *)
Definition validate_image (propertyId : value) (img : value) : result image :=
  match properties_of img with
  | None =>
      Throw (JsError "TypeError" "Cannot read properties of null (reading 'url')")
  | Some o =>
      Ok {| url := get o "url";
            thumbnail := or (get o "thumbnail") (get o "url");
            alt := or (get o "alt")
                      (VStr ("Property " +:+ to_string propertyId +:+ " image"));
            caption := or (get o "caption") (VStr "") |}
  end.

(** [fetchPropertyImages(propertyId)] *)
Definition fetchPropertyImages (propertyId : value) : M ref :=
  fun w =>
    let cacheKey := "images_" +:+ to_string propertyId in
    match cache w !! cacheKey with
    | Some r => (Ok r, w)
    | None =>
        try_catch
          (response <- fetchWithRetry
                         (baseUrl w +:+ "/properties/" +:+ to_string propertyId
                          +:+ "/images") ;;
           imgs <- json_of response ;;
           validatedImages <-
             match imgs with
             | VArray l => lift (array_map (validate_image propertyId) l)
             | _ => throw (JsError "TypeError" "images.map is not a function")
             end ;;
           r <- alloc (CImages validatedImages) ;;
           cache_set cacheKey r ;;;
           ret r)
          (fun error => alloc (CImages [placeholder_image]))
          w
    end.

(** [clearCache()] *)
Definition clearCache : M unit :=
  fun w => (Ok tt, set_cache ∅ w).

End Api.

(** ** [src/slideshow.js]: class [RealEstateSlideshow] *)

Module Slideshow.
Import JS.

(** The part of the page the controller writes to.  The markup of a slide is
    represented by the property [createSlideHTML] builds it from; the
    progress percentage by the quotient it is computed from. *)
Record dom := {
  loading : bool;
  slideWrapper : bool;
  currentSlide : option Api.Property;
  progress : option (index * index);
  currentSlideNum : option index;
  totalSlides : option index;
  playPauseIcon : string;
  playPauseLabel : string;
  errorMessage : option string;
  announcements : list string;
  preloaded : list value }.

Record t := {
  properties : Api.ref;
  currentIndex : index;
  isPlaying : bool;
  autoAdvanceInterval : option nat;
  autoAdvanceDelay : Z;
  isLoading : bool;
  keyboardEnabled : bool;
  elements : dom;
  (** the running [setInterval] timers, by handle, with their delay *)
  intervals : list (nat * Z);
  next_handle : nat;
  (** [window.realEstateAPI] *)
  api : Api.world }.

Definition set_properties (r : Api.ref) (s : t) : t :=
  {| properties := r; currentIndex := currentIndex s; isPlaying := isPlaying s;
     autoAdvanceInterval := autoAdvanceInterval s;
     autoAdvanceDelay := autoAdvanceDelay s; isLoading := isLoading s;
     keyboardEnabled := keyboardEnabled s; elements := elements s;
     intervals := intervals s; next_handle := next_handle s; api := api s |}.

Definition set_currentIndex (i : index) (s : t) : t :=
  {| properties := properties s; currentIndex := i; isPlaying := isPlaying s;
     autoAdvanceInterval := autoAdvanceInterval s;
     autoAdvanceDelay := autoAdvanceDelay s; isLoading := isLoading s;
     keyboardEnabled := keyboardEnabled s; elements := elements s;
     intervals := intervals s; next_handle := next_handle s; api := api s |}.

Definition set_isPlaying (b : bool) (s : t) : t :=
  {| properties := properties s; currentIndex := currentIndex s; isPlaying := b;
     autoAdvanceInterval := autoAdvanceInterval s;
     autoAdvanceDelay := autoAdvanceDelay s; isLoading := isLoading s;
     keyboardEnabled := keyboardEnabled s; elements := elements s;
     intervals := intervals s; next_handle := next_handle s; api := api s |}.

Definition set_isLoading (b : bool) (s : t) : t :=
  {| properties := properties s; currentIndex := currentIndex s;
     isPlaying := isPlaying s; autoAdvanceInterval := autoAdvanceInterval s;
     autoAdvanceDelay := autoAdvanceDelay s; isLoading := b;
     keyboardEnabled := keyboardEnabled s; elements := elements s;
     intervals := intervals s; next_handle := next_handle s; api := api s |}.

Definition set_elements (d : dom) (s : t) : t :=
  {| properties := properties s; currentIndex := currentIndex s;
     isPlaying := isPlaying s; autoAdvanceInterval := autoAdvanceInterval s;
     autoAdvanceDelay := autoAdvanceDelay s; isLoading := isLoading s;
     keyboardEnabled := keyboardEnabled s; elements := d;
     intervals := intervals s; next_handle := next_handle s; api := api s |}.

Definition set_timers (h : option nat) (l : list (nat * Z)) (n : nat) (s : t)
  : t :=
  {| properties := properties s; currentIndex := currentIndex s;
     isPlaying := isPlaying s; autoAdvanceInterval := h;
     autoAdvanceDelay := autoAdvanceDelay s; isLoading := isLoading s;
     keyboardEnabled := keyboardEnabled s; elements := elements s;
     intervals := l; next_handle := n; api := api s |}.

Definition set_api (w : Api.world) (s : t) : t :=
  {| properties := properties s; currentIndex := currentIndex s;
     isPlaying := isPlaying s; autoAdvanceInterval := autoAdvanceInterval s;
     autoAdvanceDelay := autoAdvanceDelay s; isLoading := isLoading s;
     keyboardEnabled := keyboardEnabled s; elements := elements s;
     intervals := intervals s; next_handle := next_handle s; api := w |}.

(** [this.properties], read through the reference *)
Definition props (s : t) : list Api.Property :=
  match Api.heap (api s) !! properties s with
  | Some (Api.CProperties l) => l
  | _ => []
  end.

(** The fields set by [constructor()], before it calls [init()]; the page
    and the API object are given.  [this.properties = []] is a fresh array. *)
Definition constructor (page : dom) (w : Api.world) : t :=
  {| properties := length (Api.heap w);
     currentIndex := Idx 0;
     isPlaying := true;
     autoAdvanceInterval := None;
     autoAdvanceDelay := 8000;
     isLoading := false;
     keyboardEnabled := true;
     elements := page;
     intervals := [];
     next_handle := 1;
     api := Api.set_heap (Api.heap w ++ [Api.CProperties []]) w |}.

(** *** Page updates *)

(** [updateProgress()] *)
Definition updateProgress (s : t) : t :=
  let d := elements s in
  set_elements
    {| loading := loading d; slideWrapper := slideWrapper d;
       currentSlide := currentSlide d;
       progress := Some (idx_add (currentIndex s) (Idx 1), len (props s));
       currentSlideNum := currentSlideNum d; totalSlides := totalSlides d;
       playPauseIcon := playPauseIcon d; playPauseLabel := playPauseLabel d;
       errorMessage := errorMessage d; announcements := announcements d;
       preloaded := preloaded d |} s.

(** [updateSlideCounter()] *)
Definition updateSlideCounter (s : t) : t :=
  let d := elements s in
  set_elements
    {| loading := loading d; slideWrapper := slideWrapper d;
       currentSlide := currentSlide d; progress := progress d;
       currentSlideNum := Some (idx_add (currentIndex s) (Idx 1));
       totalSlides := Some (len (props s));
       playPauseIcon := playPauseIcon d; playPauseLabel := playPauseLabel d;
       errorMessage := errorMessage d; announcements := announcements d;
       preloaded := preloaded d |} s.

(** [showLoading(show)] *)
Definition showLoading (show : bool) (s : t) : t :=
  let d := elements s in
  set_elements
    {| loading := show; slideWrapper := negb show;
       currentSlide := currentSlide d; progress := progress d;
       currentSlideNum := currentSlideNum d; totalSlides := totalSlides d;
       playPauseIcon := playPauseIcon d; playPauseLabel := playPauseLabel d;
       errorMessage := errorMessage d; announcements := announcements d;
       preloaded := preloaded d |} s.

(** [showError(message)] *)
Definition showError (message : string) (s : t) : t :=
  let s := showLoading false s in
  let d := elements s in
  set_elements
    {| loading := loading d; slideWrapper := slideWrapper d;
       currentSlide := currentSlide d; progress := progress d;
       currentSlideNum := currentSlideNum d; totalSlides := totalSlides d;
       playPauseIcon := playPauseIcon d; playPauseLabel := playPauseLabel d;
       errorMessage := Some message; announcements := announcements d;
       preloaded := preloaded d |} s.

(** [announceSlideChange(property)]; the element is taken off the page again
    after a second, the model keeps the texts announced. *)
Definition announceSlideChange (property : Api.Property) (s : t) : t :=
  let announcement :=
    "Showing property " +:+ idx_to_string (idx_add (currentIndex s) (Idx 1))
    +:+ " of " +:+ idx_to_string (len (props s)) +:+ ": "
    +:+ to_string (Api.title property) +:+ ", " +:+ Api.price property in
  let d := elements s in
  set_elements
    {| loading := loading d; slideWrapper := slideWrapper d;
       currentSlide := currentSlide d; progress := progress d;
       currentSlideNum := currentSlideNum d; totalSlides := totalSlides d;
       playPauseIcon := playPauseIcon d; playPauseLabel := playPauseLabel d;
       errorMessage := errorMessage d;
       announcements := announcements d ++ [announcement];
       preloaded := preloaded d |} s.

Definition set_currentSlide (p : Api.Property) (s : t) : t :=
  let d := elements s in
  set_elements
    {| loading := loading d; slideWrapper := slideWrapper d;
       currentSlide := Some p; progress := progress d;
       currentSlideNum := currentSlideNum d; totalSlides := totalSlides d;
       playPauseIcon := playPauseIcon d; playPauseLabel := playPauseLabel d;
       errorMessage := errorMessage d; announcements := announcements d;
       preloaded := preloaded d |} s.

Definition set_playPause (icon label : string) (s : t) : t :=
  let d := elements s in
  set_elements
    {| loading := loading d; slideWrapper := slideWrapper d;
       currentSlide := currentSlide d; progress := progress d;
       currentSlideNum := currentSlideNum d; totalSlides := totalSlides d;
       playPauseIcon := icon; playPauseLabel := label;
       errorMessage := errorMessage d; announcements := announcements d;
       preloaded := preloaded d |} s.

(** [createSlideHTML(property)]: reading [property.location] throws when
    [property] is [undefined]. *)
Definition createSlideHTML (property : option Api.Property)
  : Api.result Api.Property :=
  match property with
  | Some p => Api.Ok p
  | None =>
      Api.Throw (Api.JsError "TypeError"
        "Cannot read properties of undefined (reading 'location')")
  end.

(** *** Timer *)

(** [stopAutoAdvance()] *)
Definition stopAutoAdvance (s : t) : t :=
  match autoAdvanceInterval s with
  | Some h =>
      set_timers None
        (List.filter (fun e => negb (Nat.eqb (fst e) h)) (intervals s))
        (next_handle s) s
  | None => s
  end.

(** [startAutoAdvance()] *)
Definition startAutoAdvance (s : t) : t :=
  if negb (isPlaying s) then s
  else
    let s := stopAutoAdvance s in
    set_timers (Some (next_handle s))
      (intervals s ++ [(next_handle s, autoAdvanceDelay s)])
      (S (next_handle s)) s.

(** [resetAutoAdvance()] *)
Definition resetAutoAdvance (s : t) : t :=
  if isPlaying s then startAutoAdvance s else s.

(** [play()] *)
Definition play (s : t) : t :=
  let s := set_isPlaying true s in
  let s := set_playPause "⏸️" "Pause slideshow" s in
  startAutoAdvance s.

(** [pause()] *)
Definition pause (s : t) : t :=
  let s := set_isPlaying false s in
  let s := set_playPause "▶️" "Play slideshow" s in
  stopAutoAdvance s.

(** [togglePlayPause()] *)
Definition togglePlayPause (s : t) : t :=
  if isPlaying s then pause s else play s.

(** *** Navigation *)

(** [displaySlide(index)].  It has no [await] inside, so it runs to its end
    when called. *)
Definition displaySlide (i : index) (s : t) : t :=
  if idx_lt i (Idx 0) || idx_ge i (len (props s)) || isLoading s then s
  else
    let s := set_isLoading true s in
    let s := set_currentIndex i s in
    let property := nth_index (props s) i in
    match createSlideHTML property with
    | Api.Ok slideHTML =>
        let s := set_currentSlide slideHTML s in
        let s := updateProgress s in
        let s := updateSlideCounter s in
        let s := announceSlideChange slideHTML s in
        set_isLoading false s
    | Api.Throw error => set_isLoading false s
    end.

(** [preloadNextSlide()]: an [Image] is created for the first image of the
    next slide. *)
Definition preloadNextSlide (s : t) : t :=
  let nextIndex := idx_rem (idx_add (currentIndex s) (Idx 1)) (len (props s)) in
  match nth_index (props s) nextIndex with
  | Some nextProperty =>
      match Api.images nextProperty with
      | img :: _ =>
          let d := elements s in
          set_elements
            {| loading := loading d; slideWrapper := slideWrapper d;
               currentSlide := currentSlide d; progress := progress d;
               currentSlideNum := currentSlideNum d;
               totalSlides := totalSlides d;
               playPauseIcon := playPauseIcon d;
               playPauseLabel := playPauseLabel d;
               errorMessage := errorMessage d;
               announcements := announcements d;
               preloaded := preloaded d ++ [Api.url img] |} s
      | [] => s
      end
  | None => s
  end.

(** [goToSlide(index)].  The only [await] is on [displaySlide], which has
    already run; the rest follows before any other event is handled. *)
Definition goToSlide (i : index) (s : t) : t :=
  if idx_eq i (currentIndex s) || isLoading s then s
  else
    let s := displaySlide i s in
    let s := preloadNextSlide s in
    if isPlaying s then resetAutoAdvance s else s.

(** [previousSlide()] *)
Definition previousSlide (s : t) : t :=
  let prevIndex :=
    if idx_eq (currentIndex s) (Idx 0)
    then idx_sub (len (props s)) (Idx 1)
    else idx_sub (currentIndex s) (Idx 1) in
  goToSlide prevIndex s.

(** [nextSlide()] *)
Definition nextSlide (s : t) : t :=
  let nextIndex := idx_rem (idx_add (currentIndex s) (Idx 1)) (len (props s)) in
  goToSlide nextIndex s.

(** *** Loading *)

(** [this.properties[index].images = images]: the array is shared with
    whoever else holds it, the cache included. *)
Definition set_images (index : nat) (imgs : list Api.image) (s : t) : t :=
  match props s !! index with
  | Some p =>
      let p' :=
        {| Api.id := Api.id p; Api.title := Api.title p;
           Api.price := Api.price p; Api.loc := Api.loc p;
           Api.feat := Api.feat p; Api.description := Api.description p;
           Api.status := Api.status p; Api.images := imgs;
           Api.createdAt := Api.createdAt p;
           Api.updatedAt := Api.updatedAt p |} in
      set_api
        (Api.set_heap
           (<[properties s := Api.CProperties (<[index := p']> (props s))]>
              (Api.heap (api s)))
           (api s)) s
  | None => s
  end.

(** The callback of [this.properties.map] in [preloadPropertyImages]. *)
Definition load_images (s : t) (entry : nat * Api.Property) : t :=
  let '(index, property) := entry in
  match Api.fetchPropertyImages (Api.id property) (api s) with
  | (Api.Ok r, w) =>
      let s := set_api w s in
      match Api.heap w !! r with
      | Some (Api.CImages imgs) => set_images index imgs s
      | _ => s
      end
  | (Api.Throw error, w) =>
      set_images index [Api.placeholder_image] (set_api w s)
  end.

(** [preloadPropertyImages()].  The source starts one call per property and
    waits for all of them; each call reads and writes its own cache key and
    its own slot of [properties], and the model runs them in index order. *)
Definition preloadPropertyImages (s : t) : t :=
  fold_left load_images (zip (seq 0 (length (props s))) (props s)) s.

(** [error.message] *)
Definition message_of (e : Api.exn) : string :=
  match e with
  | Api.JsError _ m => m
  | Api.Thrown v => "undefined"
  end.

(** [refresh()].  Events that arrive while it waits for the network are not
    interleaved. *)
Definition refresh (s : t) : t :=
  let s := showLoading true s in
  let s := pause s in
  let s := set_api (snd (Api.clearCache (api s))) s in
  match Api.fetchProperties [] (api s) with
  | (Api.Throw error, w) => showError (message_of error) (set_api w s)
  | (Api.Ok r, w) =>
      let s := set_properties r (set_api w s) in
      if idx_eq (len (props s)) (Idx 0)
      then showError "No properties available" s
      else
        let s := preloadPropertyImages s in
        let s := set_currentIndex (Idx 0) s in
        let s := updateSlideCounter s in
        let s := displaySlide (Idx 0) s in
        let s := preloadNextSlide s in
        let s := showLoading false s in
        play s
  end.

(** [init()], event listeners aside *)
Definition init (s : t) : t :=
  let s := showLoading true s in
  match Api.fetchProperties [] (api s) with
  | (Api.Throw error, w) => showError (message_of error) (set_api w s)
  | (Api.Ok r, w) =>
      let s := set_properties r (set_api w s) in
      if idx_eq (len (props s)) (Idx 0)
      then showError "No properties available" s
      else
        let s := preloadPropertyImages s in
        let s := updateSlideCounter s in
        let s := displaySlide (Idx 0) s in
        let s := preloadNextSlide s in
        let s := showLoading false s in
        startAutoAdvance s
  end.

End Slideshow.

(** ** The slideshow application script: class [PropertySlideshow]
       (the variant with message and rental slides) *)

Module PropertySlideshow.
Import JS.

(** An entry of [this.properties]: a sales property, a rental placeholder or
    a message, told apart by the optional fields [isMessage] and [isRental]
    ([false] when the field is missing).  [displayTime] is in milliseconds,
    [None] when the field is missing. *)
Record slide := {
  id : value;
  title : value;
  price : value;
  location : value;
  bedrooms : value;
  bathrooms : value;
  area : value;
  type : value;
  description : value;
  images : list value;
  mainImage : value;
  isMessage : bool;
  isRental : bool;
  backgroundColor : string;
  displayTime : option Z }.

(** What a timer runs when it fires. *)
Inductive callback : Type :=
  | CbNextSlide          (** [() => { this.nextSlide(); }] *)
  | CbMessageAdvance     (** [() => { if (this.isPlaying) this.nextSlide(); }] *)
  | CbRestoreBackground  (** the body background back to the gradient *)
  | CbFadeIn (p : slide) (** the image swap at the end of the fade *).

(** A pending [setTimeout] ([period = None]) or [setInterval]. *)
Record timer := {
  handle : nat;
  due : Z;
  period : option Z;
  action : callback }.

Record t := {
  properties : list slide;
  currentIndex : index;
  isPlaying : bool;
  intervalId : option nat;
  slideInterval : Z;
  (** the page: element properties by name *)
  page : gmap string value;
  progressFill : option (index * index);
  (** the browser's timers and clock, in milliseconds *)
  timers : list timer;
  next_handle : nat;
  clock : Z }.

Definition set_properties (l : list slide) (s : t) : t :=
  {| properties := l; currentIndex := currentIndex s; isPlaying := isPlaying s;
     intervalId := intervalId s; slideInterval := slideInterval s;
     page := page s; progressFill := progressFill s; timers := timers s;
     next_handle := next_handle s; clock := clock s |}.

Definition set_currentIndex (i : index) (s : t) : t :=
  {| properties := properties s; currentIndex := i; isPlaying := isPlaying s;
     intervalId := intervalId s; slideInterval := slideInterval s;
     page := page s; progressFill := progressFill s; timers := timers s;
     next_handle := next_handle s; clock := clock s |}.

Definition set_isPlaying (b : bool) (s : t) : t :=
  {| properties := properties s; currentIndex := currentIndex s; isPlaying := b;
     intervalId := intervalId s; slideInterval := slideInterval s;
     page := page s; progressFill := progressFill s; timers := timers s;
     next_handle := next_handle s; clock := clock s |}.

Definition set_intervalId (h : option nat) (s : t) : t :=
  {| properties := properties s; currentIndex := currentIndex s;
     isPlaying := isPlaying s; intervalId := h;
     slideInterval := slideInterval s; page := page s;
     progressFill := progressFill s; timers := timers s;
     next_handle := next_handle s; clock := clock s |}.

Definition set_page (p : gmap string value) (s : t) : t :=
  {| properties := properties s; currentIndex := currentIndex s;
     isPlaying := isPlaying s; intervalId := intervalId s;
     slideInterval := slideInterval s; page := p;
     progressFill := progressFill s; timers := timers s;
     next_handle := next_handle s; clock := clock s |}.

Definition set_progressFill (p : option (index * index)) (s : t) : t :=
  {| properties := properties s; currentIndex := currentIndex s;
     isPlaying := isPlaying s; intervalId := intervalId s;
     slideInterval := slideInterval s; page := page s;
     progressFill := p; timers := timers s;
     next_handle := next_handle s; clock := clock s |}.

Definition set_timers (l : list timer) (n : nat) (s : t) : t :=
  {| properties := properties s; currentIndex := currentIndex s;
     isPlaying := isPlaying s; intervalId := intervalId s;
     slideInterval := slideInterval s; page := page s;
     progressFill := progressFill s; timers := l;
     next_handle := n; clock := clock s |}.

Definition set_clock (c : Z) (s : t) : t :=
  {| properties := properties s; currentIndex := currentIndex s;
     isPlaying := isPlaying s; intervalId := intervalId s;
     slideInterval := slideInterval s; page := page s;
     progressFill := progressFill s; timers := timers s;
     next_handle := next_handle s; clock := c |}.

(** The fields set by [constructor()], before it calls [init()]. *)
Definition constructor (document : gmap string value) (time : Z) : t :=
  {| properties := []; currentIndex := Idx 0; isPlaying := true;
     intervalId := None; slideInterval := 8000; page := document;
     progressFill := None; timers := []; next_handle := 1; clock := time |}.

(** *** Browser timers *)

(** [setTimeout(cb, ms)]; a negative delay counts as zero. *)
Definition setTimeout (cb : callback) (ms : Z) (s : t) : nat * t :=
  (next_handle s,
   set_timers
     (timers s ++ [{| handle := next_handle s; due := clock s + Z.max 0 ms;
                      period := None; action := cb |}])
     (S (next_handle s)) s).

(** [setInterval(cb, ms)] *)
Definition setInterval (cb : callback) (ms : Z) (s : t) : nat * t :=
  (next_handle s,
   set_timers
     (timers s ++ [{| handle := next_handle s; due := clock s + Z.max 0 ms;
                      period := Some (Z.max 0 ms); action := cb |}])
     (S (next_handle s)) s).

(** The global [clearInterval(h)] *)
Definition clear_timer (h : nat) (s : t) : t :=
  set_timers (List.filter (fun tm => negb (Nat.eqb (handle tm) h)) (timers s))
             (next_handle s) s.

(** *** Computations that may throw *)

Definition M (A : Type) : Type := t -> Api.result A * t.

Definition ret {A} (a : A) : M A := fun s => (Api.Ok a, s).
Definition throw {A} (e : Api.exn) : M A := fun s => (Api.Throw e, s).
Definition bind {A B} (m : M A) (k : A -> M B) : M B :=
  fun s => match m s with
           | (Api.Ok a, s') => k a s'
           | (Api.Throw e, s') => (Api.Throw e, s')
           end.
Definition modify (f : t -> t) : M unit := fun s => (Api.Ok tt, f s).

Notation "m ;;; k" := (bind m (fun _ => k))
  (at level 100, right associativity).

(** *** Page updates *)

Definition write (k : string) (v : value) (s : t) : t :=
  set_page (<[k := v]> (page s)) s.

(** [updateProgress()] *)
Definition updateProgress (s : t) : t :=
  set_progressFill
    (Some (idx_add (currentIndex s) (Idx 1), len (properties s))) s.

(** [updateCounter()] *)
Definition updateCounter (s : t) : t :=
  write "slideCounter.textContent"
    (VStr (idx_to_string (idx_add (currentIndex s) (Idx 1)) +:+ "/"
           +:+ idx_to_string (len (properties s)))) s.

(** [updatePlayPauseButton()] *)
Definition updatePlayPauseButton (s : t) : t :=
  let s := write "playPauseIcon.textContent"
             (VStr (if isPlaying s then "⏸️" else "▶️")) s in
  write "playPauseBtn.aria-label"
    (VStr (if isPlaying s then "Pause slideshow" else "Play slideshow")) s.

Definition write_details (p : slide) (s : t) : t :=
  let s := write "title.textContent" (title p) s in
  let s := write "price.textContent" (price p) s in
  let s := write "location.textContent" (location p) s in
  let s := write "bedrooms.textContent" (bedrooms p) s in
  let s := write "bathrooms.textContent" (bathrooms p) s in
  let s := write "area.textContent" (area p) s in
  let s := write "propertyType.textContent" (type p) s in
  write "description.textContent" (description p) s.

(** [showProperty(property)] *)
Definition showProperty (property : slide) (s : t) : t :=
  let s := write "image.style.display" (VStr "block") s in
  let s := write "image.style.opacity" (VStr "0") s in
  let s := snd (setTimeout (CbFadeIn property) 150 s) in
  let s := write_details property s in
  let s := updateProgress s in
  updateCounter s.

(** [showRentalProperty(property)] *)
Definition showRentalProperty (property : slide) (s : t) : t :=
  let s := write "image.style.display" (VStr "none") s in
  let s := write_details property s in
  let s := updateProgress s in
  updateCounter s.

(** [parseSimpleMessage(messageText)] *)
Definition parseSimpleMessage (messageText : value) : string :=
  "<div style=" +:+ dquote
  +:+ "font-size: 2rem; text-align: center; padding: 2rem;" +:+ dquote +:+ ">"
  +:+ to_string messageText +:+ "</div>".

Definition time_truthy (d : option Z) : bool :=
  match d with
  | Some ms => negb (ms =? 0)
  | None => false
  end.

(** The delay [setTimeout] uses for [message.displayTime]; [undefined]
    counts as zero. *)
Definition time_ms (d : option Z) : Z :=
  match d with
  | Some ms => ms
  | None => 0
  end.

(** [showMessage(message)] *)
Definition showMessage (message : slide) (s : t) : t :=
  let s := write "image.style.display" (VStr "none") s in
  let s := write "title.textContent" (VStr "") s in
  let s := write "price.textContent" (VStr "") s in
  let s := write "location.textContent" (VStr "") s in
  let s := write "bedrooms.textContent" (VStr "") s in
  let s := write "bathrooms.textContent" (VStr "") s in
  let s := write "area.textContent" (VStr "") s in
  let s := write "propertyType.textContent" (VStr "") s in
  let s := write "description.innerHTML"
             (VStr (parseSimpleMessage (description message))) s in
  let s :=
    if negb (String.eqb (backgroundColor message) "") then
      let s := write "body.style.background" (VStr (backgroundColor message)) s in
      snd (setTimeout CbRestoreBackground (time_ms (displayTime message)) s)
    else s in
  let s :=
    if time_truthy (displayTime message) && isPlaying s then
      snd (setTimeout CbMessageAdvance (time_ms (displayTime message)) s)
    else s in
  let s := updateProgress s in
  updateCounter s.

(** [updateDisplay()]; reading [property.isMessage] throws when
    [this.properties[this.currentIndex]] is [undefined]. *)
Definition updateDisplay : M unit :=
  fun s =>
    match nth_index (properties s) (currentIndex s) with
    | None =>
        (Api.Throw (Api.JsError "TypeError"
           "Cannot read properties of undefined (reading 'isMessage')"), s)
    | Some property =>
        if isMessage property then (Api.Ok tt, showMessage property s)
        else if isRental property && negb (truthy (mainImage property))
        then (Api.Ok tt, showRentalProperty property s)
        else (Api.Ok tt, showProperty property s)
    end.

(** *** Playback *)

(** The method [clearInterval()] *)
Definition clearInterval (s : t) : t :=
  match intervalId s with
  | Some h => set_intervalId None (clear_timer h s)
  | None => s
  end.

(** [startSlideshow()] *)
Definition startSlideshow (s : t) : t :=
  let s := clearInterval s in
  if isPlaying s then
    let '(h, s) := setInterval CbNextSlide (slideInterval s) s in
    set_intervalId (Some h) s
  else s.

(** [pauseSlideshow()] *)
Definition pauseSlideshow (s : t) : t :=
  let s := set_isPlaying false s in
  let s := clearInterval s in
  updatePlayPauseButton s.

(** [resumeSlideshow()] *)
Definition resumeSlideshow (s : t) : t :=
  let s := set_isPlaying true s in
  let s := startSlideshow s in
  updatePlayPauseButton s.

(** [togglePlayPause()] *)
Definition togglePlayPause (s : t) : t :=
  if isPlaying s then pauseSlideshow s else resumeSlideshow s.

(** [goToSlide(index)] *)
Definition goToSlide (i : index) : M unit :=
  modify (set_currentIndex i) ;;;
  updateDisplay ;;;
  modify startSlideshow.

(** [nextSlide()] *)
Definition nextSlide : M unit :=
  fun s =>
    goToSlide (idx_rem (idx_add (currentIndex s) (Idx 1)) (len (properties s))) s.

(** [previousSlide()] *)
Definition previousSlide : M unit :=
  fun s =>
    goToSlide
      (idx_rem (idx_add (idx_sub (currentIndex s) (Idx 1)) (len (properties s)))
               (len (properties s))) s.

(** [init()] once [loadProperties()] has put [loaded] in [this.properties];
    on an exception, [showError()]. *)
Definition init (loaded : list slide) (s : t) : t :=
  let s := write "loadingIndicator.style.display" (VStr "block") s in
  let s := write "errorMessage.style.display" (VStr "none") s in
  let s := set_properties loaded s in
  let s := startSlideshow s in
  match updateDisplay s with
  | (Api.Ok _, s) => write "loadingIndicator.style.display" (VStr "none") s
  | (Api.Throw _, s) =>
      let s := write "loadingIndicator.style.display" (VStr "none") s in
      write "errorMessage.style.display" (VStr "block") s
  end.

(** *** The event loop, timers only *)

(** The pending timer that fires first: the earliest [due], the oldest
    handle among equals. *)
Definition earlier (a b : timer) : bool :=
  (due a <? due b) || ((due a =? due b) && (handle a <=? handle b)%nat).

Fixpoint first_timer (l : list timer) : option timer :=
  match l with
  | [] => None
  | tm :: r =>
      match first_timer r with
      | Some tm' => if earlier tm tm' then Some tm else Some tm'
      | None => Some tm
      end
  end.

Definition run_callback (cb : callback) : M unit :=
  match cb with
  | CbNextSlide => nextSlide
  | CbMessageAdvance => fun s => if isPlaying s then nextSlide s else ret tt s
  | CbRestoreBackground =>
      modify (write "body.style.background" (VStr "var(--primary-gradient)"))
  | CbFadeIn p =>
      modify (fun s =>
        let s := write "image.src" (or (mainImage p) (VStr "")) s in
        let s := write "image.alt"
                   (VStr ("Image of " +:+ to_string (title p))) s in
        write "image.style.opacity" (VStr "1") s)
  end.

(** Let time pass until the next timer fires and run its callback: a
    timeout is dropped, an interval is armed again one period later.
    [None] when no timer is pending. *)
Definition fire (s : t) : option (timer * (Api.result unit * t)) :=
  match first_timer (timers s) with
  | None => None
  | Some tm =>
      let s := set_clock (Z.max (clock s) (due tm)) s in
      let rest := List.filter (fun x => negb (Nat.eqb (handle x) (handle tm)))
                              (timers s) in
      let s :=
        match period tm with
        | Some p =>
            set_timers (rest ++ [{| handle := handle tm; due := due tm + p;
                                    period := Some p; action := action tm |}])
                       (next_handle s) s
        | None => set_timers rest (next_handle s) s
        end in
      Some (tm, run_callback (action tm) s)
  end.

End PropertySlideshow.

(** ** [src/slideshow.js]: [escapeHtml] and the event listeners *)

From Stdlib Require Import QArith Qabs.
Open Scope Z_scope.

Module SlideshowEvents.
Import JS Slideshow.

(** [s.replace(/c/g, r)] for a pattern of one character *)
Fixpoint replace_all (c : ascii) (r : string) (s : string) : string :=
  match s with
  | EmptyString => EmptyString
  | String a rest =>
      if Ascii.eqb a c then r +:+ replace_all c r rest
      else String a (replace_all c r rest)
  end.

Definition apostrophe : ascii := ascii_of_nat 39.
Definition quotation_mark : ascii := ascii_of_nat 34.

(** [escapeHtml(unsafe)] *)
Definition escapeHtml (unsafe : value) : string :=
  match unsafe with
  | VStr s =>
      replace_all apostrophe "&#039;"
        (replace_all quotation_mark "&quot;"
           (replace_all ">" "&gt;"
              (replace_all "<" "&lt;"
                 (replace_all "&" "&amp;" s))))
  | _ => ""
  end.

(** [getCurrentProperty()], [None] for [undefined] *)
Definition getCurrentProperty (s : t) : option Api.Property :=
  nth_index (props s) (currentIndex s).

(** [handleResize()] writes to the console only. *)
Definition handleResize (s : t) : t := s.

(** The [keydown] listener, by [event.code]. *)
Definition keydown (code : string) (s : t) : t :=
  if negb (keyboardEnabled s) then s
  else if String.eqb code "ArrowLeft" || String.eqb code "ArrowUp"
  then previousSlide s
  else if String.eqb code "ArrowRight" || String.eqb code "ArrowDown"
  then nextSlide s
  else if String.eqb code "Space" then togglePlayPause s
  else if String.eqb code "Home" then goToSlide (Idx 0) s
  else if String.eqb code "End"
  then goToSlide (idx_sub (len (props s)) (Idx 1)) s
  else if String.eqb code "Escape" then (if isPlaying s then pause s else s)
  else s.

(** Whether the [keydown] listener calls [event.preventDefault()]. *)
Definition keydown_prevents_default (code : string) (s : t) : bool :=
  keyboardEnabled s
  && existsb (String.eqb code)
       ["ArrowLeft"; "ArrowUp"; "ArrowRight"; "ArrowDown"; "Space"; "Home";
        "End"; "Escape"].

(** The variables [startX] and [startY] shared by the two touch listeners. *)
Record swipe := { startX : Q; startY : Q }.

(** [a > b] on coordinates *)
Definition Qgtb (a b : Q) : bool := negb (Qle_bool a b).

(** The [touchstart] listener, with the position of the first touch. *)
Definition touchstart (clientX clientY : Q) (g : swipe) : swipe :=
  {| startX := clientX; startY := clientY |}.

(** The [touchend] listener, with the position of the first changed touch. *)
Definition touchend (clientX clientY : Q) (g : swipe) (s : t) : swipe * t :=
  if Qeq_bool (startX g) 0 || Qeq_bool (startY g) 0 then (g, s)
  else
    let diffX := (startX g - clientX)%Q in
    let diffY := (startY g - clientY)%Q in
    let s :=
      if Qgtb (Qabs diffX) (Qabs diffY) && Qgtb (Qabs diffX) 50
      then (if Qgtb diffX 0 then nextSlide s else previousSlide s)
      else s in
    ({| startX := 0; startY := 0 |}, s).

(** The [visibilitychange] listener, with [document.hidden]. *)
Definition visibilitychange (hidden : bool) (s : t) : t :=
  if hidden then pause s
  else if isPlaying s then play s
  else s.

(** The callback of the timer set by [startAutoAdvance], for the timer with
    handle [h]: it runs as long as the timer has not been cleared. *)
Definition interval_fires (h : nat) (s : t) : t :=
  if existsb (fun e => Nat.eqb (fst e) h) (intervals s) then nextSlide s else s.

(** What can happen to the page once [init()] is through. *)
Inductive event : Type :=
  | ClickPrev
  | ClickNext
  | ClickPlayPause
  | KeyDown (code : string)
  | TouchStart (clientX clientY : Q)
  | TouchEnd (clientX clientY : Q)
  | VisibilityChange (hidden : bool)
  | Resize
  | IntervalFires (h : nat).

Definition dispatch (gs : swipe * t) (e : event) : swipe * t :=
  let '(g, s) := gs in
  match e with
  | ClickPrev => (g, previousSlide s)
  | ClickNext => (g, nextSlide s)
  | ClickPlayPause => (g, togglePlayPause s)
  | KeyDown code => (g, keydown code s)
  | TouchStart x y => (touchstart x y g, s)
  | TouchEnd x y => touchend x y g s
  | VisibilityChange hidden => (g, visibilitychange hidden s)
  | Resize => (g, handleResize s)
  | IntervalFires h => (g, interval_fires h s)
  end.

Definition dispatch_all (es : list event) (gs : swipe * t) : swipe * t :=
  fold_left dispatch es gs.

End SlideshowEvents.

(** ** The slideshow application script: the event handlers of
       [PropertySlideshow] *)

Module PropertySlideshowEvents.
Import JS PropertySlideshow.

(** [handleKeyPress(e)], by [e.key] *)
Definition handleKeyPress (key : string) : M unit :=
  fun s =>
    if String.eqb key "ArrowLeft" || String.eqb key "ArrowUp"
    then previousSlide s
    else if String.eqb key "ArrowRight" || String.eqb key "ArrowDown"
    then nextSlide s
    else if String.eqb key " " then modify togglePlayPause s
    else if String.eqb key "Home" then goToSlide (Idx 0) s
    else if String.eqb key "End"
    then goToSlide (idx_sub (len (properties s)) (Idx 1)) s
    else ret tt s.

(** The fields [touchStartX], [touchStartY], [touchEndX], [touchEndY]. *)
Record touch := {
  touchStartX : Q;
  touchStartY : Q;
  touchEndX : Q;
  touchEndY : Q }.

(** As set by [constructor()]. *)
Definition no_touch : touch :=
  {| touchStartX := 0; touchStartY := 0; touchEndX := 0; touchEndY := 0 |}.

(** [handleTouchStart(e)], with the position of the first changed touch. *)
Definition handleTouchStart (screenX screenY : Q) (g : touch) : touch :=
  {| touchStartX := screenX; touchStartY := screenY;
     touchEndX := touchEndX g; touchEndY := touchEndY g |}.

(** [handleSwipe()] *)
Definition handleSwipe (g : touch) : M unit :=
  let deltaX := (touchStartX g - touchEndX g)%Q in
  let deltaY := (touchStartY g - touchEndY g)%Q in
  let minSwipeDistance := 50%Q in
  if SlideshowEvents.Qgtb (Qabs deltaX) (Qabs deltaY)
     && SlideshowEvents.Qgtb (Qabs deltaX) minSwipeDistance
  then (if SlideshowEvents.Qgtb deltaX 0 then nextSlide else previousSlide)
  else ret tt.

(** [handleTouchEnd(e)] *)
Definition handleTouchEnd (screenX screenY : Q) (g : touch) (s : t)
  : touch * (Api.result unit * t) :=
  let g := {| touchStartX := touchStartX g; touchStartY := touchStartY g;
              touchEndX := screenX; touchEndY := screenY |} in
  (g, handleSwipe g s).

(** [handleImageClick(e)], with [e.clientX] and the left edge and the width
    of the image. *)
Definition handleImageClick (clientX left width : Q) : M unit :=
  let clickX := (clientX - left)%Q in
  if SlideshowEvents.Qgtb (width / 2) clickX then previousSlide else nextSlide.

(** [handleVisibilityChange()], with [document.hidden]. *)
Definition handleVisibilityChange (hidden : bool) (s : t) : t :=
  if hidden then pauseSlideshow s else resumeSlideshow s.

(** What can happen to the page once [init()] is through; an exception
    thrown by a listener ends the listener and nothing else. *)
Inductive event : Type :=
  | ClickPrev
  | ClickNext
  | ClickPlayPause
  | KeyDown (key : string)
  | TouchStart (screenX screenY : Q)
  | TouchEnd (screenX screenY : Q)
  | ImageClick (clientX left width : Q)
  | VisibilityChange (hidden : bool)
  | TimerFires.

Definition dispatch (gs : touch * t) (e : event) : touch * t :=
  let '(g, s) := gs in
  match e with
  | ClickPrev => (g, snd (previousSlide s))
  | ClickNext => (g, snd (nextSlide s))
  | ClickPlayPause => (g, togglePlayPause s)
  | KeyDown key => (g, snd (handleKeyPress key s))
  | TouchStart x y => (handleTouchStart x y g, s)
  | TouchEnd x y => let '(g, (_, s)) := handleTouchEnd x y g s in (g, s)
  | ImageClick x l w => (g, snd (handleImageClick x l w s))
  | VisibilityChange hidden => (g, handleVisibilityChange hidden s)
  | TimerFires =>
      match fire s with
      | Some (_, (_, s)) => (g, s)
      | None => (g, s)
      end
  end.

Definition dispatch_all (es : list event) (gs : touch * t) : touch * t :=
  fold_left dispatch es gs.

End PropertySlideshowEvents.

(** ** Properties of the listing repository *)

Module ApiSpec.
Import JS Api.

(** *** The request log *)

Lemma requests_app u l l' : requests u (l ++ l') = (requests u l + requests u l')%nat.
Proof. unfold requests. by rewrite List.filter_app, length_app. Qed.

Lemma fetches_app l l' : fetches (l ++ l') = (fetches l + fetches l')%nat.
Proof. unfold fetches. by rewrite List.filter_app, length_app. Qed.

Lemma requests_fetch u : requests u [EvFetch u] = 1%nat.
Proof. unfold requests. simpl. by rewrite String.eqb_refl. Qed.

Lemma requests_delay u ms : requests u [EvDelay ms] = 0%nat.
Proof. done. Qed.

(** What one attempt ends in: the response when its status is in 200-299,
    otherwise the transport error or the error thrown for the status. *)
Definition outcome_result (o : outcome) : result response :=
  match o with
  | NetFailure msg => Throw (JsError "TypeError" msg)
  | NetResponse r =>
      if ok r then Ok r
      else Throw (JsError "Error"
                    ("HTTP " +:+ pretty (resp_status r) +:+ ": "
                     +:+ resp_statusText r))
  end.

Definition failed (o : outcome) : bool :=
  match outcome_result o with
  | Ok _ => false
  | Throw _ => true
  end.

(** A transport failure and a status outside 200-299 both fail the attempt;
    nothing else does. *)
Lemma failed_iff o :
  failed o = true <->
  (exists msg, o = NetFailure msg) \/
  (exists r, o = NetResponse r /\ (resp_status r < 200 \/ 299 < resp_status r)).
Proof.
  unfold failed. destruct o as [msg|r]; simpl.
  - split; [eauto|done].
  - unfold ok. destruct (Z.leb_spec 200 (resp_status r));
      destruct (Z.leb_spec (resp_status r) 299); simpl; split;
      try done; try (intros _; right; exists r; split; [done|lia]);
      intros [[? ?]|[? [[= <-] ?]]]; try done; lia.
Qed.

(** One pass through the [try] block of [fetchWithRetry]. *)
Lemma attempt_spec u w :
  (response <- fetch u ;;
   if negb (ok response)
   then throw (JsError "Error"
                 ("HTTP " +:+ pretty (resp_status response) +:+ ": "
                  +:+ resp_statusText response))
   else ret response) w
  = (outcome_result (net w u (requests u (log w))),
     set_log (log w ++ [EvFetch u]) w).
Proof.
  unfold bind, fetch, outcome_result.
  destruct (net w u (requests u (log w))) as [msg|r]; [done|].
  by destruct (ok r).
Qed.

(** One iteration of the loop. *)
Lemma fetchWithRetry_loop_step f u a e w :
  fetchWithRetry_loop (S f) u a e w =
    match outcome_result (net w u (requests u (log w))) with
    | Ok r => (Ok r, set_log (log w ++ [EvFetch u]) w)
    | Throw e' =>
        fetchWithRetry_loop f u (a + 1) e'
          (set_log (log w ++ EvFetch u ::
                      (if a <? retryAttempts w
                       then [EvDelay (retryDelay w * a)] else [])) w)
    end.
Proof.
  cbn [fetchWithRetry_loop]. unfold try_catch. rewrite attempt_spec.
  destruct (outcome_result _) as [r|e']; [done|].
  cbn [retryAttempts retryDelay set_log]. unfold bind.
  destruct (a <? retryAttempts w); cbn.
  - by rewrite <- app_assoc.
  - done.
Qed.

Lemma requests_cons_fetch u l : requests u (EvFetch u :: l) = S (requests u l).
Proof. unfold requests. simpl. by rewrite String.eqb_refl. Qed.

Lemma requests_cons_delay u ms l : requests u (EvDelay ms :: l) = requests u l.
Proof. done. Qed.

(** A network on which every request fails, and the API object built on it. *)
Definition offline : string -> nat -> outcome :=
  fun _ _ => NetFailure "Failed to fetch".

Definition api_offline : world := constructor offline "2024-01-01T00:00:00.000Z".

(** C2. [fetchWithRetry] makes at most three attempts; the second is
    preceded by a delay of 1000 ms and the third by one of 2000 ms; an attempt
    fails on a transport failure and on a status outside 200-299 alike
    ([failed], [failed_iff]); the result is that of the first attempt that
    does not fail, and when all three fail, the error of the third is thrown
    after 3000 ms of delays in total. *)
Theorem fetchWithRetry_three_attempts u w :
  retryAttempts w = 3 -> retryDelay w = 1000 ->
  let k := requests u (log w) in
  let o1 := net w u k in
  let o2 := net w u (S k) in
  let o3 := net w u (S (S k)) in
  exists r new,
    fetchWithRetry u w = (r, set_log (log w ++ new) w) /\
    (r, new) =
      (if negb (failed o1) then (outcome_result o1, [EvFetch u])
       else if negb (failed o2)
       then (outcome_result o2, [EvFetch u; EvDelay 1000; EvFetch u])
       else (outcome_result o3,
             [EvFetch u; EvDelay 1000; EvFetch u; EvDelay 2000; EvFetch u])) /\
    (1 <= fetches new <= 3)%nat /\
    (if failed o1 && failed o2 && failed o3
     then (exists e, outcome_result o3 = Throw e /\ r = Throw e) /\
          fetches new = 3%nat /\ delays new = [1000; 2000] /\
          foldr Z.add 0 (delays new) = 3000
     else exists response, r = Ok response /\ ok response = true).
Proof.
  intros Hn Hd k o1 o2 o3. unfold fetchWithRetry. rewrite Hn.
  change (Z.to_nat 3) with 3%nat.
  rewrite fetchWithRetry_loop_step. fold k o1. unfold failed.
  destruct (outcome_result o1) as [r1|e1] eqn:E1.
  { exists (Ok r1), [EvFetch u]. repeat split; try done; try (unfold fetches; simpl; lia).
    exists r1. split; [done|]. subst o1.
    destruct (net w u k) as [|r]; [done|]. simpl in E1.
    destruct (ok r) eqn:Hok; by simplify_eq. }
  rewrite Hn, Hd. change (1 <? 3) with true. cbn [negb].
  rewrite fetchWithRetry_loop_step. cbn [log set_log net retryAttempts retryDelay].
  rewrite requests_app, requests_cons_fetch, requests_cons_delay.
  change (requests u []) with 0%nat. rewrite Nat.add_1_r. fold k o2.
  destruct (outcome_result o2) as [r2|e2] eqn:E2.
  { exists (Ok r2), [EvFetch u; EvDelay 1000; EvFetch u].
    rewrite <- app_assoc. repeat split; try done; try (unfold fetches; simpl; lia).
    exists r2. split; [done|]. subst o2.
    destruct (net w u (S k)) as [|r]; [done|]. simpl in E2.
    destruct (ok r) eqn:Hok; by simplify_eq. }
  rewrite Hn, Hd. change (1 + 1 <? 3) with true. cbn [negb].
  rewrite fetchWithRetry_loop_step. cbn [log set_log net retryAttempts retryDelay].
  rewrite <- app_assoc. cbn [app].
  rewrite requests_app, requests_cons_fetch, requests_cons_delay,
    requests_cons_fetch, requests_cons_delay.
  change (requests u []) with 0%nat. rewrite Nat.add_comm. cbn [Nat.add].
  fold k o3.
  exists (outcome_result o3),
    [EvFetch u; EvDelay 1000; EvFetch u; EvDelay 2000; EvFetch u].
  destruct (outcome_result o3) as [r3|e3] eqn:E3.
  { rewrite <- app_assoc. repeat split; try done; try (unfold fetches; simpl; lia).
    exists r3. split; [done|]. subst o3.
    destruct (net w u (S (S k))) as [|r]; [done|]. simpl in E3.
    destruct (ok r) eqn:Hok; by simplify_eq. }
  rewrite Hn. change (1 + 1 + 1 <? 3) with false.
  cbn [fetchWithRetry_loop throw log set_log app].
  rewrite <- app_assoc. repeat split; try done; try (unfold fetches; simpl; lia). by exists e3.
Qed.

(** On a network that is down the three attempts are made, 1000 ms and
    2000 ms apart, and the last error comes out. *)
Lemma fetchWithRetry_three_attempts_witness :
  retryAttempts api_offline = 3 /\ retryDelay api_offline = 1000 /\
  exists r new,
    fetchWithRetry "/api/properties" api_offline
      = (r, set_log (log api_offline ++ new) api_offline) /\
    r = Throw (JsError "TypeError" "Failed to fetch") /\
    delays new = [1000; 2000].
Proof.
  split; [reflexivity|]. split; [reflexivity|].
  destruct (fetchWithRetry_three_attempts "/api/properties" api_offline
              eq_refl eq_refl) as (r & new & H1 & H2 & _ & H3).
  exists r, new. split; [exact H1|].
  simpl in H2, H3. destruct H3 as ((e & He & Hr) & _ & Hd & _).
  split; [|exact Hd]. injection He as <-. exact Hr.
Defined.

(** *** What [fetchWithRetry] leaves alone *)

Lemma set_log_id w : set_log (log w ++ []) w = w.
Proof. destruct w. unfold set_log. simpl. by rewrite app_nil_r. Qed.

Lemma fetchWithRetry_loop_frame f u a e w :
  exists new,
    snd (fetchWithRetry_loop f u a e w) = set_log (log w ++ new) w /\
    (fetches new <= f)%nat.
Proof.
  revert a e w. induction f as [|f IH]; intros a e w.
  - exists []. simpl. by rewrite set_log_id.
  - rewrite fetchWithRetry_loop_step.
    destruct (outcome_result _) as [r|e'].
    + exists [EvFetch u]. split; [done|]. unfold fetches. simpl. lia.
    + destruct (IH (a + 1) e'
        (set_log (log w ++ EvFetch u ::
                    (if a <? retryAttempts w
                     then [EvDelay (retryDelay w * a)] else [])) w))
        as (new & Hnew & Hle).
      rewrite Hnew. cbn [log set_log].
      eexists. split; [by rewrite <- app_assoc|].
      change (EvFetch u :: ?l) with ([EvFetch u] ++ l).
      rewrite !fetches_app.
      destruct (a <? retryAttempts w); unfold fetches at 1 2; simpl; lia.
Qed.

Lemma fetchWithRetry_frame u w :
  exists new,
    snd (fetchWithRetry u w) = set_log (log w ++ new) w /\
    (fetches new <= Z.to_nat (retryAttempts w))%nat.
Proof. apply fetchWithRetry_loop_frame. Qed.

(** With at least one attempt allowed, the first thing [fetchWithRetry] does
    is a request of its URL. *)
Lemma fetchWithRetry_requests u w :
  1 <= retryAttempts w ->
  exists new,
    snd (fetchWithRetry u w) = set_log (log w ++ EvFetch u :: new) w /\
    (fetches (EvFetch u :: new) <= Z.to_nat (retryAttempts w))%nat.
Proof.
  intros Hn. unfold fetchWithRetry.
  destruct (Z.to_nat (retryAttempts w)) as [|f] eqn:E; [lia|].
  rewrite fetchWithRetry_loop_step.
  destruct (outcome_result _) as [r|e'].
  - exists []. split; [done|]. unfold fetches. simpl. lia.
  - destruct (fetchWithRetry_loop_frame f u (1 + 1) e'
        (set_log (log w ++ EvFetch u ::
                    (if 1 <? retryAttempts w
                     then [EvDelay (retryDelay w * 1)] else [])) w))
      as (new & Hnew & Hle).
    rewrite Hnew. cbn [log set_log].
    eexists. split; [by rewrite <- app_assoc|].
    change (EvFetch u :: ?l) with ([EvFetch u] ++ l).
    rewrite !fetches_app.
    destruct (1 <? retryAttempts w); unfold fetches at 1 2; simpl; lia.
Qed.

(** On a cache miss the log of [fetchProperties] is that of its
    [fetchWithRetry]: nothing after it goes to the network. *)
Lemma fetchProperties_miss_log options w :
  cache w !! cacheKey options = None ->
  log (snd (fetchProperties options w))
  = log (snd (fetchWithRetry (properties_url w options) w)).
Proof.
  intros Hmiss. unfold fetchProperties. rewrite Hmiss.
  unfold try_catch, bind.
  destruct (fetchWithRetry (properties_url w options) w) as [[r|e] w1]; simpl.
  - unfold json_of. destruct (resp_body r) as [j|]; simpl.
    + destruct j as [ | |b|n|s|l|o]; simpl;
        try (destruct (fallback_permitted options); reflexivity).
      unfold lift.
      destruct (array_map (normalizeProperty ThisUndefined (now w1)) l); simpl;
        destruct (fallback_permitted options); reflexivity.
    + destruct (fallback_permitted options); reflexivity.
  - destruct (fallback_permitted options); reflexivity.
Qed.

Lemma fetchProperties_miss_requests options w :
  cache w !! cacheKey options = None -> 1 <= retryAttempts w ->
  exists new,
    log (snd (fetchProperties options w))
    = log w ++ EvFetch (properties_url w options) :: new /\
    (fetches (EvFetch (properties_url w options) :: new)
     <= Z.to_nat (retryAttempts w))%nat.
Proof.
  intros Hmiss Hn. rewrite (fetchProperties_miss_log _ _ Hmiss).
  destruct (fetchWithRetry_requests (properties_url w options) w Hn)
    as (new & -> & Hle).
  by exists new.
Qed.

(** C3. When every attempt has failed ([fetchWithRetry] throws),
    [fetchProperties] with the fallback permitted, which is the default,
    returns a fresh array holding the three built-in sample properties and
    stores nothing in the cache, so that the next call with the same options
    requests the listing again; with [useMockData: false] it throws.
    [fetchProperty], when every attempt of its own request has failed,
    throws the error of [fetchWithRetry] on and stores nothing.  The two
    statements stand each for itself: the one needs the listing request to
    fail, the other the request of the single property. *)
Theorem fallback_when_retries_fail w :
  (forall options e w1,
     1 <= retryAttempts w ->
     cache w !! cacheKey options = None ->
     fetchWithRetry (properties_url w options) w = (Throw e, w1) ->
     fetchProperties options w =
       (if fallback_permitted options
        then (Ok (length (heap w)),
              set_heap (heap w ++ [CProperties (getMockProperties (now w))]) w1)
        else (Throw (JsError "Error"
                       "Unable to load properties. Please check your connection."),
              w1)) /\
     cache (snd (fetchProperties options w)) = cache w /\
     (exists new,
        log (snd (fetchProperties options (snd (fetchProperties options w))))
        = log (snd (fetchProperties options w))
          ++ EvFetch (properties_url w options) :: new)) /\
  (forall i e w1,
     cache w !! ("property_" +:+ to_string i) = None ->
     fetchWithRetry (baseUrl w +:+ "/properties/" +:+ to_string i) w
       = (Throw e, w1) ->
     fetchProperty i w = (Throw e, w1) /\
     cache w1 = cache w /\ heap w1 = heap w) /\
  (forall options,
     fallback_permitted options = false
     <-> get options "useMockData" = VBool false) /\
  fallback_permitted [] = true /\
  length (getMockProperties (now w)) = 3%nat.
Proof.
  split; [|split; [|split; [|done]]].
  - intros options e w1 Hn Hmiss Hfail.
    destruct (fetchWithRetry_frame (properties_url w options) w)
      as (new & Hw1 & _).
    rewrite Hfail in Hw1. simpl in Hw1.
    assert (Hcall : fetchProperties options w =
      (if fallback_permitted options
       then (Ok (length (heap w)),
             set_heap (heap w ++ [CProperties (getMockProperties (now w))]) w1)
       else (Throw (JsError "Error"
                      "Unable to load properties. Please check your connection."),
             w1))).
    { unfold fetchProperties. rewrite Hmiss. unfold try_catch, bind.
      rewrite Hfail. destruct (fallback_permitted options); [|done].
      unfold alloc. by rewrite Hw1. }
    assert (Hcache : cache (snd (fetchProperties options w)) = cache w).
    { rewrite Hcall. destruct (fallback_permitted options); by rewrite Hw1. }
    split; [exact Hcall|]. split; [exact Hcache|].
    destruct (fetchProperties_miss_requests options
                (snd (fetchProperties options w))) as (new2 & Hnew2 & _).
    + by rewrite Hcache.
    + rewrite Hcall. destruct (fallback_permitted options);
        rewrite Hw1; simpl; lia.
    + exists new2. rewrite Hnew2. do 3 f_equal.
      unfold properties_url. f_equal. rewrite Hcall.
      destruct (fallback_permitted options); by rewrite Hw1.
  - intros i e w1 Hmiss Hfail.
    destruct (fetchWithRetry_frame
                (baseUrl w +:+ "/properties/" +:+ to_string i) w)
      as (new & Hw1 & _).
    rewrite Hfail in Hw1. simpl in Hw1.
    split; [|by rewrite Hw1].
    unfold fetchProperty. rewrite Hmiss. unfold try_catch, bind.
    by rewrite Hfail.
  - intros options. unfold fallback_permitted.
    destruct (get options "useMockData") as [| |[]| | | |]; split; congruence.
Qed.

Lemma fallback_when_retries_fail_witness :
  fst (fetchProperties [] api_offline) = Ok 0%nat /\
  fst (fetchProperties [("useMockData", VBool false)] api_offline)
    = Throw (JsError "Error"
               "Unable to load properties. Please check your connection.") /\
  fst (fetchProperty (VNum (of_Z 7)) api_offline)
    = Throw (JsError "TypeError" "Failed to fetch").
Proof.
  pose (w1 := set_log
           [EvFetch "/api/properties?limit=50&offset=0"; EvDelay 1000;
            EvFetch "/api/properties?limit=50&offset=0"; EvDelay 2000;
            EvFetch "/api/properties?limit=50&offset=0"] api_offline).
  pose (w2 := set_log
           [EvFetch "/api/properties?limit=50&offset=0&useMockData=false";
            EvDelay 1000;
            EvFetch "/api/properties?limit=50&offset=0&useMockData=false";
            EvDelay 2000;
            EvFetch "/api/properties?limit=50&offset=0&useMockData=false"]
           api_offline).
  pose (w3 := set_log
           [EvFetch "/api/properties/7"; EvDelay 1000;
            EvFetch "/api/properties/7"; EvDelay 2000;
            EvFetch "/api/properties/7"] api_offline).
  destruct (fallback_when_retries_fail api_offline) as (Hlist & Hone & _).
  assert (Hn : 1 <= retryAttempts api_offline) by (simpl; lia).
  destruct (Hlist [] (JsError "TypeError" "Failed to fetch") w1
              Hn eq_refl eq_refl) as (H1 & _).
  destruct (Hlist [("useMockData", VBool false)]
              (JsError "TypeError" "Failed to fetch") w2
              Hn eq_refl eq_refl) as (H2 & _).
  destruct (Hone (VNum (of_Z 7)) (JsError "TypeError" "Failed to fetch") w3
              eq_refl eq_refl) as (H3 & _).
  rewrite H1, H2, H3. repeat split.
Defined.

(** *** The cache between two [clearCache()] calls *)

(** The API calls other than [clearCache()]. *)
Inductive call : Type :=
  | FetchProperties (options : object)
  | FetchProperty (i : value)
  | FetchPropertyImages (propertyId : value).

Definition perform (w : world) (c : call) : world :=
  match c with
  | FetchProperties options => snd (fetchProperties options w)
  | FetchProperty i => snd (fetchProperty i w)
  | FetchPropertyImages propertyId => snd (fetchPropertyImages propertyId w)
  end.

Definition perform_all (cs : list call) (w : world) : world :=
  fold_left perform cs w.

(** [w'] is [w] later on: same configuration and network, a cache that
    still holds every entry of [w], a longer log and a larger heap. *)
Definition extends (w w' : world) : Prop :=
  baseUrl w' = baseUrl w /\ retryAttempts w' = retryAttempts w /\
  retryDelay w' = retryDelay w /\ net w' = net w /\ now w' = now w /\
  (forall k r, cache w !! k = Some r -> cache w' !! k = Some r) /\
  (exists new, log w' = log w ++ new) /\
  (exists more, heap w' = heap w ++ more).

Lemma extends_refl w : extends w w.
Proof.
  repeat split; try done; exists []; by rewrite app_nil_r.
Qed.

Lemma extends_trans w1 w2 w3 : extends w1 w2 -> extends w2 w3 -> extends w1 w3.
Proof.
  intros (Hb & Hn & Hd & Hnet & Hnow & Hc & [l Hl] & [h Hh])
         (Hb' & Hn' & Hd' & Hnet' & Hnow' & Hc' & [l' Hl'] & [h' Hh']).
  repeat split; try congruence.
  - intros k r Hk. by apply Hc', Hc.
  - exists (l ++ l'). by rewrite Hl', Hl, app_assoc.
  - exists (h ++ h'). by rewrite Hh', Hh, app_assoc.
Qed.

(** A world that differs from [w] by a longer log, a larger heap and
    possibly one more cache entry under a key that was free. *)
Lemma extends_intro w new more c :
  (c = cache w \/ exists k r, cache w !! k = None /\ c = <[k := r]> (cache w)) ->
  extends w (set_cache c (set_heap (heap w ++ more) (set_log (log w ++ new) w))).
Proof.
  intros Hc. repeat split; try done; cbn; eauto.
  intros k r Hk. destruct Hc as [->|(k' & r' & Hfree & ->)]; [done|].
  rewrite lookup_insert_ne; [done|]. intros ->. congruence.
Qed.

Ltac frame_done w new :=
  first
    [ refine (eq_ind _ (extends w) (extends_intro w new [] (cache w) _) _ _);
      [by left | by rewrite ?app_nil_r]
    | refine (eq_ind _ (extends w) (extends_intro w new [_] (cache w) _) _ _);
      [by left | done]
    | refine (eq_ind _ (extends w) (extends_intro w new [_] (<[_ := _]> (cache w)) _) _ _);
      [right; eauto | done] ].

Lemma fetchProperties_extends options w :
  extends w (snd (fetchProperties options w)).
Proof.
  unfold fetchProperties.
  destruct (cache w !! cacheKey options) as [r|] eqn:Hmiss;
    [apply extends_refl|].
  unfold try_catch, bind.
  destruct (fetchWithRetry_frame (properties_url w options) w)
    as (new & Hw1 & _).
  destruct (fetchWithRetry (properties_url w options) w) as [[r|e] w1];
    simpl in Hw1; subst w1.
  - unfold json_of. destruct (resp_body r) as [[ | |b|n|s|l|o]|]; cbn;
      try (destruct (fallback_permitted options); cbn; frame_done w new).
    unfold lift.
    destruct (array_map _ l); cbn;
      try (destruct (fallback_permitted options); cbn); frame_done w new.
  - destruct (fallback_permitted options); cbn; frame_done w new.
Qed.

Lemma fetchProperty_extends i w : extends w (snd (fetchProperty i w)).
Proof.
  unfold fetchProperty.
  destruct (cache w !! ("property_" +:+ to_string i)) as [r|] eqn:Hmiss;
    [apply extends_refl|].
  unfold try_catch, bind.
  destruct (fetchWithRetry_frame
              (baseUrl w +:+ "/properties/" +:+ to_string i) w)
    as (new & Hw1 & _).
  destruct (fetchWithRetry _ w) as [[r|e] w1]; simpl in Hw1; subst w1.
  - unfold json_of. destruct (resp_body r) as [j|]; cbn; [|frame_done w new].
    unfold lift. destruct (normalizeProperty _ _ j); cbn; frame_done w new.
  - cbn. frame_done w new.
Qed.

Lemma fetchPropertyImages_extends i w :
  extends w (snd (fetchPropertyImages i w)).
Proof.
  unfold fetchPropertyImages.
  destruct (cache w !! ("images_" +:+ to_string i)) as [r|] eqn:Hmiss;
    [apply extends_refl|].
  unfold try_catch, bind.
  destruct (fetchWithRetry_frame
              (baseUrl w +:+ "/properties/" +:+ to_string i +:+ "/images") w)
    as (new & Hw1 & _).
  destruct (fetchWithRetry _ w) as [[r|e] w1]; simpl in Hw1; subst w1.
  - unfold json_of. destruct (resp_body r) as [[ | |b|n|s|l|o]|]; cbn;
      try frame_done w new.
    unfold lift. destruct (array_map _ l); cbn; frame_done w new.
  - cbn. frame_done w new.
Qed.

Lemma perform_extends w c : extends w (perform w c).
Proof.
  destruct c; simpl;
    auto using fetchProperties_extends, fetchProperty_extends,
      fetchPropertyImages_extends.
Qed.

Lemma perform_all_extends cs w : extends w (perform_all cs w).
Proof.
  revert w. induction cs as [|c cs IH]; intros w; simpl.
  - apply extends_refl.
  - eapply extends_trans; [apply perform_extends|apply IH].
Qed.

(** An origin that answers every request with 200 and an empty listing. *)
Definition empty_listing : string -> nat -> outcome :=
  fun _ _ => NetResponse {| resp_status := 200; resp_statusText := "OK";
                            resp_body := Some (VArray []) |}.

(** The API object after one [fetchProperties()] against that origin: the
    empty array is in the cache. *)
Definition api_cached : world :=
  snd (fetchProperties [] (constructor empty_listing "2024-01-01T00:00:00.000Z")).

(** A cache hit.  When the cache holds an entry for the key of the options,
    [fetchProperties] returns that reference and changes nothing, the log of
    network calls included; the entry is still there, and still returned,
    after any sequence of other API calls; [clearCache()] empties the cache,
    and the next call with these options requests the listing again, with at
    most three requests. *)
Lemma cached_listing_is_reused options r w calls :
  cache w !! cacheKey options = Some r ->
  retryAttempts w = 3 ->
  fetchProperties options w = (Ok r, w) /\
  fetchProperties options (perform_all calls w) = (Ok r, perform_all calls w) /\
  cache (snd (clearCache (perform_all calls w))) = ∅ /\
  exists new,
    log (snd (fetchProperties options (snd (clearCache (perform_all calls w)))))
    = log (perform_all calls w) ++ EvFetch (properties_url w options) :: new /\
    (fetches (EvFetch (properties_url w options) :: new) <= 3)%nat.
Proof.
  intros Hhit Hn.
  destruct (perform_all_extends calls w)
    as (Hb & Hn' & _ & _ & _ & Hc & _ & _).
  split; [|split; [|split]].
  - unfold fetchProperties. by rewrite Hhit.
  - unfold fetchProperties. by rewrite (Hc _ _ Hhit).
  - done.
  - destruct (fetchProperties_miss_requests options
                (snd (clearCache (perform_all calls w))))
      as (new & Hlog & Hle).
    + cbn. apply lookup_empty.
    + cbn. lia.
    + exists new. cbn in Hle. rewrite Hn', Hn in Hle.
      unfold properties_url in *. cbn in Hlog, Hle. rewrite Hb in Hlog.
      rewrite ?Hb in Hle. split; [exact Hlog|exact Hle].
Qed.

(** The empty listing is stored, and the second call is served from the
    cache without a request. *)
Lemma empty_listing_is_reused :
  cache api_cached !! cacheKey [] = Some 0%nat /\
  retryAttempts api_cached = 3 /\
  fetchProperties [] api_cached = (Ok 0%nat, api_cached) /\
  fetches (log api_cached) = 1%nat.
Proof.
  split; [reflexivity|]. split; [reflexivity|].
  split; [|reflexivity].
  exact (proj1 (cached_listing_is_reused [] 0%nat api_cached []
                  eq_refl eq_refl)).
Qed.

(** A listing that is not empty never reaches the cache:
    [properties.map(this.normalizeProperty)] calls [normalizeProperty] with
    [this] undefined, the exception lands in the [catch] block, and the
    caller gets the sample data (or the error, with [useMockData: false]). *)
Lemma nonempty_listing_is_not_stored options w r w1 x l :
  cache w !! cacheKey options = None ->
  fetchWithRetry (properties_url w options) w = (Ok r, w1) ->
  resp_body r = Some (VArray (x :: l)) ->
  fetchProperties options w =
    (if fallback_permitted options
     then (Ok (length (heap w)),
           set_heap (heap w ++ [CProperties (getMockProperties (now w))]) w1)
     else (Throw (JsError "Error"
                    "Unable to load properties. Please check your connection."),
           w1)) /\
  cache (snd (fetchProperties options w)) = cache w.
Proof.
  intros Hmiss Hok Hbody.
  destruct (fetchWithRetry_frame (properties_url w options) w)
    as (new & Hw1 & _).
  rewrite Hok in Hw1. simpl in Hw1.
  assert (Hcall : fetchProperties options w =
    (if fallback_permitted options
     then (Ok (length (heap w)),
           set_heap (heap w ++ [CProperties (getMockProperties (now w))]) w1)
     else (Throw (JsError "Error"
                    "Unable to load properties. Please check your connection."),
           w1))).
  { unfold fetchProperties. rewrite Hmiss. unfold try_catch, bind.
    rewrite Hok. unfold json_of. rewrite Hbody. cbn.
    unfold normalizeProperty at 1.
    destruct (properties_of x); cbn;
      (destruct (fallback_permitted options); [|done]);
      unfold alloc; by rewrite Hw1. }
  split; [exact Hcall|]. rewrite Hcall.
  destruct (fallback_permitted options); by rewrite Hw1.
Qed.

(** The record of the listing [[{id: 1, price: 0, bedrooms: "3"}]]. *)
Definition one_record : value :=
  VObject [("id", VNum (of_Z 1)); ("price", VNum (of_Z 0));
           ("bedrooms", VStr "3")].

(** An origin that answers every request with 200 and this listing. *)
Definition listing_origin : string -> nat -> outcome :=
  fun _ _ => NetResponse {| resp_status := 200; resp_statusText := "OK";
                            resp_body := Some (VArray [one_record]) |}.

(** C1. The origin is up and answers with a listing of one record.  Two
    [fetchProperties()] calls with the same options each send a request, and
    they return two different arrays, both holding the sample data: the
    first call stored nothing.  [properties.map(this.normalizeProperty)]
    hands the method over without its receiver, so that it throws at
    [this.formatPrice] on the first record and the call ends in the [catch]
    block; called on the API object, as [fetchProperty] calls it, the method
    normalizes the record. *)
Theorem identical_calls_request_twice :
  let date := "2024-01-01T00:00:00.000Z"%string in
  let '(r1, w1) := fetchProperties [] (constructor listing_origin date) in
  let '(r2, w2) := fetchProperties [] w1 in
  r1 = Ok 0%nat /\ r2 = Ok 1%nat /\ r1 <> r2 /\
  log w1 = [EvFetch "/api/properties?limit=50&offset=0"] /\
  log w2 = [EvFetch "/api/properties?limit=50&offset=0";
            EvFetch "/api/properties?limit=50&offset=0"] /\
  cache w1 !! cacheKey [] = None /\ cache w2 !! cacheKey [] = None /\
  heap w2 = [CProperties (getMockProperties date);
             CProperties (getMockProperties date)] /\
  array_map (normalizeProperty ThisUndefined date) [one_record]
  = Throw (JsError "TypeError"
             "Cannot read properties of undefined (reading 'formatPrice')") /\
  exists p, array_map (normalizeProperty ThisApi date) [one_record] = Ok [p].
Proof.
  vm_compute. repeat split; try congruence. eexists. reflexivity.
Qed.

(** *** Prices *)

Lemma num_is_nan_true n : num_is_nan n = true <-> n = NaN.
Proof. destruct n; simpl; split; congruence. Qed.

(** A formatted amount starts with the currency sign or a minus. *)
Lemma format_usd_head n :
  exists rest, format_usd n = String "$" rest \/ format_usd n = String "-" rest.
Proof. destruct n as [|[|]|[|] m e]; simpl; eauto. Qed.

(** No decimal point in a formatted amount. *)
Lemma pretty_N_go_no_point x s :
  ~ In "."%char (list_ascii_of_string s) ->
  ~ In "."%char (list_ascii_of_string (pretty_N_go x s)).
Proof.
  revert s. induction (N.lt_wf_0 x) as [x _ IH]; intros s Hs.
  assert (x = 0 \/ 0 < x)%N as [->|Hpos] by lia.
  - by rewrite pretty_N_go_0.
  - rewrite pretty_N_go_step by done. apply IH.
    + by apply N.div_lt.
    + simpl. intros [H|H]; [|done].
      revert H. unfold pretty_N_char. by repeat case_match.
Qed.

Lemma pretty_Z_no_point (z : Z) :
  ~ In "."%char (list_ascii_of_string (pretty z)).
Proof.
  assert (Hpos : forall p : positive,
             ~ In "."%char (list_ascii_of_string (pretty p))).
  { intros p. unfold pretty, pretty_positive, pretty, pretty_N.
    case_decide; [done|]. apply pretty_N_go_no_point. simpl. tauto. }
  destruct z as [|p|p]; unfold pretty, pretty_Z.
  - simpl. intros [H|H]; [discriminate|done].
  - apply Hpos.
  - simpl. intros [H|H]; [discriminate|]. by apply (Hpos p).
Qed.

Lemma group3_no_point l i acc :
  ~ In "."%char l -> ~ In "."%char acc -> ~ In "."%char (group3 l i acc).
Proof.
  revert i acc. induction l as [|c l IH]; intros i acc Hl Hacc; simpl; [done|].
  assert (Hc : c <> "."%char) by (intros ->; apply Hl; by left).
  assert (Hl' : ~ In "."%char l) by (intros H; apply Hl; by right).
  destruct i as [|[|[|[|i]]]]; apply IH; try done; simpl;
    intros H; repeat (destruct H as [H|H]; try congruence); done.
Qed.

Lemma format_usd_no_decimals n :
  ~ In "."%char (list_ascii_of_string (format_usd n)).
Proof.
  assert (Hg : forall z, ~ In "."%char (list_ascii_of_string (grouped z))).
  { intros z. unfold grouped. rewrite list_ascii_of_string_of_list_ascii.
    apply group3_no_point; [|simpl; tauto].
    rewrite <- in_rev. apply pretty_Z_no_point. }
  destruct n as [|[|]|[|] m e]; simpl; intros H;
    repeat (destruct H as [H|H]; [discriminate|]); try done;
    by apply (Hg _ H).
Qed.

(** What [formatPrice] returns is the sentinel or a dollar amount without
    decimals; the amount is that of [parseFloat(price)], and the guard is
    that of [Number(price)]. *)
Lemma formatPrice_shape price :
  (formatPrice price = "Price on request" <->
   truthy price = false \/ to_number price = NaN) /\
  (formatPrice price = "Price on request" \/
   formatPrice price = format_usd (parseFloat price)) /\
  ~ In "."%char (list_ascii_of_string (formatPrice price)).
Proof.
  pose proof (format_usd_no_decimals (parseFloat price)) as Hdot.
  unfold formatPrice, isNaN.
  destruct (format_usd_head (parseFloat price)) as [rest Hhead].
  assert (Hne : format_usd (parseFloat price) <> "Price on request")
    by (destruct Hhead as [-> | ->]; discriminate).
  rewrite <- num_is_nan_true.
  assert (Hs : ~ In "."%char (list_ascii_of_string "Price on request")).
  { simpl. intros H. repeat (destruct H as [H|H]; [discriminate|]). done. }
  destruct (truthy price), (num_is_nan (to_number price)); simpl;
    (split; [|split; [auto|done]]).
  - split; auto.
  - split; [done|]. intros [?|?]; done.
  - split; auto.
  - split; auto.
Qed.

(** The string of one no-break space, U+00A0. *)
Definition nbsp : string :=
  String (ascii_of_nat 194) (String (ascii_of_nat 160) EmptyString).

(** C4. The guard of [formatPrice] is [!price || isNaN(price)], which
    converts the raw price as [Number()] does, and the amount it formats is
    [parseFloat(price)], which reads it differently.  Raw prices that are zero
    or not numeric get through: the text of zero is formatted as an amount
    of zero dollars, and a blank text, [true] and the empty array, which
    [Number()] converts to 0 or 1 and [parseFloat] does not read, come out
    as the dollar sign followed by NaN.  The number 0, a text that is no
    number, [undefined], [null] and an object do give the sentinel. *)
Theorem formatPrice_passes_zero_and_blank_text :
  formatPrice (VStr "0") = "$0" /\
  formatPrice (VStr "0.00") = "$0" /\
  formatPrice (VStr " ") = "$NaN" /\
  formatPrice (VStr nbsp) = "$NaN" /\
  formatPrice (VBool true) = "$NaN" /\
  formatPrice (VArray []) = "$NaN" /\
  formatPrice (VNum (of_Z 0)) = "Price on request" /\
  formatPrice (VStr "abc") = "Price on request" /\
  formatPrice VUndefined = "Price on request" /\
  formatPrice VNull = "Price on request" /\
  formatPrice (VObject []) = "Price on request" /\
  formatPrice (VNum (of_Z 450000)) = "$450,000" /\
  formatPrice (VStr "1299999.5") = "$1,300,000".
Proof. vm_compute. repeat split. Qed.

(** *** Features *)









(** The texts are read as the engine reads them: an integer beyond 53 bits
    is rounded to the nearest double, white space of any kind is skipped,
    a text for zero with a minus sign gives the negative zero, and a
    fraction is dropped by [parseInt] and kept by [parseFloat]. *)
Lemma parsing_examples :
  parseInt (VStr "9007199254740993") = of_Z 9007199254740992 /\
  parseInt (VStr (nbsp +:+ "-3")) = of_Z (-3) /\
  parseInt (VStr "-0") = Fin true 0 0 /\
  num_nonneg (parseInt (VStr "-0")) = true /\
  parseInt (VStr "3.7") = of_Z 3 /\
  parseFloat (VStr "2.5 baths") = dec 25 (-1) /\
  parseInt (VStr "0x1f") = of_Z 31 /\
  parseFloat (VStr "1e400") = Infinity false /\
  parseInt (VArray [VStr "4"]) = of_Z 4 /\
  parseInt (VObject []) = NaN.
Proof. vm_compute. repeat split. Qed.



(** *** Options, query string and cache key *)

Lemma length_app (a b : string) :
  String.length (a +:+ b) = (String.length a + String.length b)%nat.
Proof.
  induction a as [|c a IH]; [done|].
  change (String c a +:+ b) with (String c (a +:+ b)). simpl. by rewrite IH.
Qed.

Lemma app_assoc_string (a b c : string) : (a +:+ b) +:+ c = a +:+ (b +:+ c).
Proof.
  induction a as [|x a IH]; [done|].
  change ((String x a +:+ b) +:+ c) with (String x ((a +:+ b) +:+ c)).
  by rewrite IH.
Qed.

Lemma app_nil_r_string (a : string) : a +:+ "" = a.
Proof.
  induction a as [|c a IH]; [done|].
  change (String c a +:+ "") with (String c (a +:+ "")). by rewrite IH.
Qed.

(** The length of a list of strings joined with a separator: taking an
    element out shortens it by the element and by one separator, unless the
    element was alone. *)
Lemma length_concat_insert sep (l1 l2 : list string) x :
  String.length (String.concat sep (l1 ++ x :: l2))
  = (String.length (String.concat sep (l1 ++ l2)) + String.length x
     + match l1 ++ l2 with [] => 0 | _ :: _ => String.length sep end)%nat.
Proof.
  induction l1 as [|y l1 IH].
  - destruct l2 as [|z l2]; simpl; [lia|].
    rewrite !length_app. destruct l2; simpl; lia.
  - simpl app.
    destruct (l1 ++ x :: l2) as [|a1 r1] eqn:E1; [by destruct l1|].
    destruct (l1 ++ l2) as [|a2 r2] eqn:E2.
    + destruct l1; [|done]. simpl in E1, E2. subst l2. simplify_eq.
      simpl. rewrite !length_app. lia.
    + change (String.concat sep (y :: a1 :: r1))
        with (y +:+ sep +:+ String.concat sep (a1 :: r1)).
      change (String.concat sep (y :: a2 :: r2))
        with (y +:+ sep +:+ String.concat sep (a2 :: r2)).
      rewrite !length_app, IH. lia.
Qed.

(** A joined list around one of its elements. *)
Lemma concat_insert sep (l1 l2 : list string) x :
  exists a c, String.concat sep (l1 ++ x :: l2) = a +:+ x +:+ c.
Proof.
  induction l1 as [|y l1 IH].
  - exists "". destruct l2 as [|z l2].
    + exists "". simpl. change ("" +:+ x +:+ "") with (x +:+ "").
      by rewrite app_nil_r_string.
    + by exists (sep +:+ String.concat sep (z :: l2)).
  - destruct IH as (a & c & IH). simpl app.
    destruct (l1 ++ x :: l2) as [|a1 r1] eqn:E1; [by destruct l1|].
    change (String.concat sep (y :: a1 :: r1))
      with (y +:+ sep +:+ String.concat sep (a1 :: r1)).
    rewrite IH. exists (y +:+ sep +:+ a), c. by rewrite !app_assoc_string.
Qed.

Definition keys (o : object) : list string := map fst o.

(** The properties [l] written one after the other into [o]. *)
Definition assign (o l : object) : object :=
  fold_left (fun acc kv => set acc (fst kv) (snd kv)) l o.

Lemma spread_assign o src : spread o src = assign o (own_properties src).
Proof. done. Qed.

Lemma set_app_in o1 o2 k v :
  In k (keys o1) -> set (o1 ++ o2) k v = set o1 k v ++ o2.
Proof.
  induction o1 as [|[k' v'] o1 IH]; simpl; [done|].
  intros [->|Hin].
  - by rewrite String.eqb_refl.
  - destruct (String.eqb k' k); [done|]. by rewrite IH.
Qed.

Lemma set_app_notin o1 o2 k v :
  ~ In k (keys o1) -> set (o1 ++ o2) k v = o1 ++ set o2 k v.
Proof.
  induction o1 as [|[k' v'] o1 IH]; simpl; [done|].
  intros Hnot. destruct (String.eqb_spec k' k) as [->|Hne]; [tauto|].
  rewrite IH; [done|tauto].
Qed.

Lemma keys_set o k v k' : In k' (keys (set o k v)) <-> k' = k \/ In k' (keys o).
Proof.
  induction o as [|[k0 v0] o IH]; simpl.
  - intuition.
  - destruct (String.eqb_spec k0 k) as [->|Hne]; simpl.
    + intuition.
    + rewrite IH. intuition.
Qed.

Lemma keys_assign base o k :
  In k (keys (assign base o)) <-> In k (keys base) \/ In k (keys o).
Proof.
  unfold assign. revert base. induction o as [|[k0 v0] o IH]; intros base; simpl.
  - tauto.
  - rewrite IH, keys_set. simpl. intuition.
Qed.

Lemma get_set_eq o k v : get (set o k v) k = v.
Proof.
  induction o as [|[k0 v0] o IH]; simpl; [by rewrite String.eqb_refl|].
  destruct (String.eqb k0 k) eqn:E; simpl; by rewrite E.
Qed.

Lemma get_set_ne o k v k' : k' <> k -> get (set o k v) k' = get o k'.
Proof.
  intros Hne. induction o as [|[k0 v0] o IH]; simpl.
  - by destruct (String.eqb_spec k k').
  - destruct (String.eqb_spec k0 k) as [->|Hk]; simpl.
    + by destruct (String.eqb_spec k k').
    + by rewrite IH.
Qed.

Lemma get_assign_notin base o k :
  ~ In k (keys o) -> get (assign base o) k = get base k.
Proof.
  unfold assign. revert base. induction o as [|[k0 v0] o IH]; intros base Hnot;
    simpl; [done|].
  simpl in Hnot. rewrite IH by tauto. apply get_set_ne. intros ->. tauto.
Qed.

Lemma get_assign_in base o k v :
  NoDup (keys o) -> In (k, v) o -> get (assign base o) k = v.
Proof.
  unfold assign. revert base. induction o as [|[k0 v0] o IH]; intros base Hnd Hin;
    simpl; [done|].
  simpl in Hnd. apply NoDup_cons in Hnd as [Hk0 Hnd].
  destruct Hin as [[= -> ->]|Hin].
  - change (fold_left _ o ?b) with (assign b o).
    rewrite get_assign_notin; [apply get_set_eq|].
    intros H. apply Hk0. by apply list_elem_of_In.
  - by apply IH.
Qed.

Lemma in_get o k : In k (keys o) -> In (k, get o k) o.
Proof.
  induction o as [|[k0 v0] o IH]; simpl; [done|].
  destruct (String.eqb_spec k0 k) as [->|Hne]; [by left|].
  intros [?|Hin]; [done|]. right. by apply IH.
Qed.

(** The enumeration of an object lists its properties, each once. *)
Lemma insert_index_perm i kv l :
  Permutation (map snd (insert_index i kv l)) (kv :: map snd l).
Proof.
  induction l as [|[j kv'] l IH]; simpl; [done|].
  destruct (i <? j); simpl; [done|].
  rewrite IH. apply perm_swap.
Qed.

Lemma own_properties_perm o : Permutation (own_properties o) o.
Proof.
  unfold own_properties. induction o as [|kv o IH]; simpl; [done|].
  unfold is_named at 1.
  destruct (array_index (fst kv)) as [i|].
  - rewrite insert_index_perm. simpl. by apply perm_skip.
  - rewrite <- Permutation_middle. by apply perm_skip.
Qed.

Lemma own_properties_in o x : In x (own_properties o) <-> In x o.
Proof.
  split; apply Permutation_in;
    [apply own_properties_perm|symmetry; apply own_properties_perm].
Qed.

Lemma own_properties_keys o k :
  In k (keys (own_properties o)) <-> In k (keys o).
Proof.
  unfold keys. split; apply Permutation_in, Permutation_map;
    [apply own_properties_perm|symmetry; apply own_properties_perm].
Qed.

Lemma own_properties_NoDup o :
  NoDup (keys o) -> NoDup (keys (own_properties o)).
Proof.
  unfold keys. intros H. by rewrite own_properties_perm.
Qed.

Lemma keys_spread base o k :
  In k (keys (spread base o)) <-> In k (keys base) \/ In k (keys o).
Proof. by rewrite spread_assign, keys_assign, own_properties_keys. Qed.

Lemma get_spread_notin base o k :
  ~ In k (keys o) -> get (spread base o) k = get base k.
Proof.
  intros H. rewrite spread_assign. apply get_assign_notin.
  by rewrite own_properties_keys.
Qed.

(** Every own property of a well-formed object comes through a spread with
    its value. *)
Lemma get_spread_in base o k v :
  NoDup (keys o) -> In (k, v) o -> get (spread base o) k = v.
Proof.
  intros Hnd Hin. rewrite spread_assign.
  apply get_assign_in; [by apply own_properties_NoDup|].
  by apply own_properties_in.
Qed.

(** A property whose key is no array index keeps its place in the
    enumeration, whatever its value. *)
Lemma index_properties_named X Y u v :
  array_index u = None ->
  index_properties (X ++ (u, v) :: Y) = index_properties (X ++ Y).
Proof.
  intros Hu. induction X as [|kv X IH]; simpl; [by rewrite Hu|].
  by rewrite IH.
Qed.

Lemma own_properties_around X Y u :
  array_index u = None ->
  exists P Q,
    (forall v, own_properties (X ++ (u, v) :: Y) = P ++ (u, v) :: Q) /\
    own_properties (X ++ Y) = P ++ Q /\
    (forall k, In k (keys P) \/ In k (keys Q) -> In k (keys (X ++ Y))).
Proof.
  intros Hu.
  exists (map snd (index_properties (X ++ Y)) ++ List.filter is_named X),
         (List.filter is_named Y).
  split; [|split].
  - intros v. unfold own_properties.
    rewrite index_properties_named by done.
    rewrite List.filter_app. simpl. unfold is_named at 2. simpl. rewrite Hu.
    by rewrite <- app_assoc.
  - unfold own_properties. by rewrite List.filter_app, <- app_assoc.
  - intros k Hk. apply own_properties_keys. unfold own_properties.
    rewrite List.filter_app, app_assoc. unfold keys in *.
    rewrite map_app, in_app_iff. done.
Qed.

(** A property under a key that no other property has keeps its place when
    more properties are written, whatever its value. *)
Lemma assign_around X Y post u :
  ~ In u (keys post) ->
  exists A B,
    (forall v, assign (X ++ (u, v) :: Y) post = A ++ (u, v) :: B) /\
    assign (X ++ Y) post = A ++ B.
Proof.
  unfold assign. revert X Y. induction post as [|[k x] post IH]; intros X Y Hnot.
  - by exists X, Y.
  - simpl in Hnot. simpl.
    destruct (in_dec string_dec k (keys X)) as [Hin|Hout].
    + destruct (IH (set X k x) Y ltac:(tauto)) as (A & B & HA & HB).
      exists A, B. split.
      * intros v. rewrite set_app_in by done. apply HA.
      * rewrite set_app_in by done. apply HB.
    + destruct (IH X (set Y k x) ltac:(tauto)) as (A & B & HA & HB).
      exists A, B. split.
      * intros v. rewrite set_app_notin by done. simpl.
        destruct (String.eqb_spec u k) as [->|_]; [tauto|]. apply HA.
      * rewrite set_app_notin by done. apply HB.
Qed.

Lemma assign_new_around base pre post u :
  ~ In u (keys base) -> ~ In u (keys pre) -> ~ In u (keys post) ->
  exists A B,
    (forall v, assign base (pre ++ (u, v) :: post) = A ++ (u, v) :: B) /\
    assign base (pre ++ post) = A ++ B.
Proof.
  intros Hbase Hpre Hpost.
  assert (Hu : ~ In u (keys (assign base pre))).
  { rewrite keys_assign. tauto. }
  destruct (assign_around (assign base pre) [] post u Hpost)
    as (A & B & HA & HB).
  exists A, B. split.
  - intros v. unfold assign at 1. rewrite fold_left_app. simpl.
    change (fold_left _ pre base) with (assign base pre).
    rewrite <- (app_nil_r (assign base pre)) at 1.
    rewrite set_app_notin by done. simpl. apply HA.
  - rewrite <- HB. unfold assign at 1. rewrite fold_left_app.
    change (fold_left _ pre base) with (assign base pre).
    by rewrite app_nil_r.
Qed.

(** The object [fetchProperties] hands to [URLSearchParams], as that
    enumerates it. *)
Definition query_object (options : object) : object :=
  own_properties
    (spread [("limit", or (get options "limit") (VNum (of_Z 50)));
             ("offset", or (get options "offset") (VNum (of_Z 0)))]
            options).

Lemma params_query_object options :
  params options = String.concat "&" (map urlencode_pair (query_object options)).
Proof. done. Qed.

Lemma get_app_other pre post u v k :
  k <> u -> get (pre ++ (u, v) :: post) k = get (pre ++ post) k.
Proof.
  intros Hne. induction pre as [|[k0 v0] pre IH]; simpl.
  - by destruct (String.eqb_spec u k).
  - by rewrite IH.
Qed.

Lemma query_object_around pre post u :
  u <> "limit" -> u <> "offset" -> array_index u = None ->
  ~ In u (keys pre) -> ~ In u (keys post) ->
  exists A B,
    (forall v, query_object (pre ++ (u, v) :: post) = A ++ (u, v) :: B) /\
    query_object (pre ++ post) = A ++ B /\ A ++ B <> [].
Proof.
  intros Hl Ho Hu Hpre Hpost. unfold query_object.
  set (base := [("limit", or (get (pre ++ post) "limit") (VNum (of_Z 50)));
                ("offset", or (get (pre ++ post) "offset") (VNum (of_Z 0)))]).
  destruct (own_properties_around pre post u Hu) as (P & Q & HP & HQ & Hk).
  assert (HuPQ : ~ In u (keys P) /\ ~ In u (keys Q)).
  { split; intros Hin; (assert (H : In u (keys (pre ++ post))) by auto);
      unfold keys in H; rewrite map_app, in_app_iff in H; tauto. }
  destruct (assign_new_around base P Q u) as (A & B & HA & HB);
    [simpl; intuition congruence|tauto|tauto|].
  destruct (own_properties_around A B u Hu) as (P' & Q' & HP' & HQ' & _).
  exists P', Q'. split; [|split].
  - intros v. rewrite !(get_app_other pre post u v) by done. fold base.
    by rewrite spread_assign, HP, HA, HP'.
  - by rewrite spread_assign, HQ, HB, HQ'.
  - rewrite <- HQ', <- HB, <- HQ, <- spread_assign. intros Hnil.
    assert (Hin : In "limit" (keys (own_properties (spread base (pre ++ post))))).
    { rewrite own_properties_keys, keys_spread. simpl. auto. }
    by rewrite Hnil in Hin.
Qed.

(** C10. Every field of the options goes into the object that is
    serialized into the query string, hence into the URL and the cache key,
    [useMockData] included: the query string carries the flag, the cache key
    and the URL of a call differ from those of the call with the flag
    inverted and of the call without the flag, and a call whose own key is
    not cached requests its own URL whatever is cached for the others. *)
Theorem useMockData_is_serialized pre post b w :
  NoDup (keys (pre ++ ("useMockData", VBool b) :: post)) ->
  retryAttempts w = 3 ->
  cache w !! cacheKey (pre ++ ("useMockData", VBool b) :: post) = None ->
  let options := pre ++ ("useMockData", VBool b) :: post in
  let inverted := pre ++ ("useMockData", VBool (negb b)) :: post in
  let without := pre ++ post in
  (forall k v, In (k, v) options ->
     In (urlencode_pair (k, v)) (map urlencode_pair (query_object options))) /\
  params options = String.concat "&" (map urlencode_pair (query_object options)) /\
  (exists a c,
     params options
     = a +:+ ("useMockData=" +:+ (if b then "true" else "false")) +:+ c) /\
  cacheKey options <> cacheKey inverted /\
  cacheKey options <> cacheKey without /\
  properties_url w options <> properties_url w inverted /\
  properties_url w options <> properties_url w without /\
  exists new,
    log (snd (fetchProperties options w))
    = log w ++ EvFetch (properties_url w options) :: new.
Proof.
  intros Hnd Hn Hmiss options inverted without.
  assert (Hpre : ~ In "useMockData" (keys pre) /\ ~ In "useMockData" (keys post)).
  { unfold keys in Hnd. rewrite map_app in Hnd. simpl in Hnd.
    apply NoDup_app in Hnd as (_ & Hdisj & Hnd).
    apply NoDup_cons in Hnd as [Hpost _]. split.
    - intros Hin. apply (Hdisj "useMockData"); [by apply list_elem_of_In|].
      by left.
    - intros Hin. apply Hpost. by apply list_elem_of_In. }
  destruct Hpre as [Hpre Hpost].
  destruct (query_object_around pre post "useMockData"
              ltac:(discriminate) ltac:(discriminate) eq_refl Hpre Hpost)
    as (A & B & HA & HB & Hne).
  assert (Hlen : forall f,
    String.length (params (pre ++ ("useMockData", VBool f) :: post))
    = (String.length (params without) + (if f then 16 else 17) + 1)%nat).
  { intros f. unfold without. rewrite !params_query_object, HA, HB.
    rewrite map_app. simpl map. rewrite length_concat_insert, <- map_app.
    destruct (map urlencode_pair (A ++ B)) eqn:E.
    - by destruct (A ++ B).
    - by destruct f. }
  assert (Hparams : params options <> params inverted /\
                    params options <> params without).
  { split; intros Heq; apply (f_equal String.length) in Heq;
      unfold options, inverted in Heq; rewrite !Hlen in Heq;
      destruct b; simpl in Heq; lia. }
  destruct Hparams as [Hinv Hwo].
  split; [|split; [|split; [|split; [|split; [|split; [|split]]]]]].
  - intros k v Hin. apply in_map.
    unfold query_object. apply own_properties_in.
    match goal with |- In _ (spread ?base _) => set (base0 := base) end.
    assert (Hget : get (spread base0 options) k = v)
      by (by apply get_spread_in).
    rewrite <- Hget. apply in_get. rewrite keys_spread. right.
    unfold keys. by apply (in_map fst) in Hin.
  - done.
  - rewrite params_query_object. unfold options. rewrite HA, map_app. simpl map.
    destruct (concat_insert "&" (map urlencode_pair A) (map urlencode_pair B)
                (urlencode_pair ("useMockData", VBool b))) as (a & c & ->).
    exists a, c. by destruct b.
  - unfold cacheKey. intros Heq. by apply String.app_inj in Heq.
  - unfold cacheKey. intros Heq. by apply String.app_inj in Heq.
  - unfold properties_url. intros Heq. by do 2 apply String.app_inj in Heq.
  - unfold properties_url. intros Heq. by do 2 apply String.app_inj in Heq.
  - destruct (fetchProperties_miss_requests options w Hmiss ltac:(lia))
      as (new & Hlog & _).
    by exists new.
Qed.

Lemma useMockData_is_serialized_witness :
  cacheKey [("useMockData", VBool false)]
    = "properties_limit=50&offset=0&useMockData=false" /\
  cacheKey [("useMockData", VBool false)] <> cacheKey [] /\
  cacheKey [("useMockData", VBool false)] <> cacheKey [("useMockData", VBool true)].
Proof.
  split; [reflexivity|].
  destruct (useMockData_is_serialized [] [] false api_offline)
    as (_ & _ & _ & Hinv & Hwo & _).
  - unfold keys. simpl. apply NoDup_cons. split; [|apply NoDup_nil_2].
    apply not_elem_of_nil.
  - reflexivity.
  - reflexivity.
  - split; [exact Hwo|exact Hinv].
Defined.


End ApiSpec.

(** ** Properties of [RealEstateSlideshow] *)

Module SlideshowSpec.
Import JS Slideshow.

(** The navigation calls; [goToSlide] with an integer, in range or not. *)
Inductive nav : Type :=
  | Next
  | Previous
  | Goto (j : Z).

Definition step (s : t) (n : nav) : t :=
  match n with
  | Next => nextSlide s
  | Previous => previousSlide s
  | Goto j => goToSlide (Idx j) s
  end.

Definition run (ops : list nav) (s : t) : t := fold_left step ops s.

(** [currentIndex] is a position of the slide sequence. *)
Definition valid (s : t) : Prop :=
  exists z, currentIndex s = Idx z /\ 0 <= z < Z.of_nat (length (props s)).

(** What [displaySlide] tests before anything else. *)
Definition refused (i : index) (s : t) : bool :=
  idx_lt i (Idx 0) || idx_ge i (len (props s)) || isLoading s.

Lemma displaySlide_refused i s : refused i s = true -> displaySlide i s = s.
Proof. unfold displaySlide, refused. by intros ->. Qed.

(** An accepted [displaySlide] sets the index and leaves the flag down,
    whether the slide could be drawn or not. *)
Lemma displaySlide_accepted i s :
  refused i s = false ->
  currentIndex (displaySlide i s) = i /\
  isLoading (displaySlide i s) = false /\
  props (displaySlide i s) = props s /\
  isPlaying (displaySlide i s) = isPlaying s /\
  autoAdvanceInterval (displaySlide i s) = autoAdvanceInterval s /\
  autoAdvanceDelay (displaySlide i s) = autoAdvanceDelay s /\
  intervals (displaySlide i s) = intervals s /\
  next_handle (displaySlide i s) = next_handle s.
Proof.
  unfold displaySlide, refused. intros ->.
  change (props (set_currentIndex i (set_isLoading true s))) with (props s).
  destruct (createSlideHTML (nth_index (props s) i)); by cbn.
Qed.

Lemma preloadNextSlide_frame s :
  currentIndex (preloadNextSlide s) = currentIndex s /\
  isLoading (preloadNextSlide s) = isLoading s /\
  props (preloadNextSlide s) = props s /\
  isPlaying (preloadNextSlide s) = isPlaying s /\
  autoAdvanceInterval (preloadNextSlide s) = autoAdvanceInterval s /\
  autoAdvanceDelay (preloadNextSlide s) = autoAdvanceDelay s /\
  intervals (preloadNextSlide s) = intervals s /\
  next_handle (preloadNextSlide s) = next_handle s.
Proof.
  unfold preloadNextSlide.
  destruct (nth_index _ _) as [p|]; [|done].
  destruct (Api.images p); done.
Qed.

(** The timer calls leave the slides, the index and both flags alone. *)
Lemma stopAutoAdvance_frame s :
  currentIndex (stopAutoAdvance s) = currentIndex s /\
  isLoading (stopAutoAdvance s) = isLoading s /\
  props (stopAutoAdvance s) = props s /\
  isPlaying (stopAutoAdvance s) = isPlaying s /\
  autoAdvanceDelay (stopAutoAdvance s) = autoAdvanceDelay s /\
  elements (stopAutoAdvance s) = elements s /\
  api (stopAutoAdvance s) = api s /\
  autoAdvanceInterval (stopAutoAdvance s) = None.
Proof.
  unfold stopAutoAdvance.
  destruct (autoAdvanceInterval s) eqn:E; by cbn.
Qed.

Lemma startAutoAdvance_frame s :
  currentIndex (startAutoAdvance s) = currentIndex s /\
  isLoading (startAutoAdvance s) = isLoading s /\
  props (startAutoAdvance s) = props s /\
  isPlaying (startAutoAdvance s) = isPlaying s /\
  autoAdvanceDelay (startAutoAdvance s) = autoAdvanceDelay s /\
  elements (startAutoAdvance s) = elements s /\
  api (startAutoAdvance s) = api s.
Proof.
  unfold startAutoAdvance. destruct (isPlaying s) eqn:E; cbn; [|done].
  destruct (stopAutoAdvance_frame s) as (? & ? & ? & ? & ? & ? & ? & ?).
  repeat split; try done.
  unfold props in *. cbn. congruence.
Qed.

Lemma resetAutoAdvance_frame s :
  currentIndex (resetAutoAdvance s) = currentIndex s /\
  isLoading (resetAutoAdvance s) = isLoading s /\
  props (resetAutoAdvance s) = props s /\
  isPlaying (resetAutoAdvance s) = isPlaying s /\
  autoAdvanceDelay (resetAutoAdvance s) = autoAdvanceDelay s /\
  elements (resetAutoAdvance s) = elements s /\
  api (resetAutoAdvance s) = api s.
Proof.
  assert (resetAutoAdvance s = s \/ resetAutoAdvance s = startAutoAdvance s)
    as [-> | ->]
    by (unfold resetAutoAdvance; destruct (isPlaying s); auto).
  - by repeat split.
  - apply startAutoAdvance_frame.
Qed.

(** [goToSlide], field by field. *)
Lemma goToSlide_frame i s :
  currentIndex (goToSlide i s)
  = (if idx_eq i (currentIndex s) || refused i s then currentIndex s else i) /\
  isLoading (goToSlide i s) = isLoading s /\
  props (goToSlide i s) = props s /\
  isPlaying (goToSlide i s) = isPlaying s /\
  autoAdvanceDelay (goToSlide i s) = autoAdvanceDelay s.
Proof.
  unfold goToSlide.
  destruct (isLoading s) eqn:Hload.
  { rewrite orb_true_r. unfold refused. rewrite Hload, !orb_true_r. done. }
  rewrite orb_false_r. destruct (idx_eq i (currentIndex s)); [done|]. cbn [orb].
  destruct (refused i s) eqn:Href.
  - rewrite (displaySlide_refused _ _ Href).
    destruct (preloadNextSlide_frame s) as (Hc & Hl & Hp & Hpl & _ & Hd & _).
    rewrite Hpl.
    destruct (resetAutoAdvance_frame (preloadNextSlide s))
      as (Hc' & Hl' & Hp' & Hpl' & Hd' & _).
    destruct (isPlaying s); repeat split; congruence.
  - destruct (displaySlide_accepted _ _ Href)
      as (Hc0 & Hl0 & Hp0 & Hpl0 & _ & Hd0 & _).
    destruct (preloadNextSlide_frame (displaySlide i s))
      as (Hc & Hl & Hp & Hpl & _ & Hd & _).
    rewrite Hpl.
    destruct (resetAutoAdvance_frame (preloadNextSlide (displaySlide i s)))
      as (Hc' & Hl' & Hp' & Hpl' & Hd' & _).
    destruct (isPlaying (displaySlide i s)); repeat split; congruence.
Qed.

Lemma refused_false j s :
  refused (Idx j) s = false ->
  0 <= j < Z.of_nat (length (props s)) /\ isLoading s = false.
Proof.
  unfold refused, len. intros H.
  apply orb_false_elim in H as [H Hload].
  apply orb_false_elim in H as [Hlt Hge].
  simpl in *. split; [lia|done].
Qed.

Lemma refused_in_range j s :
  0 <= j < Z.of_nat (length (props s)) -> isLoading s = false ->
  refused (Idx j) s = false.
Proof.
  unfold refused, len. intros Hj ->. simpl.
  destruct (Z.ltb_spec j 0), (Z.leb_spec (Z.of_nat (length (props s))) j);
    simpl; lia.
Qed.

(** While a slide is being drawn, navigation does nothing at all. *)
Lemma goToSlide_loading i s : isLoading s = true -> goToSlide i s = s.
Proof. unfold goToSlide. intros ->. by rewrite orb_true_r. Qed.

(** [goToSlide] with an integer keeps the index valid. *)
Lemma goToSlide_valid j s : valid s -> valid (goToSlide (Idx j) s).
Proof.
  intros (z & Hz & Hrange). unfold valid.
  destruct (goToSlide_frame (Idx j) s) as (Hc & _ & Hp & _).
  rewrite Hc, Hp.
  destruct (idx_eq (Idx j) (currentIndex s)); [eauto|]. cbn [orb].
  destruct (refused (Idx j) s) eqn:Href; [eauto|].
  apply refused_false in Href as [Hj _]. eauto.
Qed.

(** The targets of [nextSlide] and [previousSlide] from a valid index. *)
Lemma next_target z n :
  0 <= z < n ->
  idx_rem (idx_add (Idx z) (Idx 1)) (Idx n) = Idx ((z + 1) mod n).
Proof.
  intros Hz. simpl. destruct (Z.eqb_spec n 0); [lia|].
  by rewrite Z.rem_mod_nonneg by lia.
Qed.

Lemma previous_target z n :
  0 <= z < n ->
  (if idx_eq (Idx z) (Idx 0) then idx_sub (Idx n) (Idx 1)
   else idx_sub (Idx z) (Idx 1)) = Idx ((z - 1) mod n).
Proof.
  intros Hz. simpl. destruct (Z.eqb_spec z 0) as [->|Hne]; f_equal.
  - apply Z.mod_unique with (q := -1); lia.
  - symmetry. apply Z.mod_small. lia.
Qed.

Lemma step_valid s n : valid s -> valid (step s n).
Proof.
  intros Hv. destruct Hv as (z & Hz & Hrange) eqn:E.
  destruct n as [| |j]; simpl.
  - unfold nextSlide. rewrite Hz. unfold len. rewrite next_target by done.
    by apply goToSlide_valid.
  - unfold previousSlide. rewrite Hz. unfold len.
    rewrite previous_target by done. by apply goToSlide_valid.
  - by apply goToSlide_valid.
Qed.

Lemma run_valid ops s : valid s -> valid (run ops s).
Proof.
  revert s. induction ops as [|n ops IH]; intros s Hv; simpl; [done|].
  by apply IH, step_valid.
Qed.

(** From a valid index and with no slide being drawn, [goToSlide] with an
    index in range lands on it. *)
Lemma goToSlide_in_range j s :
  0 <= j < Z.of_nat (length (props s)) -> isLoading s = false ->
  currentIndex (goToSlide (Idx j) s) = Idx j.
Proof.
  intros Hj Hload. destruct (goToSlide_frame (Idx j) s) as (Hc & _).
  rewrite Hc, (refused_in_range _ _ Hj Hload), orb_false_r.
  destruct (currentIndex s) as [|c]; [done|]. simpl.
  destruct (Z.eqb_spec j c); by subst.
Qed.

Lemma nextSlide_wraps z s :
  currentIndex s = Idx z -> 0 <= z < Z.of_nat (length (props s)) ->
  isLoading s = false ->
  currentIndex (nextSlide s) = Idx ((z + 1) mod Z.of_nat (length (props s))).
Proof.
  intros Hz Hrange Hload. unfold nextSlide. rewrite Hz. unfold len.
  rewrite next_target by done. apply goToSlide_in_range; [|done].
  apply Z.mod_pos_bound. lia.
Qed.

Lemma previousSlide_wraps z s :
  currentIndex s = Idx z -> 0 <= z < Z.of_nat (length (props s)) ->
  isLoading s = false ->
  currentIndex (previousSlide s)
  = Idx ((z - 1) mod Z.of_nat (length (props s))).
Proof.
  intros Hz Hrange Hload. unfold previousSlide. rewrite Hz. unfold len.
  rewrite previous_target by done. apply goToSlide_in_range; [|done].
  apply Z.mod_pos_bound. lia.
Qed.

(** *** Sample states *)

Definition blank_page : dom :=
  {| loading := false; slideWrapper := true; currentSlide := None;
     progress := None; currentSlideNum := None; totalSlides := None;
     playPauseIcon := "⏸️"; playPauseLabel := "Pause slideshow";
     errorMessage := None; announcements := []; preloaded := [] |}.

(** The controller as constructed, before any listing has arrived: no
    slide, playing, nothing being drawn. *)
Definition loading_state : t := constructor blank_page ApiSpec.api_offline.

(** The controller after [init()] with the origin down: the three sample
    properties, the first one on display, the timer running. *)
Definition playing_state : t := init loading_state.

(** *** Guards *)

Lemma nextSlide_frame s :
  isLoading (nextSlide s) = isLoading s /\ props (nextSlide s) = props s.
Proof.
  unfold nextSlide. destruct (goToSlide_frame
    (idx_rem (idx_add (currentIndex s) (Idx 1)) (len (props s))) s)
    as (_ & Hl & Hp & _). done.
Qed.

(** A burst of [nextSlide()] calls moves one slide per call. *)
Lemma nextSlide_burst k z s :
  currentIndex s = Idx z -> 0 <= z < Z.of_nat (length (props s)) ->
  isLoading s = false ->
  currentIndex (run (repeat Next k) s)
  = Idx ((z + Z.of_nat k) mod Z.of_nat (length (props s))).
Proof.
  revert z s. induction k as [|k IH]; intros z s Hz Hrange Hload.
  - simpl. rewrite Z.add_0_r, Z.mod_small by done. done.
  - cbn [repeat run fold_left step].
    destruct (nextSlide_frame s) as [Hl Hp].
    change (fold_left step (repeat Next k) (nextSlide s))
      with (run (repeat Next k) (nextSlide s)).
    rewrite (IH ((z + 1) mod Z.of_nat (length (props s))) (nextSlide s)).
    + rewrite Hp. f_equal. rewrite Zplus_mod_idemp_l. f_equal. lia.
    + by apply nextSlide_wraps.
    + rewrite Hp. apply Z.mod_pos_bound. lia.
    + congruence.
Qed.

(** On an empty sequence [displaySlide] refuses every integer. *)
Lemma refused_empty j s : props s = [] -> refused (Idx j) s = true.
Proof.
  unfold refused, len, idx_lt, idx_ge. intros ->.
  change (Z.of_nat (length [])) with 0.
  destruct (Z.ltb_spec j 0); [done|].
  destruct (Z.leb_spec 0 j); [done|lia].
Qed.

Lemma goToSlide_empty j z s :
  props s = [] -> isLoading s = false -> currentIndex s = Idx z ->
  goToSlide (Idx j) s = if j =? z then s else resetAutoAdvance s.
Proof.
  intros Hempty Hload Hz. unfold goToSlide. rewrite Hload, Hz, orb_false_r.
  simpl. destruct (j =? z); [done|].
  rewrite displaySlide_refused by (by apply refused_empty).
  assert (Hpre : preloadNextSlide s = s).
  { unfold preloadNextSlide. rewrite Hempty, Hz. done. }
  rewrite Hpre. unfold resetAutoAdvance. by destruct (isPlaying s).
Qed.

(** C7. On the controller as constructed, whose slide sequence is empty,
    navigation is no no-op: [previousSlide()] leaves the index alone but
    starts the auto-advance timer of the controller, and [nextSlide()]
    computes [1 % 0], which is [NaN], passes both comparisons of the guard
    of [displaySlide] and ends up in [currentIndex]. *)
Theorem empty_sequence_navigation_changes_state :
  props loading_state = [] /\ isLoading loading_state = false /\
  autoAdvanceInterval loading_state = None /\
  autoAdvanceInterval (previousSlide loading_state) = Some 1%nat /\
  intervals (previousSlide loading_state) = [(1%nat, 8000)] /\
  previousSlide loading_state <> loading_state /\
  currentIndex loading_state = Idx 0 /\
  currentIndex (nextSlide loading_state) = INaN.
Proof.
  repeat split; try reflexivity.
  intros H. apply (f_equal autoAdvanceInterval) in H. discriminate H.
Qed.

(** The guards of navigation. While a slide is being drawn ([isLoading] set, [s1])
    [nextSlide()], [previousSlide()] and [goToSlide(i)] change nothing at
    all. On an empty sequence ([s2], index an integer) [previousSlide()] and
    [goToSlide(j)] leave the index, the flags, the page and the API object
    as they are, and restart the auto-advance timer when the controller is
    playing. On a sequence with slides ([s3]) a burst of [k] calls of
    [nextSlide()] moves [k] slides on, one per call. *)
Theorem navigation_guards s1 s2 s3 i j z2 z3 k :
  isLoading s1 = true ->
  props s2 = [] -> isLoading s2 = false -> currentIndex s2 = Idx z2 ->
  currentIndex s3 = Idx z3 -> 0 <= z3 < Z.of_nat (length (props s3)) ->
  isLoading s3 = false ->
  (nextSlide s1 = s1 /\ previousSlide s1 = s1 /\ goToSlide i s1 = s1) /\
  (previousSlide s2 = resetAutoAdvance s2 /\
   goToSlide (Idx j) s2 = (if j =? z2 then s2 else resetAutoAdvance s2) /\
   resetAutoAdvance s2 = (if isPlaying s2 then startAutoAdvance s2 else s2) /\
   currentIndex (resetAutoAdvance s2) = Idx z2 /\
   props (resetAutoAdvance s2) = [] /\
   isLoading (resetAutoAdvance s2) = false /\
   isPlaying (resetAutoAdvance s2) = isPlaying s2 /\
   elements (resetAutoAdvance s2) = elements s2 /\
   api (resetAutoAdvance s2) = api s2) /\
  currentIndex (run (repeat Next k) s3)
  = Idx ((z3 + Z.of_nat k) mod Z.of_nat (length (props s3))).
Proof.
  intros Hload1 Hempty Hload2 Hz2 Hz3 Hrange Hload3.
  split; [|split].
  - unfold nextSlide, previousSlide. by rewrite !goToSlide_loading.
  - destruct (resetAutoAdvance_frame s2) as (Hc & Hl & Hp & Hpl & _ & He & Ha).
    repeat split; try congruence.
    + unfold previousSlide. rewrite Hz2, Hempty. simpl.
      destruct (Z.eqb_spec z2 0) as [->|Hne].
      * by rewrite (goToSlide_empty _ 0) by done.
      * rewrite (goToSlide_empty _ z2) by done.
        destruct (Z.eqb_spec (z2 - 1) z2); [lia|done].
    + by apply goToSlide_empty.
  - by apply nextSlide_burst.
Qed.

Lemma navigation_guards_witness :
  goToSlide (Idx 2) (set_isLoading true playing_state)
    = set_isLoading true playing_state /\
  previousSlide loading_state = resetAutoAdvance loading_state /\
  currentIndex (run [Next; Next; Next; Next] playing_state) = Idx 1.
Proof.
  destruct (navigation_guards (set_isLoading true playing_state)
              loading_state playing_state (Idx 2) 2 0 0 4
              eq_refl eq_refl eq_refl eq_refl eq_refl
              ltac:(vm_compute; split; [discriminate|reflexivity]) eq_refl)
    as ((_ & _ & H1) & (H2 & _) & H3).
  split; [exact H1|]. split; [exact H2|]. exact H3.
Defined.

(** *** Refresh *)

Lemma displaySlide_frame i s :
  currentIndex (displaySlide i s) = (if refused i s then currentIndex s else i) /\
  isPlaying (displaySlide i s) = isPlaying s /\
  autoAdvanceInterval (displaySlide i s) = autoAdvanceInterval s /\
  autoAdvanceDelay (displaySlide i s) = autoAdvanceDelay s /\
  intervals (displaySlide i s) = intervals s /\
  next_handle (displaySlide i s) = next_handle s.
Proof.
  destruct (refused i s) eqn:Href.
  - by rewrite (displaySlide_refused _ _ Href).
  - destruct (displaySlide_accepted _ _ Href)
      as (? & ? & ? & ? & ? & ? & ? & ?). done.
Qed.




Lemma pause_frame s :
  isPlaying (pause s) = false /\ autoAdvanceInterval (pause s) = None /\
  api (pause s) = api s /\ autoAdvanceDelay (pause s) = autoAdvanceDelay s /\
  currentIndex (pause s) = currentIndex s.
Proof.
  unfold pause.
  destruct (stopAutoAdvance_frame
              (set_playPause "▶️" "Play slideshow" (set_isPlaying false s)))
    as (Hc & _ & _ & Hpl & Hd & _ & Ha & Hi).
  by rewrite Hc, Hpl, Hd, Ha, Hi.
Qed.








End SlideshowSpec.

(** ** Properties of [PropertySlideshow] *)

Module PropertySlideshowSpec.
Import JS PropertySlideshow.

(** *** Sample slides and states *)

Definition villa : slide :=
  {| id := VStr "6632"; title := VStr "4 Bedroom Villa with Pool";
     price := VStr "€750,000"; location := VStr "Goncinha";
     bedrooms := VNum (of_Z 4); bathrooms := VNum (of_Z 3);
     area := VStr "6632"; type := VStr "Villa";
     description := VStr "Beautiful villa in Goncinha";
     images := [VStr "http://www.villas-vacations.com/pics/6632/1~6632_goncinha.jpg"];
     mainImage := VStr "http://www.villas-vacations.com/pics/6632/1~6632_goncinha.jpg";
     isMessage := false; isRental := false; backgroundColor := "";
     displayTime := None |}.


(** Three listings, the first on display, playing. *)
Definition three_villas : t := init [villa; villa; villa] (constructor ∅ 0).

(** A message without a background colour, shown for [d] ms. *)
Definition plain_notice (d : Z) : slide :=
  {| id := VStr "msg-2"; title := VStr "Open day on Saturday";
     price := VStr ""; location := VStr ""; bedrooms := VStr "";
     bathrooms := VStr ""; area := VStr ""; type := VStr "Message";
     description := VStr "Open day on Saturday";
     images := []; mainImage := VStr ""; isMessage := true; isRental := false;
     backgroundColor := ""; displayTime := Some d |}.

(** The slideshow started on a listing, a message and a listing, before the
    first slide is drawn: the interval is the only timer. *)
Definition started (d : Z) : t :=
  startSlideshow (set_properties [villa; plain_notice d; villa]
                    (constructor ∅ 0)).

(** *** What the display and the timer calls leave alone *)

Lemma showProperty_frame p q :
  currentIndex (showProperty p q) = currentIndex q /\
  properties (showProperty p q) = properties q /\
  isPlaying (showProperty p q) = isPlaying q /\
  intervalId (showProperty p q) = intervalId q /\
  slideInterval (showProperty p q) = slideInterval q /\
  clock (showProperty p q) = clock q.
Proof. done. Qed.

Lemma showRentalProperty_frame p q :
  currentIndex (showRentalProperty p q) = currentIndex q /\
  properties (showRentalProperty p q) = properties q /\
  isPlaying (showRentalProperty p q) = isPlaying q /\
  intervalId (showRentalProperty p q) = intervalId q /\
  slideInterval (showRentalProperty p q) = slideInterval q /\
  clock (showRentalProperty p q) = clock q.
Proof. done. Qed.

Lemma showMessage_frame m q :
  currentIndex (showMessage m q) = currentIndex q /\
  properties (showMessage m q) = properties q /\
  isPlaying (showMessage m q) = isPlaying q /\
  intervalId (showMessage m q) = intervalId q /\
  slideInterval (showMessage m q) = slideInterval q /\
  clock (showMessage m q) = clock q.
Proof.
  unfold showMessage.
  destruct (negb (String.eqb (backgroundColor m) ""));
    destruct (time_truthy (displayTime m)); cbn;
    destruct (isPlaying q) eqn:E; repeat split; try reflexivity; exact E.
Qed.

Lemma startSlideshow_frame q :
  currentIndex (startSlideshow q) = currentIndex q /\
  properties (startSlideshow q) = properties q /\
  isPlaying (startSlideshow q) = isPlaying q /\
  slideInterval (startSlideshow q) = slideInterval q /\
  clock (startSlideshow q) = clock q.
Proof.
  unfold startSlideshow, clearInterval.
  destruct (intervalId q); cbn; destruct (isPlaying q) eqn:E;
    repeat split; try reflexivity; exact E.
Qed.

(** [updateDisplay] draws the slide under the index, if there is one. *)
Lemma updateDisplay_frame q :
  currentIndex (snd (updateDisplay q)) = currentIndex q /\
  properties (snd (updateDisplay q)) = properties q /\
  isPlaying (snd (updateDisplay q)) = isPlaying q /\
  slideInterval (snd (updateDisplay q)) = slideInterval q /\
  clock (snd (updateDisplay q)) = clock q /\
  (fst (updateDisplay q) = Api.Ok tt <->
   is_Some (nth_index (properties q) (currentIndex q))).
Proof.
  unfold updateDisplay.
  destruct (nth_index (properties q) (currentIndex q)) as [p|] eqn:E.
  - assert (Hs : is_Some (Some p)) by eauto.
    destruct (isMessage p); [|destruct (isRental p && negb (truthy (mainImage p)))];
      cbn [fst snd].
    + destruct (showMessage_frame p q) as (? & ? & ? & ? & ? & ?).
      repeat split; done.
    + repeat split; done.
    + repeat split; done.
  - cbn [fst snd]. repeat split; try done; by intros [? ?].
Qed.

(** [goToSlide(index)] stores the index whatever it is. *)
Lemma goToSlide_fields i q :
  currentIndex (snd (goToSlide i q)) = i /\
  properties (snd (goToSlide i q)) = properties q /\
  isPlaying (snd (goToSlide i q)) = isPlaying q /\
  (fst (goToSlide i q) = Api.Ok tt <-> is_Some (nth_index (properties q) i)).
Proof.
  unfold goToSlide, bind, modify.
  destruct (updateDisplay_frame (set_currentIndex i q))
    as (Hc & Hp & Hpl & _ & _ & Hok).
  destruct (updateDisplay (set_currentIndex i q)) as [[[]|e] q1];
    cbn [fst snd] in *.
  - destruct (startSlideshow_frame q1) as (Hc' & Hp' & Hpl' & _).
    rewrite Hc', Hp', Hpl', Hc, Hp, Hpl. repeat split; try done.
    intros _. by apply Hok.
  - repeat split; try done; rewrite <- Hok; done.
Qed.

(** The callback of a timer, by name. *)
Definition callback_name (cb : callback) : string :=
  match cb with
  | CbNextSlide => "nextSlide"
  | CbMessageAdvance => "message advance"
  | CbRestoreBackground => "restore background"
  | CbFadeIn _ => "fade in"
  end.

(** The pending timers: when each is due, whether it repeats, what it
    runs. *)
Definition pending (s : t) : list (Z * option Z * string) :=
  map (fun tm => (due tm, period tm, callback_name (action tm))) (timers s).

(** The next [n] timers to fire from [s] on: the time, the callback and the
    index once it has run. *)
Fixpoint timeline (n : nat) (s : t) : list (Z * string * index) :=
  match n with
  | O => []
  | S k =>
      match fire s with
      | Some (tm, (_, s')) =>
          (clock s', callback_name (action tm), currentIndex s')
          :: timeline k s'
      | None => []
      end
  end.


(** C9. A message shown for 12000 ms while the slideshow plays at the
    interval of 8000 ms.  [goToSlide] leaves two timers pending, the
    advance of the message and the regular interval.  The interval fires
    first, at 8000 ms, and moves to the following slide; the advance of the
    message, which nothing has cleared, fires at 12000 ms on that slide and
    moves on again.  A message shown for 4000 ms gets the same two timers;
    its own fires first, and the interval starts again from then. *)
Theorem long_message_is_cut_short :
  let q1 := snd (goToSlide (Idx 1) (started 12000)) in
  slideInterval (started 12000) = 8000 /\
  currentIndex q1 = Idx 1 /\
  pending q1
  = [(12000, None, "message advance"); (8000, Some 8000, "nextSlide")] /\
  timeline 3 q1
  = [(8000, "nextSlide", Idx 2); (8150, "fade in", Idx 2);
     (12000, "message advance", Idx 0)] /\
  pending (snd (goToSlide (Idx 1) (started 4000)))
  = [(4000, None, "message advance"); (8000, Some 8000, "nextSlide")] /\
  timeline 3 (snd (goToSlide (Idx 1) (started 4000)))
  = [(4000, "message advance", Idx 2); (4150, "fade in", Idx 2);
     (12000, "nextSlide", Idx 0)].
Proof. vm_compute. repeat split. Qed.

End PropertySlideshowSpec.

(** ** More on the listing repository *)

Module ApiMore.
Import JS Api ApiSpec.

(** *** Retry and backoff, for any number of attempts *)

(** What [n] failed attempts write to the log, from attempt number [a] on:
    a request each, and a delay of [d * a] after every attempt but the one
    numbered [N]. *)
Fixpoint failed_attempts (u : string) (d N a : Z) (n : nat) : list event :=
  match n with
  | O => []
  | S n' =>
      EvFetch u :: (if a <? N then [EvDelay (d * a)] else [])
      ++ failed_attempts u d N (a + 1) n'
  end.

Lemma failed_outcome o : failed o = true -> exists e, outcome_result o = Throw e.
Proof. unfold failed. destruct (outcome_result o); [done|eauto]. Qed.

Lemma fetchWithRetry_loop_all_fail u f :
  forall a e w,
    (forall k, (k < f)%nat ->
       failed (net w u (requests u (log w) + k)%nat) = true) ->
    exists e',
      fetchWithRetry_loop f u a e w
      = (Throw e',
         set_log (log w ++ failed_attempts u (retryDelay w) (retryAttempts w) a f) w)
      /\ match f with
         | O => e' = e
         | S f' => outcome_result (net w u (requests u (log w) + f')%nat) = Throw e'
         end.
Proof.
  induction f as [|f IH]; intros a e w Hfail.
  - exists e. simpl. by rewrite set_log_id.
  - rewrite fetchWithRetry_loop_step.
    destruct (failed_outcome _ (Hfail 0%nat ltac:(lia))) as [e0 He0].
    rewrite Nat.add_0_r in He0. rewrite He0.
    set (w' := set_log (log w ++ EvFetch u ::
                  (if a <? retryAttempts w
                   then [EvDelay (retryDelay w * a)] else [])) w).
    assert (Hreq : requests u (log w') = S (requests u (log w))).
    { unfold w'. cbn [log set_log].
      rewrite requests_app, requests_cons_fetch.
      destruct (a <? retryAttempts w); cbn; lia. }
    destruct (IH (a + 1) e0 w') as (e' & Hloop & Hlast).
    { intros k Hk. rewrite Hreq. change (net w') with (net w).
      replace (S (requests u (log w)) + k)%nat
        with (requests u (log w) + S k)%nat by lia.
      apply Hfail. lia. }
    exists e'. split.
    + rewrite Hloop. f_equal. unfold w', set_log.
      cbn [log retryDelay retryAttempts baseUrl cache heap net now failed_attempts].
      f_equal. by rewrite <- app_assoc.
    + destruct f as [|f'].
      * subst e'. by rewrite Nat.add_0_r.
      * rewrite Hreq in Hlast. change (net w') with (net w) in Hlast.
        by replace (requests u (log w) + S f')%nat
          with (S (requests u (log w)) + f')%nat by lia.
Qed.

Lemma fetches_failed_attempts u d N a n :
  fetches (failed_attempts u d N a n) = n.
Proof.
  revert a. induction n as [|n IH]; intros a; [done|].
  cbn [failed_attempts].
  change (EvFetch u :: ?l) with ([EvFetch u] ++ l).
  rewrite !fetches_app, IH. by destruct (a <? N).
Qed.

Lemma delays_app l l' : delays (l ++ l') = delays l ++ delays l'.
Proof. unfold delays. apply omap_app. Qed.

Lemma delays_failed_attempts u d N a n :
  a + Z.of_nat n - 1 = N ->
  delays (failed_attempts u d N a n)
  = map (fun j => d * (a + Z.of_nat j)) (seq 0 (n - 1)).
Proof.
  revert a. induction n as [|n IH]; intros a HN; [done|].
  cbn [failed_attempts].
  change (EvFetch u :: ?l) with ([EvFetch u] ++ l).
  rewrite !delays_app.
  destruct n as [|n].
  - destruct (Z.ltb_spec a N); [lia|done].
  - rewrite IH by lia.
    destruct (Z.ltb_spec a N); [|lia].
    replace (S (S n) - 1)%nat with (S n) by lia.
    replace (S n - 1)%nat with n by lia.
    cbn [seq map]. rewrite Z.add_0_r. cbn. f_equal.
    rewrite <- seq_shift, map_map. apply map_ext. intros j. f_equal. lia.
Qed.

(** Linear backoff. When all [n = retryAttempts] attempts fail,
    [fetchWithRetry] has made exactly [n] requests, has waited
    [retryDelay * j] after the [j]-th attempt for every [j < n] and not
    after the last one, and throws the error of the last attempt. *)
Theorem linear_backoff u w n :
  retryAttempts w = Z.of_nat n -> (1 <= n)%nat ->
  (forall k, (k < n)%nat ->
     failed (net w u (requests u (log w) + k)%nat) = true) ->
  exists e new,
    fetchWithRetry u w = (Throw e, set_log (log w ++ new) w) /\
    outcome_result (net w u (requests u (log w) + (n - 1))%nat) = Throw e /\
    fetches new = n /\
    delays new = map (fun j => retryDelay w * (1 + Z.of_nat j)) (seq 0 (n - 1)).
Proof.
  intros HN Hn Hfail. unfold fetchWithRetry. rewrite HN, Nat2Z.id.
  destruct (fetchWithRetry_loop_all_fail u n 1 (Thrown VUndefined) w Hfail)
    as (e & Hloop & Hlast).
  exists e, (failed_attempts u (retryDelay w) (retryAttempts w) 1 n).
  split; [exact Hloop|]. split.
  - destruct n as [|n']; [lia|]. by replace (S n' - 1)%nat with n' by lia.
  - split; [apply fetches_failed_attempts|].
    apply delays_failed_attempts. lia.
Qed.

Lemma linear_backoff_witness :
  exists e new,
    fetchWithRetry "/api/properties/7/images" api_offline
    = (Throw e, set_log (log api_offline ++ new) api_offline) /\
    fetches new = 3%nat /\ delays new = [1000; 2000].
Proof.
  destruct (linear_backoff "/api/properties/7/images" api_offline 3
              eq_refl ltac:(lia) ltac:(intros; reflexivity))
    as (e & new & H1 & _ & H2 & H3).
  exists e, new. split; [exact H1|]. split; [exact H2|exact H3].
Defined.

Lemma outcome_result_ok o r : outcome_result o = Ok r -> ok r = true.
Proof.
  destruct o as [msg|r']; simpl; [done|].
  destruct (ok r') eqn:E; [|done]. by intros [= <-].
Qed.

Lemma fetchWithRetry_loop_result u f :
  forall a e w,
    exists new,
      snd (fetchWithRetry_loop f u a e w) = set_log (log w ++ new) w /\
      Forall (fun ev => ev = EvFetch u \/ exists ms, ev = EvDelay ms) new /\
      match fst (fetchWithRetry_loop f u a e w) with
      | Ok r => ok r = true /\ (1 <= fetches new <= f)%nat
      | Throw _ => fetches new = f
      end.
Proof.
  induction f as [|f IH]; intros a e w.
  - exists []. simpl. rewrite set_log_id. by repeat split.
  - rewrite fetchWithRetry_loop_step.
    destruct (outcome_result _) as [r|e'] eqn:E.
    + exists [EvFetch u]. cbn [fst snd]. split; [done|]. split.
      * apply List.Forall_cons; [by left|apply List.Forall_nil].
      * split; [by eapply outcome_result_ok|]. unfold fetches. simpl. lia.
    + set (w' := set_log _ w).
      destruct (IH (a + 1) e' w') as (new & Hsnd & Hall & Hres).
      exists (EvFetch u :: (if a <? retryAttempts w
                            then [EvDelay (retryDelay w * a)] else []) ++ new).
      split; [|split].
      * rewrite Hsnd. unfold w', set_log.
        cbn [log retryDelay retryAttempts baseUrl cache heap net now].
        f_equal. by rewrite <- app_assoc.
      * apply List.Forall_cons; [by left|]. apply Forall_app. split; [|done].
        destruct (a <? retryAttempts w); [|apply List.Forall_nil].
        apply List.Forall_cons; [right; eauto|apply List.Forall_nil].
      * assert (Hf : fetches (EvFetch u :: (if a <? retryAttempts w
                        then [EvDelay (retryDelay w * a)] else []) ++ new)
                     = S (fetches new)).
        { change (EvFetch u :: ?l) with ([EvFetch u] ++ l).
          rewrite !fetches_app. by destruct (a <? retryAttempts w). }
        rewrite Hf. destruct (fst (fetchWithRetry_loop f u (a + 1) e' w'));
          [split; [tauto|lia]|lia].
Qed.

(** What [fetchWithRetry] does in every case: it changes nothing but the
    log, to which it adds requests of its own URL and delays; a response it
    returns has a status in 200-299; and it only throws once all
    [retryAttempts] attempts have been made. *)
Theorem fetchWithRetry_outcome u w :
  exists new,
    snd (fetchWithRetry u w) = set_log (log w ++ new) w /\
    Forall (fun ev => ev = EvFetch u \/ exists ms, ev = EvDelay ms) new /\
    match fst (fetchWithRetry u w) with
    | Ok r => ok r = true /\ (1 <= fetches new <= Z.to_nat (retryAttempts w))%nat
    | Throw _ => fetches new = Z.to_nat (retryAttempts w)
    end.
Proof. apply fetchWithRetry_loop_result. Qed.

(** *** What [fetchProperties] stores *)

(** What [fetchProperties] ends in when its [try] block has thrown. *)
Definition fallback (options : object) (w w1 : world) : result ref * world :=
  if fallback_permitted options
  then (Ok (length (heap w)),
        set_heap (heap w ++ [CProperties (getMockProperties (now w))]) w1)
  else (Throw (JsError "Error"
                 "Unable to load properties. Please check your connection."),
        w1).

(** An origin that answers every request with 200 and one listing. *)
Definition one_listing : string -> nat -> outcome :=
  fun _ _ =>
    NetResponse
      {| resp_status := 200; resp_statusText := "OK";
         resp_body := Some (VArray [VObject [("id", VNum (of_Z 1));
                                             ("price", VNum (of_Z 450000));
                                             ("bedrooms", VStr "3")]]) |}.

(** Called with [this] undefined, [normalizeProperty] throws on every
    record. *)
Lemma normalizeProperty_unbound date x :
  exists e, normalizeProperty ThisUndefined date x = Throw e.
Proof. unfold normalizeProperty. destruct (properties_of x); eauto. Qed.

(** Only an empty listing is ever stored and returned. When the origin
    answers with a status in 200-299, [fetchProperties] stores and returns
    the listing if the body is the empty array; for every other body, an
    array with listings in it included, it behaves as after a failed fetch:
    sample data or the error, and nothing stored. *)
Theorem only_an_empty_listing_is_stored options w r w1 :
  cache w !! cacheKey options = None ->
  fetchWithRetry (properties_url w options) w = (Ok r, w1) ->
  match resp_body r with
  | Some (VArray []) =>
      fetchProperties options w
      = (Ok (length (heap w)),
         set_cache (<[cacheKey options := length (heap w)]> (cache w))
           (set_heap (heap w ++ [CProperties []]) w1))
  | _ =>
      fetchProperties options w = fallback options w w1 /\
      cache (snd (fetchProperties options w)) = cache w
  end.
Proof.
  intros Hmiss Hok.
  destruct (fetchWithRetry_frame (properties_url w options) w)
    as (new & Hw1 & _).
  rewrite Hok in Hw1. simpl in Hw1.
  unfold fetchProperties, fallback. rewrite Hmiss. unfold try_catch, bind.
  rewrite Hok. unfold json_of. subst w1.
  destruct (resp_body r) as [[ | |b|n|s|[|x l]|o]|]; cbn.
  1-5: destruct (fallback_permitted options); cbn; by split.
  - reflexivity.
  - destruct (normalizeProperty_unbound (now w) x) as [e He].
    cbn [array_map]. rewrite !He. cbn.
    destruct (fallback_permitted options); cbn; by split.
  - destruct (fallback_permitted options); cbn; by split.
  - destruct (fallback_permitted options); cbn; by split.
Qed.

Lemma only_an_empty_listing_is_stored_witness :
  (exists w', fetchProperties [] (constructor one_listing "2024-01-01T00:00:00.000Z")
              = (Ok 0%nat, w') /\
              heap w' = [CProperties (getMockProperties "2024-01-01T00:00:00.000Z")] /\
              cache w' = ∅ /\ fetches (log w') = 1%nat).
Proof.
  pose (w := constructor one_listing "2024-01-01T00:00:00.000Z").
  pose (w1 := set_log [EvFetch "/api/properties?limit=50&offset=0"] w).
  destruct (only_an_empty_listing_is_stored [] w
              {| resp_status := 200; resp_statusText := "OK";
                 resp_body := Some (VArray [VObject [("id", VNum (of_Z 1));
                                                     ("price", VNum (of_Z 450000));
                                                     ("bedrooms", VStr "3")]]) |}
              w1 eq_refl eq_refl) as [Hcall Hcache].
  eexists. split; [exact Hcall|]. repeat split.
Defined.

(** *** One cache for three kinds of entries *)

(** The keys of the three fetchers start differently. *)
Lemma keys_apart options (x y : string) :
  cacheKey options <> "property_" +:+ x /\
  cacheKey options <> "images_" +:+ y /\
  "property_" +:+ x <> "images_" +:+ y.
Proof.
  unfold cacheKey. repeat split; intros H.
  - apply (f_equal (String.get 8)) in H. lazy in H. discriminate H.
  - apply (f_equal (String.get 0)) in H. lazy in H. discriminate H.
  - apply (f_equal (String.get 0)) in H. lazy in H. discriminate H.
Qed.

(** A call leaves the cache as it is or adds one entry under its own key. *)
Definition adds_at (k : string) (w w' : world) : Prop :=
  cache w' = cache w \/ exists r, cache w' = <[k := r]> (cache w).

Lemma fetchProperties_adds options w :
  adds_at (cacheKey options) w (snd (fetchProperties options w)).
Proof.
  unfold fetchProperties, adds_at.
  destruct (cache w !! cacheKey options) as [r|] eqn:Hmiss; [by left|].
  unfold try_catch, bind.
  destruct (fetchWithRetry_frame (properties_url w options) w)
    as (new & Hw1 & _).
  destruct (fetchWithRetry (properties_url w options) w) as [[r|e] w1];
    simpl in Hw1; subst w1.
  - unfold json_of. destruct (resp_body r) as [[ | |b|n|s|l|o]|]; cbn;
      try (destruct (fallback_permitted options); cbn; by left).
    unfold lift. destruct (array_map _ l); cbn; [right; eauto|].
    destruct (fallback_permitted options); cbn; by left.
  - destruct (fallback_permitted options); cbn; by left.
Qed.

Lemma fetchProperty_adds i w :
  adds_at ("property_" +:+ to_string i) w (snd (fetchProperty i w)).
Proof.
  unfold fetchProperty, adds_at.
  destruct (cache w !! ("property_" +:+ to_string i)) as [r|] eqn:Hmiss;
    [by left|].
  unfold try_catch, bind.
  destruct (fetchWithRetry_frame
              (baseUrl w +:+ "/properties/" +:+ to_string i) w)
    as (new & Hw1 & _).
  destruct (fetchWithRetry _ w) as [[r|e] w1]; simpl in Hw1; subst w1.
  - unfold json_of. destruct (resp_body r) as [j|]; cbn; [|by left].
    unfold lift. destruct (normalizeProperty _ _ j); cbn; [right; eauto|by left].
  - cbn. by left.
Qed.

Lemma fetchPropertyImages_adds i w :
  adds_at ("images_" +:+ to_string i) w (snd (fetchPropertyImages i w)).
Proof.
  unfold fetchPropertyImages, adds_at.
  destruct (cache w !! ("images_" +:+ to_string i)) as [r|] eqn:Hmiss;
    [by left|].
  unfold try_catch, bind.
  destruct (fetchWithRetry_frame
              (baseUrl w +:+ "/properties/" +:+ to_string i +:+ "/images") w)
    as (new & Hw1 & _).
  destruct (fetchWithRetry _ w) as [[r|e] w1]; simpl in Hw1; subst w1.
  - unfold json_of. destruct (resp_body r) as [[ | |b|n|s|l|o]|]; cbn; try by left.
    unfold lift. destruct (array_map _ l); cbn; [right; eauto|by left].
  - cbn. by left.
Qed.

Lemma adds_at_other k k' w w' :
  adds_at k w w' -> k' <> k -> cache w' !! k' = cache w !! k'.
Proof.
  intros [->|[r ->]] Hne; [done|]. by rewrite lookup_insert_ne.
Qed.

(** The three fetchers share one map and never meet in it: a call of one
    neither adds nor changes an entry the other two would look up. *)
Theorem fetchers_keep_to_their_keys options i j w :
  cache (snd (fetchProperty i w)) !! cacheKey options
    = cache w !! cacheKey options /\
  cache (snd (fetchPropertyImages j w)) !! cacheKey options
    = cache w !! cacheKey options /\
  cache (snd (fetchProperties options w)) !! ("property_" +:+ to_string i)
    = cache w !! ("property_" +:+ to_string i) /\
  cache (snd (fetchPropertyImages j w)) !! ("property_" +:+ to_string i)
    = cache w !! ("property_" +:+ to_string i) /\
  cache (snd (fetchProperties options w)) !! ("images_" +:+ to_string j)
    = cache w !! ("images_" +:+ to_string j) /\
  cache (snd (fetchProperty i w)) !! ("images_" +:+ to_string j)
    = cache w !! ("images_" +:+ to_string j).
Proof.
  destruct (keys_apart options (to_string i) (to_string j)) as (H1 & H2 & H3).
  repeat split.
  - by apply (adds_at_other _ _ _ _ (fetchProperty_adds i w)).
  - by apply (adds_at_other _ _ _ _ (fetchPropertyImages_adds j w)).
  - by apply (adds_at_other _ _ _ _ (fetchProperties_adds options w)).
  - by apply (adds_at_other _ _ _ _ (fetchPropertyImages_adds j w)).
  - by apply (adds_at_other _ _ _ _ (fetchProperties_adds options w)).
  - by apply (adds_at_other _ _ _ _ (fetchProperty_adds i w)).
Qed.

(** *** [fetchPropertyImages] and [fetchProperty] on failure *)


(** [fetchProperty] has no fallback. When it throws, nothing was stored:
    the cache and the heap are as before. When it returns, the result is in
    the cache under its key and a repeated call returns the same object
    without touching anything; on a miss the object is a fresh normalized
    property. *)
Theorem fetchProperty_stores_or_throws i w :
  match fetchProperty i w with
  | (Ok r, w') =>
      cache w' !! ("property_" +:+ to_string i) = Some r /\
      fetchProperty i w' = (Ok r, w') /\
      (cache w !! ("property_" +:+ to_string i) = None ->
       r = length (heap w) /\ exists p, heap w' = heap w ++ [CProperty p])
  | (Throw e, w') => cache w' = cache w /\ heap w' = heap w
  end.
Proof.
  unfold fetchProperty.
  destruct (cache w !! ("property_" +:+ to_string i)) as [r|] eqn:Hmiss.
  { rewrite Hmiss. by repeat split. }
  unfold try_catch, bind.
  destruct (fetchWithRetry_frame
              (baseUrl w +:+ "/properties/" +:+ to_string i) w)
    as (new & Hw1 & _).
  destruct (fetchWithRetry _ w) as [[r|e] w1]; simpl in Hw1; subst w1.
  - unfold json_of. destruct (resp_body r) as [j|]; cbn; [|done].
    unfold lift. destruct (normalizeProperty _ _ j) as [p|e]; cbn; [|done].
    rewrite !lookup_insert_eq. split; [done|]. split; [done|]. intros _. eauto.
  - by cbn.
Qed.

(** *** Defaults of [normalizeProperty] *)




(** *** The query of [fetchProperties] *)

(** [k in o] *)
Definition has_own (o : object) (k : string) : bool :=
  existsb (String.eqb k) (keys o).

Lemma has_own_In o k : has_own o k = true <-> In k (keys o).
Proof.
  unfold has_own. rewrite existsb_exists. split.
  - intros (x & Hin & Heq). apply String.eqb_eq in Heq. by subst.
  - intros Hin. exists k. split; [done|apply String.eqb_refl].
Qed.

(** The first two properties of an object keep their places when more
    properties are written. *)
Lemma assign_two k1 k2 o :
  k1 <> k2 ->
  forall v1 v2 tl,
    exists tl',
      assign ((k1, v1) :: (k2, v2) :: tl) o
      = (k1, get (assign ((k1, v1) :: (k2, v2) :: tl) o) k1)
        :: (k2, get (assign ((k1, v1) :: (k2, v2) :: tl) o) k2) :: tl'.
Proof.
  intros Hne. unfold assign.
  induction o as [|[k v] o IH]; intros v1 v2 tl.
  - exists tl. simpl. rewrite !String.eqb_refl.
    by destruct (String.eqb_spec k1 k2).
  - cbn [fold_left fst snd set].
    destruct (String.eqb_spec k1 k) as [->|H1]; [apply IH|].
    destruct (String.eqb_spec k2 k) as [->|H2]; apply IH.
Qed.

Lemma get_of_spread base o k :
  NoDup (keys o) ->
  get (spread base o) k = if has_own o k then get o k else get base k.
Proof.
  intros Hnd. destruct (has_own o k) eqn:E.
  - apply has_own_In in E. by apply get_spread_in, in_get.
  - apply get_spread_notin. intros Hin. apply has_own_In in Hin. congruence.
Qed.

Lemma get_absent o k : has_own o k = false -> get o k = VUndefined.
Proof.
  intros E. induction o as [|[k0 v0] o IH]; [done|].
  unfold has_own in E. simpl in E, IH |- *.
  rewrite String.eqb_sym in E. apply orb_false_elim in E as [-> E]. by apply IH.
Qed.

Lemma set_NoDup o k v : NoDup (keys o) -> NoDup (keys (set o k v)).
Proof.
  induction o as [|[k0 v0] o IH]; simpl; intros Hnd.
  - apply NoDup_singleton.
  - apply NoDup_cons in Hnd as [Hk0 Hnd].
    destruct (String.eqb_spec k0 k) as [->|Hne]; simpl.
    + by apply NoDup_cons.
    + apply NoDup_cons. split; [|by apply IH].
      intros Hin. apply list_elem_of_In, keys_set in Hin.
      destruct Hin as [->|Hin]; [done|]. by apply Hk0, list_elem_of_In.
Qed.

Lemma assign_NoDup base o : NoDup (keys base) -> NoDup (keys (assign base o)).
Proof.
  unfold assign. revert base.
  induction o as [|[k v] o IH]; intros base Hb; [done|].
  simpl. by apply IH, set_NoDup.
Qed.

Lemma spread_NoDup base o : NoDup (keys base) -> NoDup (keys (spread base o)).
Proof. rewrite spread_assign. apply assign_NoDup. Qed.

(** The array indices among the keys of an object are enumerated from the
    least on, each with its property. *)
Lemma insert_index_sorted i kv l :
  Sorted Z.le (map fst l) -> Sorted Z.le (map fst (insert_index i kv l)).
Proof.
  induction l as [|[j kv'] l IH]; simpl; intros Hs.
  - by repeat constructor.
  - destruct (Z.ltb_spec i j); simpl.
    + constructor; [done|]. constructor. lia.
    + inversion Hs as [|? ? Hs' Hhd]; subst.
      constructor; [by apply IH|].
      destruct l as [|[j2 kv2] l]; simpl in *.
      * constructor. lia.
      * destruct (Z.ltb_spec i j2); simpl; constructor; [lia|].
        by inversion Hhd.
Qed.

Lemma index_properties_sorted o : Sorted Z.le (map fst (index_properties o)).
Proof.
  induction o as [|kv o IH]; simpl; [constructor|].
  destruct (array_index (fst kv)); [by apply insert_index_sorted|done].
Qed.

Lemma insert_index_Forall (P : Z * (string * value) -> Prop) i kv l :
  P (i, kv) -> List.Forall P l -> List.Forall P (insert_index i kv l).
Proof.
  intros Hi. induction l as [|[j kv'] l IH]; simpl; intros Hl.
  - by constructor.
  - destruct (i <? j); [by constructor|].
    inversion Hl; subst. constructor; [done|by apply IH].
Qed.

Lemma index_properties_index o :
  List.Forall (fun p => array_index (fst (snd p)) = Some (fst p))
    (index_properties o).
Proof.
  induction o as [|kv o IH]; simpl; [constructor|].
  destruct (array_index (fst kv)) eqn:E; [|done].
  by apply insert_index_Forall.
Qed.

Lemma filter_named o :
  List.Forall (fun kv => array_index (fst kv) = None) (List.filter is_named o).
Proof.
  apply List.Forall_forall. intros kv Hin. apply List.filter_In in Hin as [_ H].
  unfold is_named in H. by destruct (array_index (fst kv)).
Qed.

(** The query begins with the properties of the options whose keys are
    array indices, from the least index on; [limit] and [offset] follow, in
    this order, and then the other properties of the options.  The defaults
    50 and 0 are used only when the options have no such property: a
    property of the options replaces the value computed with [||], also
    when it is falsy, so [{limit: 0}] asks for [limit=0]. *)
Theorem query_defaults options :
  NoDup (keys options) ->
  let limit := if has_own options "limit" then get options "limit"
               else VNum (of_Z 50) in
  let offset := if has_own options "offset" then get options "offset"
                else VNum (of_Z 0) in
  exists indexed rest,
    query_object options
    = map snd indexed ++ ("limit", limit) :: ("offset", offset) :: rest /\
    List.Forall (fun p => array_index (fst (snd p)) = Some (fst p)) indexed /\
    Sorted Z.le (map fst indexed) /\
    List.Forall (fun kv => array_index (fst kv) = None) rest /\
    (forall k, In k (keys (map snd indexed ++ rest)) <->
               In k (keys options) /\ k <> "limit" /\ k <> "offset") /\
    params options
    = String.concat "&"
        (map urlencode_pair (map snd indexed)
         ++ ("limit=" +:+ urlencode (to_string limit))
         :: ("offset=" +:+ urlencode (to_string offset))
         :: map urlencode_pair rest).
Proof.
  intros Hnd limit offset.
  assert (Hlo : "limit" <> "offset") by discriminate.
  set (base := [("limit", or (get options "limit") (VNum (of_Z 50)));
                ("offset", or (get options "offset") (VNum (of_Z 0)))]).
  destruct (assign_two "limit" "offset" (own_properties options) Hlo
              (or (get options "limit") (VNum (of_Z 50)))
              (or (get options "offset") (VNum (of_Z 0))) [])
    as (tl & Hq).
  fold base in Hq. rewrite <- !spread_assign in Hq.
  assert (Hl : get (spread base options) "limit" = limit).
  { rewrite get_of_spread by done. subst limit.
    destruct (has_own options "limit") eqn:E; [done|].
    simpl. by rewrite (get_absent _ _ E). }
  assert (Ho : get (spread base options) "offset" = offset).
  { rewrite get_of_spread by done. subst offset.
    destruct (has_own options "offset") eqn:E; [done|].
    simpl. by rewrite (get_absent _ _ E). }
  rewrite Hl, Ho in Hq.
  assert (Hobj : query_object options
                 = map snd (index_properties tl)
                   ++ ("limit", limit) :: ("offset", offset)
                   :: List.filter is_named tl).
  { unfold query_object. fold base. by rewrite Hq. }
  exists (index_properties tl), (List.filter is_named tl).
  split; [exact Hobj|].
  split; [apply index_properties_index|].
  split; [apply index_properties_sorted|].
  split; [apply filter_named|]. split.
  - intros k. fold (own_properties tl). rewrite own_properties_keys.
    assert (Hk := keys_spread base options k).
    rewrite Hq in Hk. simpl in Hk.
    assert (Hnd' : NoDup (keys (spread base options))).
    { apply spread_NoDup. simpl. apply NoDup_cons. split.
      - intros Hin. apply list_elem_of_In in Hin. simpl in Hin.
        by destruct Hin as [?|[]].
      - apply NoDup_singleton. }
    rewrite Hq in Hnd'. simpl in Hnd'.
    apply NoDup_cons in Hnd' as [Hn1 Hnd'].
    apply NoDup_cons in Hnd' as [Hn2 _].
    split.
    + intros Hin. split; [|split].
      * destruct Hk as [Hk _]. destruct Hk as [Hk|Hk]; [auto| |done].
        destruct Hk as [<-|[<-|[]]].
        -- exfalso. apply Hn1. right. by apply list_elem_of_In.
        -- exfalso. by apply Hn2, list_elem_of_In.
      * intros ->. apply Hn1. right. by apply list_elem_of_In.
      * intros ->. by apply Hn2, list_elem_of_In.
    + intros (Hin & H1 & H2). destruct Hk as [_ Hk].
      destruct Hk as [Hk|[Hk|Hk]]; [by right| | |done]; congruence.
  - rewrite params_query_object, Hobj, map_app. reflexivity.
Qed.

Lemma query_defaults_witness :
  let options := [("status", VStr "sold"); ("7", VStr "x")] in
  NoDup (keys options) /\
  params options = "7=x&limit=50&offset=0&status=sold" /\
  params [("limit", VNum (of_Z 0))] = "limit=0&offset=0" /\
  exists (indexed : list (Z * (string * value))) rest,
    query_object options
    = map snd indexed ++ ("limit", VNum (of_Z 50)) :: ("offset", VNum (of_Z 0))
      :: rest.
Proof.
  intros options.
  assert (Hnd : NoDup (keys options)).
  { apply NoDup_cons. split; [|apply NoDup_singleton].
    intros Hin. apply list_elem_of_In in Hin. simpl in Hin.
    by destruct Hin as [?|[]]. }
  split; [exact Hnd|]. split; [reflexivity|]. split; [reflexivity|].
  destruct (query_defaults options Hnd) as (indexed & rest & Hq & _).
  exists indexed, rest. exact Hq.
Defined.

(** *** Errors of [fetchProperties] *)

(** [fetchProperties] never lets the error of its [try] block through.
    Whatever went wrong (the network, the status, the body), it either
    returns an array or throws one fixed error in its place, and it throws
    only when the options carry [useMockData: false]. *)
Theorem fetchProperties_masks_errors options w :
  (exists r, fst (fetchProperties options w) = Ok r) \/
  (fst (fetchProperties options w)
   = Throw (JsError "Error"
              "Unable to load properties. Please check your connection.") /\
   get options "useMockData" = VBool false /\
   cache (snd (fetchProperties options w)) = cache w /\
   heap (snd (fetchProperties options w)) = heap w).
Proof.
  unfold fetchProperties.
  destruct (cache w !! cacheKey options) as [r|] eqn:Hmiss; [left; by eexists|].
  unfold try_catch, bind.
  destruct (fetchWithRetry_frame (properties_url w options) w)
    as (new & Hw1 & _).
  assert (Hflag : fallback_permitted options = false ->
                  get options "useMockData" = VBool false).
  { unfold fallback_permitted.
    by destruct (get options "useMockData") as [| |[]| | | |]. }
  destruct (fallback_permitted options) eqn:Hfb.
  - left.
    destruct (fetchWithRetry (properties_url w options) w) as [[r|e] w1];
      [|by eexists].
    unfold json_of. destruct (resp_body r) as [[ | |b|n|s|l|o]|]; cbn;
      try by eexists.
    unfold lift. destruct (array_map _ l); cbn; by eexists.
  - specialize (Hflag eq_refl).
    destruct (fetchWithRetry (properties_url w options) w) as [[r|e] w1];
      simpl in Hw1; subst w1; [|right; by cbn].
    unfold json_of. destruct (resp_body r) as [[ | |b|n|s|l|o]|]; cbn;
      try (right; by cbn).
    unfold lift. destruct (array_map _ l); cbn; [left; by eexists|right; by cbn].
Qed.

(** *** No attempts allowed *)

(** With [retryAttempts] at zero or below the loop of [fetchWithRetry] does
    not run: no request is made and [undefined] is thrown, the initial value
    of [lastError]. [fetchProperty] passes [undefined] on,
    [fetchPropertyImages] returns the placeholder and [fetchProperties] the
    sample data or its error. *)
Theorem without_attempts_nothing_is_requested w :
  retryAttempts w <= 0 ->
  (forall u, fetchWithRetry u w = (Throw (Thrown VUndefined), w)) /\
  (forall i, cache w !! ("property_" +:+ to_string i) = None ->
     fetchProperty i w = (Throw (Thrown VUndefined), w)) /\
  (forall i, cache w !! ("images_" +:+ to_string i) = None ->
     fetchPropertyImages i w
     = (Ok (length (heap w)),
        set_heap (heap w ++ [CImages [placeholder_image]]) w)) /\
  (forall options, cache w !! cacheKey options = None ->
     fetchProperties options w = fallback options w w).
Proof.
  intros Hn.
  assert (Hf : forall u, fetchWithRetry u w = (Throw (Thrown VUndefined), w)).
  { intros u. unfold fetchWithRetry.
    replace (Z.to_nat (retryAttempts w)) with 0%nat by lia. done. }
  split; [exact Hf|]. split; [|split].
  - intros i Hmiss. unfold fetchProperty. rewrite Hmiss.
    unfold try_catch, bind. by rewrite Hf.
  - intros i Hmiss. unfold fetchPropertyImages. rewrite Hmiss.
    unfold try_catch, bind. by rewrite Hf.
  - intros options Hmiss. unfold fetchProperties, fallback. rewrite Hmiss.
    unfold try_catch, bind. rewrite Hf.
    by destruct (fallback_permitted options).
Qed.

(** An API object that allows no attempt. *)
Definition api_no_attempts : world :=
  {| baseUrl := "/api"; cache := ∅; retryAttempts := 0; retryDelay := 1000;
     heap := []; net := one_listing; now := "2024-01-01T00:00:00.000Z";
     log := [] |}.

Lemma without_attempts_nothing_is_requested_witness :
  fetchProperty (VNum (of_Z 7)) api_no_attempts
  = (Throw (Thrown VUndefined), api_no_attempts) /\
  log (snd (fetchProperties [] api_no_attempts)) = [].
Proof.
  destruct (without_attempts_nothing_is_requested api_no_attempts)
    as (_ & H1 & _ & H2); [vm_compute; discriminate|].
  split; [by apply H1|]. by rewrite H2.
Defined.

(** *** What a call without options returns *)

Lemma fetchProperties_default_listing w :
  cache w !! cacheKey [] = None ->
  exists l w1,
    fetchProperties [] w = (Ok (length (heap w)), w1) /\
    heap w1 = heap w ++ [CProperties l] /\ now w1 = now w /\
    (l = [] \/ l = getMockProperties (now w)).
Proof.
  intros Hmiss. unfold fetchProperties. rewrite Hmiss.
  change (fallback_permitted []) with true. unfold try_catch, bind.
  destruct (fetchWithRetry_frame (properties_url w []) w) as (new & Hw1 & _).
  destruct (fetchWithRetry (properties_url w []) w) as [[r|e] w1];
    simpl in Hw1; subst w1.
  - unfold json_of. destruct (resp_body r) as [[ | |b|n|s|[|x l]|o]|]; cbn;
      try (eexists _, _; repeat split; by right).
    + eexists _, _. repeat split. by left.
    + destruct (normalizeProperty_unbound (now w) x) as [e He].
      rewrite !He. cbn. eexists _, _. repeat split. by right.
  - cbn. eexists _, _. repeat split. by right.
Qed.

End ApiMore.

(** ** More on [RealEstateSlideshow] *)

Module SlideshowMore.
Import JS Slideshow SlideshowEvents SlideshowSpec.

(** *** The index under navigation *)

Lemma step_frame s n :
  isLoading (step s n) = isLoading s /\ props (step s n) = props s.
Proof.
  destruct n as [| |j]; simpl; unfold nextSlide, previousSlide;
    match goal with |- context [goToSlide ?i s] =>
      destruct (goToSlide_frame i s) as (_ & Hl & Hp & _) end; done.
Qed.

Lemma run_frame ops s :
  isLoading (run ops s) = isLoading s /\ props (run ops s) = props s.
Proof.
  revert s. induction ops as [|n ops IH]; intros s; simpl; [done|].
  destruct (IH (step s n)) as [-> ->]. apply step_frame.
Qed.

(** On a sequence with slides, whatever [nextSlide()], [previousSlide()] and
    [goToSlide(j)] calls are made, with any integers [j], the index stays a
    position of the sequence; from there [nextSlide()] moves one slide on
    and from the last slide to the first, [previousSlide()] one slide back
    and from the first slide to the last. *)
Theorem index_stays_valid ops s :
  valid s -> isLoading s = false ->
  exists z,
    currentIndex (run ops s) = Idx z /\
    0 <= z < Z.of_nat (length (props s)) /\
    props (run ops s) = props s /\
    currentIndex (nextSlide (run ops s))
    = Idx (if z =? Z.of_nat (length (props s)) - 1 then 0 else z + 1) /\
    currentIndex (previousSlide (run ops s))
    = Idx (if z =? 0 then Z.of_nat (length (props s)) - 1 else z - 1).
Proof.
  intros Hv Hload.
  destruct (run_valid ops s Hv) as (z & Hz & Hrange).
  destruct (run_frame ops s) as [Hl Hp]. rewrite Hp in Hrange.
  exists z. split; [done|]. split; [done|]. split; [done|].
  rewrite (nextSlide_wraps z), (previousSlide_wraps z), Hp
    by (rewrite ?Hp; congruence).
  split; f_equal.
  - destruct (Z.eqb_spec z (Z.of_nat (length (props s)) - 1)) as [->|Hne].
    + replace (Z.of_nat (length (props s)) - 1 + 1)
        with (Z.of_nat (length (props s))) by lia.
      apply Z_mod_same_full.
    + apply Z.mod_small. lia.
  - destruct (Z.eqb_spec z 0) as [->|Hne].
    + symmetry. apply Z.mod_unique with (q := -1); lia.
    + apply Z.mod_small. lia.
Qed.

Lemma index_stays_valid_witness :
  currentIndex (nextSlide (run [Next; Goto 7; Next] playing_state)) = Idx 0 /\
  currentIndex (previousSlide (run [Goto (-1)] playing_state)) = Idx 2.
Proof.
  split.
  - destruct (index_stays_valid [Next; Goto 7; Next] playing_state)
      as (z & Hz & _ & _ & Hn & _).
    + exists 0. vm_compute. split; [reflexivity|]. split; [discriminate|reflexivity].
    + reflexivity.
    + vm_compute in Hz. injection Hz as <-. exact Hn.
  - destruct (index_stays_valid [Goto (-1)] playing_state)
      as (z & Hz & _ & _ & _ & Hp).
    + exists 0. vm_compute. split; [reflexivity|]. split; [discriminate|reflexivity].
    + reflexivity.
    + vm_compute in Hz. injection Hz as <-. exact Hp.
Defined.

(** *** Navigation on an empty sequence *)

Lemma goToSlide_NaN s :
  isLoading s = false -> currentIndex (goToSlide INaN s) = INaN.
Proof.
  intros Hload. destruct (goToSlide_frame INaN s) as (Hc & _).
  rewrite Hc. unfold refused. rewrite Hload. done.
Qed.

Lemma step_NaN s n :
  props s = [] -> isLoading s = false -> currentIndex s = INaN ->
  currentIndex (step s n) = INaN.
Proof.
  intros Hempty Hload Hc. destruct n as [| |j]; simpl.
  - unfold nextSlide. rewrite Hc. by apply goToSlide_NaN.
  - unfold previousSlide. rewrite Hc. by apply goToSlide_NaN.
  - destruct (goToSlide_frame (Idx j) s) as (-> & _).
    by rewrite Hc, refused_empty.
Qed.

Lemma run_NaN ops s :
  props s = [] -> isLoading s = false -> currentIndex s = INaN ->
  currentIndex (run ops s) = INaN.
Proof.
  revert s. induction ops as [|n ops IH]; intros s Hempty Hload Hc; [done|].
  simpl. destruct (step_frame s n) as [Hl Hp].
  apply IH; [congruence|congruence|by apply step_NaN].
Qed.

(** When the sequence is empty, one [nextSlide()] turns the index into
    [NaN]: the target [(currentIndex + 1) % 0] is [NaN], which passes both
    comparisons of [displaySlide]. No navigation call brings a number back:
    the index is still [NaN] after any further calls, and there is no
    current property. *)
Theorem nextSlide_on_empty_sequence ops s :
  props s = [] -> isLoading s = false ->
  currentIndex (run (Next :: ops) s) = INaN /\
  getCurrentProperty (run (Next :: ops) s) = None.
Proof.
  intros Hempty Hload.
  assert (Hn : currentIndex (nextSlide s) = INaN).
  { unfold nextSlide. rewrite Hempty.
    assert (Ht : idx_rem (idx_add (currentIndex s) (Idx 1))
                       (len (@nil Api.Property)) = INaN)
      by (by destruct (currentIndex s)).
    rewrite Ht. by apply goToSlide_NaN. }
  destruct (nextSlide_frame s) as [Hl Hp].
  assert (Hrun : currentIndex (run (Next :: ops) s) = INaN).
  { simpl. apply run_NaN; congruence. }
  split; [done|]. unfold getCurrentProperty. by rewrite Hrun.
Qed.

Lemma nextSlide_on_empty_sequence_witness :
  currentIndex loading_state = Idx 0 /\
  currentIndex (run [Next; Previous; Goto 0; Next] loading_state) = INaN.
Proof.
  split; [reflexivity|].
  apply (nextSlide_on_empty_sequence [Previous; Goto 0; Next] loading_state);
    reflexivity.
Defined.

(** *** Hiding and showing the page *)

(** Hiding the page pauses the slideshow, and showing it again does not
    resume it: [pause()] has cleared [isPlaying], the flag the listener
    tests before it calls [play()]. Whatever the state before, after the
    two events the controller is paused and no timer is set. *)
Theorem hidden_page_stays_paused s :
  visibilitychange false (visibilitychange true s) = pause s /\
  isPlaying (visibilitychange false (visibilitychange true s)) = false /\
  autoAdvanceInterval (visibilitychange false (visibilitychange true s)) = None.
Proof.
  destruct (pause_frame s) as (Hpl & Hi & _).
  unfold visibilitychange at 1 3 5. cbn [visibilitychange]. rewrite Hpl. done.
Qed.

(** *** [escapeHtml] *)

(** What one character becomes. *)
Definition entity (c : ascii) : string :=
  if Ascii.eqb c "&" then "&amp;"
  else if Ascii.eqb c "<" then "&lt;"
  else if Ascii.eqb c ">" then "&gt;"
  else if Ascii.eqb c quotation_mark then "&quot;"
  else if Ascii.eqb c apostrophe then "&#039;"
  else String c "".

(** The characters with a meaning in markup and in attribute values. *)
Definition markup (c : ascii) : bool :=
  Ascii.eqb c "<" || Ascii.eqb c ">" || Ascii.eqb c quotation_mark
  || Ascii.eqb c apostrophe.

Lemma app_cons c (a b : string) : String c a +:+ b = String c (a +:+ b).
Proof. reflexivity. Qed.

Lemma app_empty (b : string) : "" +:+ b = b.
Proof. reflexivity. Qed.

Lemma replace_all_app c r a b :
  replace_all c r (a +:+ b) = replace_all c r a +:+ replace_all c r b.
Proof.
  induction a as [|x a IH]; [done|].
  rewrite app_cons. cbn [replace_all]. rewrite IH.
  destruct (Ascii.eqb x c); [|done].
  by rewrite ApiSpec.app_assoc_string.
Qed.

Lemma escapeHtml_cons c r :
  escapeHtml (VStr (String c r)) = entity c +:+ escapeHtml (VStr r).
Proof.
  unfold escapeHtml, entity. cbn [replace_all].
  destruct (Ascii.eqb c "&") eqn:E1.
  { by rewrite !replace_all_app. }
  cbn [replace_all]. destruct (Ascii.eqb c "<") eqn:E2.
  { by rewrite !replace_all_app. }
  cbn [replace_all]. destruct (Ascii.eqb c ">") eqn:E3.
  { by rewrite !replace_all_app. }
  cbn [replace_all]. destruct (Ascii.eqb c quotation_mark) eqn:E4.
  { by rewrite !replace_all_app. }
  cbn [replace_all]. by destruct (Ascii.eqb c apostrophe) eqn:E5.
Qed.

Lemma list_ascii_app (a b : string) :
  list_ascii_of_string (a +:+ b)
  = list_ascii_of_string a ++ list_ascii_of_string b.
Proof.
  induction a as [|x a IH]; [done|].
  rewrite app_cons. simpl. by rewrite IH.
Qed.

Lemma entity_markup c :
  Forall (fun x => markup x = false) (list_ascii_of_string (entity c)).
Proof.
  unfold entity.
  destruct (Ascii.eqb c "&") eqn:E1;
    [by repeat (apply List.Forall_cons; [reflexivity|])|].
  destruct (Ascii.eqb c "<") eqn:E2;
    [by repeat (apply List.Forall_cons; [reflexivity|])|].
  destruct (Ascii.eqb c ">") eqn:E3;
    [by repeat (apply List.Forall_cons; [reflexivity|])|].
  destruct (Ascii.eqb c quotation_mark) eqn:E4;
    [by repeat (apply List.Forall_cons; [reflexivity|])|].
  destruct (Ascii.eqb c apostrophe) eqn:E5;
    [by repeat (apply List.Forall_cons; [reflexivity|])|].
  apply List.Forall_cons; [|apply List.Forall_nil].
  unfold markup. by rewrite E2, E3, E4, E5.
Qed.

(** The five passes of [escapeHtml] do the work of one: every character is
    replaced once, by its entity, and the ampersands of the entities are not
    escaped again. The result has none of the characters [<], [>], the
    double and the single quote; an input that is no string gives the empty
    string. *)
Theorem escapeHtml_escapes unsafe :
  escapeHtml unsafe
  = match unsafe with
    | VStr s => String.concat "" (map entity (list_ascii_of_string s))
    | _ => ""
    end /\
  Forall (fun c => markup c = false) (list_ascii_of_string (escapeHtml unsafe)).
Proof.
  destruct unsafe as [| |b|n|s|l|o]; try (split; [reflexivity|apply List.Forall_nil]).
  induction s as [|c s [IH1 IH2]]; [split; [reflexivity|apply List.Forall_nil]|].
  rewrite escapeHtml_cons. split.
  - rewrite IH1. cbn [list_ascii_of_string map String.concat].
    destruct (map entity (list_ascii_of_string s)) eqn:E; [|done].
    cbn [String.concat]. by rewrite ApiSpec.app_nil_r_string.
  - rewrite list_ascii_app. apply Forall_app. split; [apply entity_markup|done].
Qed.

Lemma entity_cases c :
  (c = "&"%char \/ c = "<"%char \/ c = ">"%char \/ c = quotation_mark
   \/ c = apostrophe) \/
  (entity c = String c "" /\ c <> "&"%char).
Proof.
  unfold entity.
  destruct (Ascii.eqb_spec c "&") as [->|H1]; [auto|].
  destruct (Ascii.eqb_spec c "<") as [->|H2]; [auto|].
  destruct (Ascii.eqb_spec c ">") as [->|H3]; [auto|].
  destruct (Ascii.eqb_spec c quotation_mark) as [->|H4]; [auto 6|].
  destruct (Ascii.eqb_spec c apostrophe) as [->|H5]; [auto 6|].
  by right.
Qed.

Lemma escapeHtml_injective_strings a :
  forall b, escapeHtml (VStr a) = escapeHtml (VStr b) -> a = b.
Proof.
  induction a as [|c a IH]; intros [|d b] H.
  - done.
  - rewrite escapeHtml_cons in H.
    destruct (entity_cases d)
      as [[-> | [-> | [-> | [-> | ->]]]]|[E _]];
      try rewrite E in H; discriminate H.
  - rewrite escapeHtml_cons in H.
    destruct (entity_cases c)
      as [[-> | [-> | [-> | [-> | ->]]]]|[E _]];
      try rewrite E in H; discriminate H.
  - rewrite !escapeHtml_cons in H.
    destruct (entity_cases c)
      as [[-> | [-> | [-> | [-> | ->]]]]|[Hc Hcn]];
      destruct (entity_cases d)
        as [[-> | [-> | [-> | [-> | ->]]]]|[Hd Hdn]];
      try rewrite Hc in H; try rewrite Hd in H;
      try discriminate H;
      try (injection H as H; f_equal; by apply IH);
      try (injection H as H _; congruence).
    injection H as -> H. f_equal. by apply IH.
Qed.

(** [escapeHtml] loses nothing: two strings with the same escaped form are
    the same string. *)
Theorem escapeHtml_injective a b :
  escapeHtml (VStr a) = escapeHtml (VStr b) -> a = b.
Proof. apply escapeHtml_injective_strings. Qed.

Lemma escapeHtml_injective_witness :
  escapeHtml (VStr "a<b & c") = "a&lt;b &amp; c" /\ "a<b & c" = "a<b & c".
Proof.
  split; [reflexivity|].
  apply (escapeHtml_injective "a<b & c" "a<b & c"). reflexivity.
Defined.

(** *** The auto-advance timer *)

(** The public calls and the events, in any order. *)
Inductive action : Type :=
  | Event (e : event)
  | Refresh.

Definition perform (gs : swipe * t) (a : action) : swipe * t :=
  match a with
  | Event e => dispatch gs e
  | Refresh => (fst gs, refresh (snd gs))
  end.

(** The page from its construction on: [init()], then [acts]. *)
Definition session (page : dom) (w : Api.world) (g : swipe)
  (acts : list action) : swipe * t :=
  fold_left perform acts (g, init (constructor page w)).

(** No timer is set that [autoAdvanceInterval] does not record; the one it
    records runs at [autoAdvanceDelay], and only while [isPlaying] is set. *)
Definition timers_ok (s : t) : Prop :=
  match autoAdvanceInterval s with
  | Some h => intervals s = [(h, autoAdvanceDelay s)] /\ isPlaying s = true
  | None => intervals s = []
  end.

Definition same_timers (s s' : t) : Prop :=
  isPlaying s' = isPlaying s /\
  autoAdvanceInterval s' = autoAdvanceInterval s /\
  autoAdvanceDelay s' = autoAdvanceDelay s /\
  intervals s' = intervals s.

Lemma same_timers_refl s : same_timers s s.
Proof. done. Qed.

Lemma same_timers_trans s1 s2 s3 :
  same_timers s1 s2 -> same_timers s2 s3 -> same_timers s1 s3.
Proof. unfold same_timers. intuition congruence. Qed.

Lemma same_timers_ok s s' : same_timers s s' -> timers_ok s -> timers_ok s'.
Proof.
  unfold same_timers, timers_ok. intros (-> & -> & -> & ->). done.
Qed.

Lemma displaySlide_same_timers i s : same_timers s (displaySlide i s).
Proof.
  destruct (displaySlide_frame i s) as (_ & ? & ? & ? & ? & _). done.
Qed.

Lemma preloadNextSlide_same_timers s : same_timers s (preloadNextSlide s).
Proof.
  destruct (preloadNextSlide_frame s) as (_ & _ & _ & ? & ? & ? & ? & _). done.
Qed.

Lemma set_images_same_timers index imgs s :
  same_timers s (set_images index imgs s).
Proof. unfold set_images. by destruct (props s !! index). Qed.

Lemma load_images_same_timers s entry : same_timers s (load_images s entry).
Proof.
  unfold load_images. destruct entry as [index property].
  destruct (Api.fetchPropertyImages _ _) as [[r|e] w].
  - destruct (Api.heap w !! r) as [[| |imgs]|]; try done.
    apply (set_images_same_timers index imgs (set_api w s)).
  - apply (set_images_same_timers index _ (set_api w s)).
Qed.

Lemma preloadPropertyImages_same_timers s :
  same_timers s (preloadPropertyImages s).
Proof.
  unfold preloadPropertyImages.
  generalize (zip (seq 0 (length (props s))) (props s)). intros l.
  revert s. induction l as [|entry l IH]; intros s; simpl; [done|].
  eapply same_timers_trans; [apply load_images_same_timers|apply IH].
Qed.

(** The same without the flag, as it is in the middle of [pause()]. *)
Definition timers_recorded (s : t) : Prop :=
  match autoAdvanceInterval s with
  | Some h => intervals s = [(h, autoAdvanceDelay s)]
  | None => intervals s = []
  end.

Lemma timers_ok_recorded s : timers_ok s -> timers_recorded s.
Proof.
  unfold timers_ok, timers_recorded.
  destruct (autoAdvanceInterval s); [by intros [? _]|done].
Qed.

Lemma stopAutoAdvance_ok s :
  timers_recorded s ->
  autoAdvanceInterval (stopAutoAdvance s) = None /\
  intervals (stopAutoAdvance s) = [] /\
  isPlaying (stopAutoAdvance s) = isPlaying s /\
  autoAdvanceDelay (stopAutoAdvance s) = autoAdvanceDelay s.
Proof.
  unfold timers_recorded, stopAutoAdvance.
  destruct (autoAdvanceInterval s) as [h|] eqn:E; [|by rewrite E].
  intros ->. cbn. by rewrite Nat.eqb_refl.
Qed.

Lemma startAutoAdvance_ok s : timers_ok s -> timers_ok (startAutoAdvance s).
Proof.
  intros Hok. unfold startAutoAdvance.
  destruct (isPlaying s) eqn:Hpl; cbn [negb]; [|done].
  destruct (stopAutoAdvance_ok s (timers_ok_recorded s Hok)) as (Hi & Hl & Hp & Hd).
  unfold timers_ok. cbn. by rewrite Hl, Hp.
Qed.

Lemma resetAutoAdvance_ok s : timers_ok s -> timers_ok (resetAutoAdvance s).
Proof.
  unfold resetAutoAdvance. destruct (isPlaying s); [|done].
  apply startAutoAdvance_ok.
Qed.

Lemma pause_ok s : timers_ok s -> timers_ok (pause s).
Proof.
  intros Hok. unfold pause.
  set (s' := set_playPause _ _ _).
  assert (Hok' : timers_recorded s') by (by apply timers_ok_recorded in Hok).
  destruct (stopAutoAdvance_ok s' Hok') as (Hi & Hl & _).
  unfold timers_ok. by rewrite Hi.
Qed.

Lemma play_ok s : timers_ok s -> timers_ok (play s).
Proof.
  intros Hok. unfold play. apply startAutoAdvance_ok.
  unfold timers_ok in *. cbn. by destruct (autoAdvanceInterval s) as [h|];
    [destruct Hok as [-> _]|].
Qed.

Lemma togglePlayPause_ok s : timers_ok s -> timers_ok (togglePlayPause s).
Proof.
  unfold togglePlayPause. destruct (isPlaying s); [apply pause_ok|apply play_ok].
Qed.

Lemma goToSlide_ok i s : timers_ok s -> timers_ok (goToSlide i s).
Proof.
  intros Hok. unfold goToSlide.
  destruct (idx_eq i (currentIndex s) || isLoading s); [done|].
  assert (Hok' : timers_ok (preloadNextSlide (displaySlide i s))).
  { eapply same_timers_ok; [|exact Hok].
    eapply same_timers_trans;
      [apply displaySlide_same_timers|apply preloadNextSlide_same_timers]. }
  destruct (isPlaying _); [by apply resetAutoAdvance_ok|done].
Qed.

Lemma dispatch_ok g s e : timers_ok s -> timers_ok (snd (dispatch (g, s) e)).
Proof.
  intros Hok. destruct e as [| | |code|x y|x y|hidden| |h]; cbn [dispatch snd].
  - by apply goToSlide_ok.
  - by apply goToSlide_ok.
  - by apply togglePlayPause_ok.
  - unfold keydown.
    repeat match goal with
           | |- timers_ok (if ?b then _ else _) => destruct b
           end;
      try done; try (by apply goToSlide_ok);
      try (by apply togglePlayPause_ok); by apply pause_ok.
  - done.
  - unfold touchend.
    destruct (Qeq_bool (startX g) 0 || Qeq_bool (startY g) 0); [done|].
    cbn [snd]. destruct (_ && _); [|done].
    destruct (Qgtb _ _); by apply goToSlide_ok.
  - unfold visibilitychange. destruct hidden; [by apply pause_ok|].
    destruct (isPlaying s); [by apply play_ok|done].
  - done.
  - unfold interval_fires. destruct (existsb _ _); [by apply goToSlide_ok|done].
Qed.

Lemma drawn_same_timers (f : t -> t) s :
  (forall y, same_timers y (f y)) ->
  same_timers s
    (showLoading false (preloadNextSlide (displaySlide (Idx 0)
       (updateSlideCounter (f (preloadPropertyImages s)))))).
Proof.
  intros Hf.
  apply (same_timers_trans _ (preloadPropertyImages s));
    [apply preloadPropertyImages_same_timers|].
  apply (same_timers_trans _ (f (preloadPropertyImages s))); [apply Hf|].
  set (y := f (preloadPropertyImages s)).
  apply (same_timers_trans _ (updateSlideCounter y)); [by repeat split|].
  apply (same_timers_trans _ (displaySlide (Idx 0) (updateSlideCounter y)));
    [apply displaySlide_same_timers|].
  apply (same_timers_trans _
           (preloadNextSlide (displaySlide (Idx 0) (updateSlideCounter y))));
    [apply preloadNextSlide_same_timers|].
  by repeat split.
Qed.

Lemma refresh_ok s : timers_ok s -> timers_ok (refresh s).
Proof.
  intros Hok. unfold refresh. cbv zeta.
  assert (Hp : timers_ok (pause (showLoading true s))) by (by apply pause_ok).
  set (s0 := pause (showLoading true s)) in *.
  destruct (Api.fetchProperties [] _) as [[r|e] w].
  - match goal with |- timers_ok (if ?b then _ else _) => destruct b end.
    + exact Hp.
    + apply play_ok. eapply same_timers_ok; [|exact Hp].
      eapply same_timers_trans;
        [|apply (drawn_same_timers (set_currentIndex (Idx 0)))];
        by repeat split.
  - exact Hp.
Qed.

Lemma init_ok s : timers_ok s -> timers_ok (init s).
Proof.
  intros Hok. unfold init. cbv zeta.
  destruct (Api.fetchProperties [] _) as [[r|e] w].
  - match goal with |- timers_ok (if ?b then _ else _) => destruct b end.
    + exact Hok.
    + apply startAutoAdvance_ok. eapply same_timers_ok; [|exact Hok].
      eapply same_timers_trans;
        [|apply (drawn_same_timers (fun y => y))]; by repeat split.
  - exact Hok.
Qed.

Lemma perform_ok gs a : timers_ok (snd gs) -> timers_ok (snd (perform gs a)).
Proof.
  destruct gs as [g s]. destruct a as [e|]; cbn [perform fst snd].
  - apply dispatch_ok.
  - apply refresh_ok.
Qed.

Lemma perform_all_ok acts gs :
  timers_ok (snd gs) -> timers_ok (snd (fold_left perform acts gs)).
Proof.
  revert gs. induction acts as [|a acts IH]; intros gs Hok; [done|].
  simpl. by apply IH, perform_ok.
Qed.

Lemma togglePlayPause_delay s :
  autoAdvanceDelay (togglePlayPause s) = autoAdvanceDelay s.
Proof.
  unfold togglePlayPause. destruct (isPlaying s).
  - by destruct (pause_frame s) as (_ & _ & _ & -> & _).
  - unfold play. by destruct (startAutoAdvance_frame
      (set_playPause "⏸️" "Pause slideshow" (set_isPlaying true s)))
      as (_ & _ & _ & _ & -> & _).
Qed.

Lemma goToSlide_delay i s : autoAdvanceDelay (goToSlide i s) = autoAdvanceDelay s.
Proof. by destruct (goToSlide_frame i s) as (_ & _ & _ & _ & ->). Qed.

Lemma dispatch_delay g s e :
  autoAdvanceDelay (snd (dispatch (g, s) e)) = autoAdvanceDelay s.
Proof.
  destruct e as [| | |code|x y|x y|hidden| |h]; cbn [dispatch snd].
  - apply goToSlide_delay.
  - apply goToSlide_delay.
  - apply togglePlayPause_delay.
  - unfold keydown.
    repeat match goal with
           | |- autoAdvanceDelay (if ?b then _ else _) = _ => destruct b
           end;
      try done; try apply goToSlide_delay; try apply togglePlayPause_delay;
      by destruct (pause_frame s) as (_ & _ & _ & -> & _).
  - done.
  - unfold touchend.
    destruct (Qeq_bool (startX g) 0 || Qeq_bool (startY g) 0); [done|].
    cbn [snd]. destruct (_ && _); [|done].
    destruct (Qgtb _ _); apply goToSlide_delay.
  - unfold visibilitychange. destruct hidden.
    + by destruct (pause_frame s) as (_ & _ & _ & -> & _).
    + destruct (isPlaying s); [|done]. unfold play.
      by destruct (startAutoAdvance_frame
        (set_playPause "⏸️" "Pause slideshow" (set_isPlaying true s)))
        as (_ & _ & _ & _ & -> & _).
  - done.
  - unfold interval_fires. destruct (existsb _ _); [apply goToSlide_delay|done].
Qed.

Lemma play_delay s : autoAdvanceDelay (play s) = autoAdvanceDelay s.
Proof.
  unfold play. by destruct (startAutoAdvance_frame
    (set_playPause "⏸️" "Pause slideshow" (set_isPlaying true s)))
    as (_ & _ & _ & _ & -> & _).
Qed.

Lemma pause_delay s : autoAdvanceDelay (pause s) = autoAdvanceDelay s.
Proof. by destruct (pause_frame s) as (_ & _ & _ & -> & _). Qed.

Lemma startAutoAdvance_delay s :
  autoAdvanceDelay (startAutoAdvance s) = autoAdvanceDelay s.
Proof. by destruct (startAutoAdvance_frame s) as (_ & _ & _ & _ & -> & _). Qed.

Lemma drawn_delay (f : t -> t) s :
  (forall y, same_timers y (f y)) ->
  autoAdvanceDelay
    (showLoading false (preloadNextSlide (displaySlide (Idx 0)
       (updateSlideCounter (f (preloadPropertyImages s))))))
  = autoAdvanceDelay s.
Proof. intros Hf. by destruct (drawn_same_timers f s Hf) as (_ & _ & -> & _). Qed.

Lemma listed_delay r w w' s :
  autoAdvanceDelay (set_properties r (set_api w (set_api w' s)))
  = autoAdvanceDelay s.
Proof. reflexivity. Qed.

Lemma refresh_delay s : autoAdvanceDelay (refresh s) = autoAdvanceDelay s.
Proof.
  transitivity (autoAdvanceDelay (pause (showLoading true s)));
    [|by rewrite pause_delay].
  unfold refresh. cbv zeta.
  generalize (pause (showLoading true s)). intros s0.
  destruct (Api.fetchProperties [] _) as [[r|e] w].
  - match goal with |- autoAdvanceDelay (if ?b then _ else _) = _ =>
      destruct b end; [reflexivity|].
    rewrite play_delay, (drawn_delay (set_currentIndex (Idx 0)))
      by (by repeat split).
    apply listed_delay.
  - reflexivity.
Qed.

Lemma init_delay s : autoAdvanceDelay (init s) = autoAdvanceDelay s.
Proof.
  unfold init. cbv zeta.
  destruct (Api.fetchProperties [] _) as [[r|e] w]; [|reflexivity].
  match goal with |- autoAdvanceDelay (if ?b then _ else _) = _ =>
    destruct b end; [reflexivity|].
  rewrite startAutoAdvance_delay, (drawn_delay (fun y => y))
    by (by repeat split).
  reflexivity.
Qed.

(** The timer of a session. From [init()] on, through every event and every
    [refresh()], at most one interval timer is set: the one recorded in
    [autoAdvanceInterval]. It runs every 8000 ms and only while [isPlaying]
    is set, so a paused slideshow has no timer at all and no timer is ever
    left behind. *)
Theorem one_timer_at_most page w g acts :
  autoAdvanceDelay (snd (session page w g acts)) = 8000 /\
  match autoAdvanceInterval (snd (session page w g acts)) with
  | Some h =>
      intervals (snd (session page w g acts)) = [(h, 8000)] /\
      isPlaying (snd (session page w g acts)) = true
  | None => intervals (snd (session page w g acts)) = []
  end.
Proof.
  assert (Hinv : forall acts gs,
            timers_ok (snd gs) /\ autoAdvanceDelay (snd gs) = 8000 ->
            timers_ok (snd (fold_left perform acts gs)) /\
            autoAdvanceDelay (snd (fold_left perform acts gs)) = 8000).
  { clear. induction acts as [|a acts IH]; intros gs [Hok Hd]; [done|].
    simpl. apply IH. split; [by apply perform_ok|].
    rewrite <- Hd. destruct gs as [g s]. destruct a as [e|]; cbn [perform fst snd].
    - apply dispatch_delay.
    - apply refresh_delay. }
  destruct (Hinv acts (g, init (constructor page w))) as [Hok Hd].
  { cbn [snd]. split; [by apply init_ok|]. by rewrite init_delay. }
  split; [exact Hd|]. unfold timers_ok in Hok. fold (session page w g acts) in *.
  by rewrite Hd in Hok.
Qed.

(** *** What the page shows *)

Definition without_images (p : Api.Property) : Api.Property :=
  {| Api.id := Api.id p; Api.title := Api.title p; Api.price := Api.price p;
     Api.loc := Api.loc p; Api.feat := Api.feat p;
     Api.description := Api.description p; Api.status := Api.status p;
     Api.images := []; Api.createdAt := Api.createdAt p;
     Api.updatedAt := Api.updatedAt p |}.

(** [this.properties] is the array [l]. *)
Definition listing_at (s : t) (l : list Api.Property) : Prop :=
  Api.heap (api s) !! properties s = Some (Api.CProperties l).

Lemma listing_props s l : listing_at s l -> props s = l.
Proof. unfold listing_at, props. by intros ->. Qed.

Lemma map_insert_same {A B} (f : A -> B) (l : list A) i x p :
  l !! i = Some p -> f x = f p -> map f (<[i := x]> l) = map f l.
Proof.
  revert i. induction l as [|y l IH]; intros [|i] Hl Hf; try done; simpl in *.
  - injection Hl as ->. by rewrite Hf.
  - f_equal. by apply IH.
Qed.

(** What loading the images leaves alone: the array is the same array, with
    the same listings in it but for their images. *)
Definition loaded (s s' : t) : Prop :=
  properties s' = properties s /\ isLoading s' = isLoading s /\
  currentIndex s' = currentIndex s /\ elements s' = elements s /\
  Api.now (api s') = Api.now (api s) /\
  forall l, listing_at s l ->
    exists l', listing_at s' l' /\
               map without_images l' = map without_images l.

Lemma loaded_refl s : loaded s s.
Proof. repeat split; try done. eauto. Qed.

Lemma loaded_trans s1 s2 s3 : loaded s1 s2 -> loaded s2 s3 -> loaded s1 s3.
Proof.
  intros (Hp & Hl & Hc & He & Hn & Hlist) (Hp' & Hl' & Hc' & He' & Hn' & Hlist').
  repeat split; try congruence.
  intros l Hs. destruct (Hlist l Hs) as (l2 & H2 & Hm).
  destruct (Hlist' l2 H2) as (l3 & H3 & Hm'). exists l3. split; congruence.
Qed.

Lemma set_images_loaded index imgs s : loaded s (set_images index imgs s).
Proof.
  unfold set_images. destruct (props s !! index) as [p|] eqn:E;
    [|apply loaded_refl].
  repeat split; try done.
  intros l Hl. rewrite (listing_props s l Hl) in *.
  eexists. split.
  - unfold listing_at. cbn. apply list_lookup_insert_eq.
    by apply lookup_lt_Some in Hl.
  - by apply map_insert_same with (p := p).
Qed.

Lemma set_api_loaded w s :
  ApiSpec.extends (api s) w -> loaded s (set_api w s).
Proof.
  intros (_ & _ & _ & _ & Hnow & _ & _ & [more Hheap]).
  repeat split; try done.
  intros l Hl. exists l. split; [|done].
  unfold listing_at in *. cbn. rewrite Hheap. by apply lookup_app_l_Some.
Qed.

Lemma load_images_loaded s entry : loaded s (load_images s entry).
Proof.
  unfold load_images. destruct entry as [index property].
  assert (Hext := ApiSpec.fetchPropertyImages_extends (Api.id property) (api s)).
  destruct (Api.fetchPropertyImages _ _) as [[r|e] w]; cbn [snd] in Hext.
  - destruct (Api.heap w !! r) as [[| |imgs]|]; try by apply set_api_loaded.
    eapply loaded_trans; [by apply set_api_loaded|apply set_images_loaded].
  - eapply loaded_trans; [by apply set_api_loaded|apply set_images_loaded].
Qed.

Lemma preloadPropertyImages_loaded s : loaded s (preloadPropertyImages s).
Proof.
  unfold preloadPropertyImages.
  generalize (zip (seq 0 (length (props s))) (props s)). intros l.
  revert s. induction l as [|entry l IH]; intros s; simpl; [apply loaded_refl|].
  eapply loaded_trans; [apply load_images_loaded|apply IH].
Qed.

(** What the timer calls and the page updates leave alone. *)
Definition same_view (s s' : t) : Prop :=
  api s' = api s /\ properties s' = properties s /\
  currentIndex s' = currentIndex s /\ isLoading s' = isLoading s /\
  currentSlide (elements s') = currentSlide (elements s).

Lemma same_view_refl s : same_view s s.
Proof. done. Qed.

Lemma same_view_trans s1 s2 s3 :
  same_view s1 s2 -> same_view s2 s3 -> same_view s1 s3.
Proof. unfold same_view. intuition congruence. Qed.

Lemma stopAutoAdvance_same_view s : same_view s (stopAutoAdvance s).
Proof. unfold stopAutoAdvance. by destruct (autoAdvanceInterval s). Qed.

Lemma startAutoAdvance_same_view s : same_view s (startAutoAdvance s).
Proof.
  unfold startAutoAdvance. destruct (negb (isPlaying s)); [done|].
  destruct (stopAutoAdvance_same_view s) as (? & ? & ? & ? & ?).
  by repeat split.
Qed.

Lemma resetAutoAdvance_same_view s : same_view s (resetAutoAdvance s).
Proof.
  unfold resetAutoAdvance. destruct (isPlaying s); [|done].
  apply startAutoAdvance_same_view.
Qed.

Lemma pause_same_view s : same_view s (pause s).
Proof.
  unfold pause.
  apply (same_view_trans _
           (set_playPause "▶️" "Play slideshow" (set_isPlaying false s)));
    [by repeat split|apply stopAutoAdvance_same_view].
Qed.

Lemma play_same_view s : same_view s (play s).
Proof.
  unfold play.
  apply (same_view_trans _
           (set_playPause "⏸️" "Pause slideshow" (set_isPlaying true s)));
    [by repeat split|apply startAutoAdvance_same_view].
Qed.

Lemma togglePlayPause_same_view s : same_view s (togglePlayPause s).
Proof.
  unfold togglePlayPause.
  destruct (isPlaying s); [apply pause_same_view|apply play_same_view].
Qed.

Lemma preloadNextSlide_same_view s : same_view s (preloadNextSlide s).
Proof.
  unfold preloadNextSlide.
  destruct (nth_index _ _) as [p|]; [|done]. by destruct (Api.images p).
Qed.

Lemma same_view_props s s' : same_view s s' -> props s' = props s.
Proof. intros (Ha & Hp & _). unfold props. by rewrite Ha, Hp. Qed.

(** The slide under the index is the slide on the page. *)
Definition shown (s : t) : Prop :=
  exists z p,
    currentIndex s = Idx z /\ 0 <= z /\ props s !! Z.to_nat z = Some p /\
    currentSlide (elements s) = Some p.

Lemma same_view_shown s s' : same_view s s' -> shown s -> shown s'.
Proof.
  intros Hv (z & p & Hz & H0 & Hp & Hs).
  rewrite <- (same_view_props _ _ Hv) in Hp.
  destruct Hv as (_ & _ & Hc & _ & He).
  exists z, p. repeat split; congruence.
Qed.

(** An accepted [displaySlide(j)] puts slide [j] on the page. *)
Lemma displaySlide_shown j s :
  refused (Idx j) s = false ->
  shown (displaySlide (Idx j) s) /\ api (displaySlide (Idx j) s) = api s /\
  properties (displaySlide (Idx j) s) = properties s /\
  isLoading (displaySlide (Idx j) s) = false.
Proof.
  intros Href. destruct (refused_false j s Href) as [Hj Hload].
  unfold displaySlide. unfold refused in Href. rewrite Href.
  change (props (set_currentIndex (Idx j) (set_isLoading true s)))
    with (props s).
  assert (Hlook : exists p, props s !! Z.to_nat j = Some p).
  { apply lookup_lt_is_Some. lia. }
  destruct Hlook as [p Hp].
  assert (Hnth : nth_index (props s) (Idx j) = Some p).
  { unfold nth_index. destruct (Z.ltb_spec j 0); [lia|done]. }
  rewrite Hnth. cbn [createSlideHTML].
  repeat split; try done.
  exists j, p. repeat split; try done; lia.
Qed.

Lemma goToSlide_shown j s :
  isLoading s = false -> shown s ->
  shown (goToSlide (Idx j) s) /\ api (goToSlide (Idx j) s) = api s /\
  properties (goToSlide (Idx j) s) = properties s /\
  isLoading (goToSlide (Idx j) s) = false.
Proof.
  intros Hload Hs. unfold goToSlide.
  destruct (idx_eq (Idx j) (currentIndex s) || isLoading s); [done|].
  assert (Hd : shown (displaySlide (Idx j) s) /\
               api (displaySlide (Idx j) s) = api s /\
               properties (displaySlide (Idx j) s) = properties s /\
               isLoading (displaySlide (Idx j) s) = false).
  { destruct (refused (Idx j) s) eqn:Href.
    - by rewrite (displaySlide_refused _ _ Href).
    - by apply displaySlide_shown. }
  destruct Hd as (Hs' & Ha & Hp & Hl).
  set (d := displaySlide (Idx j) s) in *.
  assert (Hv : same_view d
            (if isPlaying (preloadNextSlide d)
             then resetAutoAdvance (preloadNextSlide d)
             else preloadNextSlide d)).
  { destruct (isPlaying (preloadNextSlide d)).
    - eapply same_view_trans;
        [apply preloadNextSlide_same_view|apply resetAutoAdvance_same_view].
    - apply preloadNextSlide_same_view. }
  split; [by apply (same_view_shown d)|].
  destruct Hv as (Ha' & Hp' & _ & Hl' & _). repeat split; congruence.
Qed.

(** On an empty sequence navigation leaves the sequence empty. *)
Lemma goToSlide_keeps i s :
  api (goToSlide i s) = api s /\ properties (goToSlide i s) = properties s.
Proof.
  unfold goToSlide.
  destruct (idx_eq i (currentIndex s) || isLoading s); [done|].
  assert (Hd : api (displaySlide i s) = api s /\
               properties (displaySlide i s) = properties s).
  { unfold displaySlide.
    destruct (idx_lt i (Idx 0) || idx_ge i (len (props s)) || isLoading s);
      [done|].
    by destruct (createSlideHTML _). }
  destruct Hd as [Ha Hp].
  set (d := displaySlide i s) in *.
  destruct (preloadNextSlide_same_view d) as (Ha1 & Hp1 & _).
  destruct (isPlaying (preloadNextSlide d)).
  - destruct (resetAutoAdvance_same_view (preloadNextSlide d)) as (Ha2 & Hp2 & _).
    split; congruence.
  - split; congruence.
Qed.

(** The state of a page that is not in the middle of a call: nothing is
    being drawn, and either there are no slides or the slides are the
    built-in sample, one of them on display. *)
Definition settled (date : string) (s : t) : Prop :=
  Api.now (api s) = date /\ isLoading s = false /\
  (props s = [] \/
   map without_images (props s) = Api.getMockProperties date /\ shown s).

Lemma goToSlide_settled date i s :
  (props s = [] \/ exists j, i = Idx j) ->
  settled date s -> settled date (goToSlide i s).
Proof.
  intros Hi (Hnow & Hload & Hs).
  destruct (goToSlide_keeps i s) as [Ha Hp].
  assert (Hprops : props (goToSlide i s) = props s)
    by (unfold props; by rewrite Ha, Hp).
  destruct (goToSlide_frame i s) as (_ & Hl & _).
  split; [by rewrite Ha|]. split; [congruence|].
  rewrite Hprops. destruct Hs as [Hempty|[Hsample Hshown]]; [by left|].
  right. split; [done|].
  destruct Hi as [Hempty|[j ->]].
  - rewrite Hempty in Hsample. discriminate Hsample.
  - by apply goToSlide_shown.
Qed.

Lemma nextSlide_settled date s : settled date s -> settled date (nextSlide s).
Proof.
  intros Hs. unfold nextSlide. apply goToSlide_settled; [|done].
  destruct Hs as (_ & _ & [Hempty|[Hsample (z & p & Hz & _)]]); [by left|].
  right. rewrite Hz. unfold len. simpl.
  destruct (Z.of_nat (length (props s)) =? 0) eqn:E; [|eauto].
  apply Z.eqb_eq in E. destruct (props s); [discriminate Hsample|].
  simpl in E. lia.
Qed.

Lemma previousSlide_settled date s :
  settled date s -> settled date (previousSlide s).
Proof.
  intros Hs. unfold previousSlide. apply goToSlide_settled; [|done].
  destruct Hs as (_ & _ & [Hempty|[Hsample (z & p & Hz & _)]]); [by left|].
  right. rewrite Hz. unfold len. simpl. destruct (z =? 0); eauto.
Qed.

Lemma same_view_settled date s s' :
  same_view s s' -> settled date s -> settled date s'.
Proof.
  intros Hv (Hnow & Hload & Hs).
  assert (Hp := same_view_props _ _ Hv).
  split; [destruct Hv as (-> & _); done|].
  split; [destruct Hv as (_ & _ & _ & -> & _); done|].
  rewrite Hp. destruct Hs as [?|[? ?]]; [by left|].
  right. split; [done|]. by apply (same_view_shown s).
Qed.

Lemma dispatch_settled date g s e :
  settled date s -> settled date (snd (dispatch (g, s) e)).
Proof.
  intros Hs. destruct e as [| | |code|x y|x y|hidden| |h]; cbn [dispatch snd].
  - by apply previousSlide_settled.
  - by apply nextSlide_settled.
  - exact (same_view_settled _ _ _ (togglePlayPause_same_view s) Hs).
  - unfold keydown.
    destruct (negb (keyboardEnabled s)); [done|].
    destruct (_ || _); [by apply previousSlide_settled|].
    destruct (_ || _); [by apply nextSlide_settled|].
    destruct (String.eqb code "Space");
      [exact (same_view_settled _ _ _ (togglePlayPause_same_view s) Hs)|].
    destruct (String.eqb code "Home"); [apply goToSlide_settled; eauto|].
    destruct (String.eqb code "End"); [apply goToSlide_settled; [|done]|].
    { right. unfold len. simpl. eauto. }
    destruct (String.eqb code "Escape"); [|done].
    destruct (isPlaying s); [|done].
    exact (same_view_settled _ _ _ (pause_same_view s) Hs).
  - done.
  - unfold touchend.
    destruct (Qeq_bool (startX g) 0 || Qeq_bool (startY g) 0); [done|].
    cbn [snd]. destruct (_ && _); [|done].
    destruct (Qgtb _ _);
      [by apply nextSlide_settled|by apply previousSlide_settled].
  - unfold visibilitychange. destruct hidden.
    + exact (same_view_settled _ _ _ (pause_same_view s) Hs).
    + destruct (isPlaying s); [|done].
      exact (same_view_settled _ _ _ (play_same_view s) Hs).
  - done.
  - unfold interval_fires.
    destruct (existsb _ _); [by apply nextSlide_settled|done].
Qed.

Lemma mock_not_empty date l :
  map without_images l = Api.getMockProperties date -> l <> [].
Proof. by destruct l. Qed.

(** After the listing has arrived: the images are loaded, the first slide is
    drawn. *)
Lemma drawn_settled (f : t -> t) date s l :
  (forall y, api (f y) = api y /\ properties (f y) = properties y /\
             isLoading (f y) = isLoading y) ->
  listing_at s l -> map without_images l = Api.getMockProperties date ->
  isLoading s = false -> Api.now (api s) = date ->
  settled date
    (showLoading false (preloadNextSlide (displaySlide (Idx 0)
       (updateSlideCounter (f (preloadPropertyImages s)))))).
Proof.
  intros Hf Hl Hsample Hload Hnow.
  destruct (preloadPropertyImages_loaded s)
    as (Hp1 & Hl1 & _ & _ & Hn1 & Hlist).
  destruct (Hlist l Hl) as (l' & Hl' & Hm).
  set (s1 := preloadPropertyImages s) in *.
  destruct (Hf s1) as (Ha2 & Hp2 & Hl2).
  set (s2 := updateSlideCounter (f s1)).
  assert (Hlisting : listing_at s2 l').
  { unfold listing_at in *. subst s2. cbn. by rewrite Ha2, Hp2. }
  assert (Hprops := listing_props _ _ Hlisting).
  assert (Href : refused (Idx 0) s2 = false).
  { apply refused_in_range.
    - rewrite Hprops. destruct l'; [|simpl; lia].
      rewrite <- Hm in Hsample. discriminate Hsample.
    - subst s2. cbn. congruence. }
  destruct (displaySlide_shown 0 s2 Href) as (Hshown & Ha3 & Hp3 & Hl3).
  set (s3 := displaySlide (Idx 0) s2) in *.
  assert (Hv : same_view s3 (showLoading false (preloadNextSlide s3))).
  { eapply same_view_trans; [apply preloadNextSlide_same_view|].
    by repeat split. }
  apply (same_view_settled _ s3 _ Hv).
  assert (Hprops3 : props s3 = l').
  { unfold props. rewrite Ha3, Hp3. exact Hprops. }
  split; [|split; [done|]].
  - rewrite Ha3. subst s2. cbn. rewrite Ha2. congruence.
  - right. rewrite Hprops3. split; [congruence|done].
Qed.

Lemma init_settled page w :
  Api.cache w !! Api.cacheKey [] = None ->
  settled (Api.now w) (init (constructor page w)).
Proof.
  intros Hmiss.
  set (w0 := Api.set_heap (Api.heap w ++ [Api.CProperties []]) w).
  destruct (ApiMore.fetchProperties_default_listing w0 Hmiss)
    as (l & w1 & Hcall & Hheap & Hnow & Hl).
  set (s0 := showLoading true (constructor page w)).
  set (s1 := set_properties (length (Api.heap w0)) (set_api w1 s0)).
  assert (Hlisting : listing_at s1 l).
  { unfold listing_at. subst s1. cbn [api properties set_properties set_api].
    rewrite Hheap. by apply list_lookup_middle. }
  assert (Hi : init (constructor page w) =
    if idx_eq (len (props s1)) (Idx 0)
    then showError "No properties available" s1
    else startAutoAdvance (showLoading false (preloadNextSlide
           (displaySlide (Idx 0) (updateSlideCounter
              (preloadPropertyImages s1)))))).
  { unfold init. cbv zeta. fold s0.
    change (api s0) with w0. by rewrite Hcall. }
  rewrite Hi, (listing_props _ _ Hlisting). clear Hi.
  destruct Hl as [->| ->].
  - change (idx_eq (len []) (Idx 0)) with true. cbv iota.
    split; [exact Hnow|]. split; [reflexivity|]. left.
    change (props (showError "No properties available" s1)) with (props s1).
    by apply listing_props.
  - change (idx_eq (len (Api.getMockProperties (Api.now w0))) (Idx 0)) with false.
    cbv iota.
    eapply same_view_settled; [apply startAutoAdvance_same_view|].
    apply (drawn_settled (fun y => y) _ s1 (Api.getMockProperties (Api.now w0)));
      try done.
Qed.

Lemma refresh_settled date s : settled date s -> settled date (refresh s).
Proof.
  intros (Hnow & Hload & _).
  destruct (pause_same_view (showLoading true s)) as (Ha & _ & _ & Hl & _).
  change (api (showLoading true s)) with (api s) in Ha.
  change (isLoading (showLoading true s)) with (isLoading s) in Hl.
  set (s0 := pause (showLoading true s)) in *.
  set (w0 := snd (Api.clearCache (api s))).
  assert (Hmiss : Api.cache w0 !! Api.cacheKey [] = None) by apply lookup_empty.
  destruct (ApiMore.fetchProperties_default_listing w0 Hmiss)
    as (l & w1 & Hcall & Hheap & Hnow1 & Hlist).
  set (s1 := set_properties (length (Api.heap w0)) (set_api w1 (set_api w0 s0))).
  assert (Hlisting : listing_at s1 l).
  { unfold listing_at. subst s1. cbn [api properties set_properties set_api].
    rewrite Hheap. by apply list_lookup_middle. }
  assert (Hr : refresh s =
    if idx_eq (len (props s1)) (Idx 0)
    then showError "No properties available" s1
    else play (showLoading false (preloadNextSlide (displaySlide (Idx 0)
           (updateSlideCounter (set_currentIndex (Idx 0)
              (preloadPropertyImages s1))))))).
  { unfold refresh. cbv zeta. fold s0. cbn [api set_api]. rewrite Ha.
    fold w0. by rewrite Hcall. }
  rewrite Hr, (listing_props _ _ Hlisting). clear Hr.
  assert (Hdate : Api.now w1 = date) by (rewrite Hnow1; exact Hnow).
  assert (Hload1 : isLoading s1 = false) by (subst s1; cbn; congruence).
  destruct Hlist as [->| ->].
  - change (idx_eq (len []) (Idx 0)) with true. cbv iota.
    split; [exact Hdate|]. split; [exact Hload1|]. left.
    change (props (showError "No properties available" s1)) with (props s1).
    by apply listing_props.
  - change (idx_eq (len (Api.getMockProperties (Api.now w0))) (Idx 0)) with false.
    cbv iota.
    eapply same_view_settled; [apply play_same_view|].
    apply (drawn_settled (set_currentIndex (Idx 0)) _ s1
             (Api.getMockProperties (Api.now w0))); try done.
    rewrite <- Hnow. reflexivity.
Qed.

Lemma session_settled page w g acts :
  Api.cache w !! Api.cacheKey [] = None ->
  settled (Api.now w) (snd (session page w g acts)).
Proof.
  intros Hmiss. unfold session.
  assert (Hinv : forall acts gs,
            settled (Api.now w) (snd gs) ->
            settled (Api.now w) (snd (fold_left perform acts gs))).
  { clear. induction acts as [|a acts IH]; intros gs Hs; [done|].
    simpl. apply IH. destruct gs as [g s]. destruct a as [e|];
      cbn [perform fst snd].
    - by apply dispatch_settled.
    - by apply refresh_settled. }
  apply Hinv. cbn [snd]. by apply init_settled.
Qed.

(** The slides of a session are the built-in sample or none. Whatever the
    origin answers and whatever events and [refresh()] calls follow
    [init()], the controller holds either no slide or the three sample
    properties (with the images loaded for them): a listing of the origin
    never reaches the page. *)
Theorem only_sample_listings_are_shown page w g acts :
  Api.cache w !! Api.cacheKey [] = None ->
  props (snd (session page w g acts)) = [] \/
  map without_images (props (snd (session page w g acts)))
  = Api.getMockProperties (Api.now w).
Proof.
  intros Hmiss.
  destruct (session_settled page w g acts Hmiss) as (_ & _ & [?|[? _]]); auto.
Qed.

(** The origin answers with one listing; the page shows the sample. *)
Definition sample_session : swipe * t :=
  session blank_page
    (Api.constructor ApiMore.one_listing "2024-01-01T00:00:00.000Z")
    {| startX := 0; startY := 0 |}
    [Event (KeyDown "End"); Refresh; Event ClickNext].

Lemma only_sample_listings_are_shown_witness :
  map without_images (props (snd sample_session))
  = Api.getMockProperties "2024-01-01T00:00:00.000Z".
Proof.
  destruct (only_sample_listings_are_shown blank_page
              (Api.constructor ApiMore.one_listing "2024-01-01T00:00:00.000Z")
              {| startX := 0; startY := 0 |}
              [Event (KeyDown "End"); Refresh; Event ClickNext] eq_refl)
    as [H|H].
  - vm_compute in H. discriminate H.
  - exact H.
Defined.

(** Between calls nothing is being drawn, and when there are slides the
    index is a position of the sequence and the slide on the page is the
    slide under the index, after any events and [refresh()] calls. *)
Theorem page_shows_current_property page w g acts :
  Api.cache w !! Api.cacheKey [] = None ->
  isLoading (snd (session page w g acts)) = false /\
  (props (snd (session page w g acts)) = [] \/
   exists z p,
     currentIndex (snd (session page w g acts)) = Idx z /\
     0 <= z < Z.of_nat (length (props (snd (session page w g acts)))) /\
     getCurrentProperty (snd (session page w g acts)) = Some p /\
     currentSlide (elements (snd (session page w g acts))) = Some p).
Proof.
  intros Hmiss.
  destruct (session_settled page w g acts Hmiss) as (_ & Hload & Hs).
  split; [done|]. destruct Hs as [?|[_ (z & p & Hz & H0 & Hp & Hshown)]]; [auto|].
  right. exists z, p. split; [done|].
  assert (Hlt := lookup_lt_Some _ _ _ Hp).
  split; [lia|]. split; [|done].
  unfold getCurrentProperty. rewrite Hz. unfold nth_index.
  destruct (Z.ltb_spec z 0); [lia|done].
Qed.

Lemma page_shows_current_property_witness :
  isLoading (snd sample_session) = false /\
  currentIndex (snd sample_session) = Idx 1 /\
  getCurrentProperty (snd sample_session)
  = currentSlide (elements (snd sample_session)).
Proof.
  destruct (page_shows_current_property blank_page
              (Api.constructor ApiMore.one_listing "2024-01-01T00:00:00.000Z")
              {| startX := 0; startY := 0 |}
              [Event (KeyDown "End"); Refresh; Event ClickNext] eq_refl)
    as [Hload [H|(z & p & Hz & _ & Hg & Hs)]].
  - vm_compute in H. discriminate H.
  - split; [exact Hload|]. split; [reflexivity|].
    exact (eq_trans Hg (eq_sym Hs)).
Defined.

End SlideshowMore.

(** ** More on [PropertySlideshow] *)

Module PropertySlideshowMore.
Import JS PropertySlideshow PropertySlideshowEvents PropertySlideshowSpec.

(** *** Navigation *)

(** [goToSlide(index)] checks nothing. It stores any index; when there is no
    slide under it, the [TypeError] of [updateDisplay()] comes after the
    index has been stored and before anything else: the page is not drawn
    again and the timer is not restarted. *)
Theorem goToSlide_is_unguarded i q :
  currentIndex (snd (goToSlide i q)) = i /\
  match nth_index (properties q) i with
  | Some _ => fst (goToSlide i q) = Api.Ok tt
  | None => exists e, goToSlide i q = (Api.Throw e, set_currentIndex i q)
  end.
Proof.
  destruct (goToSlide_fields i q) as (Hc & _ & _ & Hok).
  split; [done|].
  destruct (nth_index (properties q) i) as [p|] eqn:E.
  - apply Hok. eauto.
  - unfold goToSlide, bind, modify, updateDisplay.
    cbn [properties currentIndex set_currentIndex]. rewrite E. eauto.
Qed.

(** [currentIndex] is a position of the slide sequence. *)
Definition in_range (q : t) : Prop :=
  exists z, currentIndex q = Idx z /\
            0 <= z < Z.of_nat (length (properties q)).

Lemma nth_index_in_range {A} (l : list A) j :
  0 <= j < Z.of_nat (length l) -> is_Some (nth_index l (Idx j)).
Proof.
  intros Hj. unfold nth_index. destruct (Z.ltb_spec j 0); [lia|].
  apply lookup_lt_is_Some. lia.
Qed.

Lemma goToSlide_position j q :
  0 <= j < Z.of_nat (length (properties q)) ->
  fst (goToSlide (Idx j) q) = Api.Ok tt /\
  currentIndex (snd (goToSlide (Idx j) q)) = Idx j /\
  properties (snd (goToSlide (Idx j) q)) = properties q /\
  isPlaying (snd (goToSlide (Idx j) q)) = isPlaying q.
Proof.
  intros Hj. destruct (goToSlide_fields (Idx j) q) as (Hc & Hp & Hpl & Hok).
  repeat split; try done. by apply Hok, nth_index_in_range.
Qed.

Lemma next_index z n :
  0 <= z < n ->
  idx_rem (idx_add (Idx z) (Idx 1)) (Idx n) = Idx ((z + 1) mod n) /\
  0 <= (z + 1) mod n < n.
Proof.
  intros Hz. simpl. destruct (Z.eqb_spec n 0); [lia|].
  rewrite Z.rem_mod_nonneg by lia. split; [done|]. apply Z.mod_pos_bound. lia.
Qed.

Lemma previous_index z n :
  0 <= z < n ->
  idx_rem (idx_add (idx_sub (Idx z) (Idx 1)) (Idx n)) (Idx n)
  = Idx ((z - 1) mod n) /\
  0 <= (z - 1) mod n < n.
Proof.
  intros Hz. simpl. destruct (Z.eqb_spec n 0); [lia|].
  rewrite Z.rem_mod_nonneg by lia.
  replace (z - 1 + n) with (z - 1 + 1 * n) by lia.
  rewrite Z_mod_plus_full. split; [done|]. apply Z.mod_pos_bound. lia.
Qed.

(** From a position of the sequence, [nextSlide()] and [previousSlide()]
    never throw and move one slide on or back, from the last slide to the
    first and from the first to the last. *)
Theorem next_and_previous_wrap z q :
  currentIndex q = Idx z -> 0 <= z < Z.of_nat (length (properties q)) ->
  fst (nextSlide q) = Api.Ok tt /\
  currentIndex (snd (nextSlide q))
  = Idx (if z =? Z.of_nat (length (properties q)) - 1 then 0 else z + 1) /\
  fst (previousSlide q) = Api.Ok tt /\
  currentIndex (snd (previousSlide q))
  = Idx (if z =? 0 then Z.of_nat (length (properties q)) - 1 else z - 1).
Proof.
  intros Hz Hrange.
  destruct (next_index z _ Hrange) as [Hn Hnr].
  destruct (previous_index z _ Hrange) as [Hp Hpr].
  unfold nextSlide, previousSlide. rewrite Hz. unfold len. rewrite Hn, Hp.
  destruct (goToSlide_position _ q Hnr) as (-> & -> & _).
  destruct (goToSlide_position _ q Hpr) as (-> & -> & _).
  repeat split; f_equal.
  - destruct (Z.eqb_spec z (Z.of_nat (length (properties q)) - 1)) as [->|Hne].
    + replace (Z.of_nat (length (properties q)) - 1 + 1)
        with (Z.of_nat (length (properties q))) by lia.
      apply Z_mod_same_full.
    + apply Z.mod_small. lia.
  - destruct (Z.eqb_spec z 0) as [->|Hne].
    + symmetry. apply Z.mod_unique with (q := -1); lia.
    + apply Z.mod_small. lia.
Qed.

Lemma next_and_previous_wrap_witness :
  currentIndex (snd (previousSlide three_villas)) = Idx 2 /\
  currentIndex (snd (nextSlide (snd (previousSlide three_villas)))) = Idx 0.
Proof.
  split.
  - destruct (next_and_previous_wrap 0 three_villas eq_refl) as (_ & _ & _ & H).
    + vm_compute. split; [discriminate|reflexivity].
    + exact H.
  - destruct (next_and_previous_wrap 2 (snd (previousSlide three_villas))
                eq_refl) as (_ & H & _).
    + vm_compute. split; [discriminate|reflexivity].
    + exact H.
Defined.

(** *** The index under the events of the page *)

(** The index is in range and the slides are those of [q0]. *)
Definition in_range_of (q0 q : t) : Prop :=
  in_range q /\ properties q = properties q0.

Lemma in_range_of_same q0 q q' :
  currentIndex q' = currentIndex q -> properties q' = properties q ->
  in_range_of q0 q -> in_range_of q0 q'.
Proof.
  intros Hc Hp [(z & Hz & Hr) Hq]. split; [|congruence].
  exists z. rewrite Hc, Hp. done.
Qed.

Lemma goToSlide_in_range_of q0 j q :
  0 <= j < Z.of_nat (length (properties q)) ->
  in_range_of q0 q -> in_range_of q0 (snd (goToSlide (Idx j) q)).
Proof.
  intros Hj [_ Hq]. destruct (goToSlide_position j q Hj) as (_ & Hc & Hp & _).
  split; [|congruence]. exists j. by rewrite Hc, Hp.
Qed.

Lemma nextSlide_in_range_of q0 q :
  in_range_of q0 q -> in_range_of q0 (snd (nextSlide q)).
Proof.
  intros Hq. destruct Hq as [(z & Hz & Hr) Hp] eqn:E. clear E.
  unfold nextSlide. rewrite Hz. unfold len.
  destruct (next_index z _ Hr) as [-> Hn]. by apply goToSlide_in_range_of.
Qed.

Lemma previousSlide_in_range_of q0 q :
  in_range_of q0 q -> in_range_of q0 (snd (previousSlide q)).
Proof.
  intros Hq. destruct Hq as [(z & Hz & Hr) Hp] eqn:E. clear E.
  unfold previousSlide. rewrite Hz. unfold len.
  destruct (previous_index z _ Hr) as [-> Hn]. by apply goToSlide_in_range_of.
Qed.

Lemma clearInterval_slides q :
  currentIndex (clearInterval q) = currentIndex q /\
  properties (clearInterval q) = properties q.
Proof. unfold clearInterval. by destruct (intervalId q). Qed.

Lemma pauseSlideshow_slides q :
  currentIndex (pauseSlideshow q) = currentIndex q /\
  properties (pauseSlideshow q) = properties q.
Proof.
  unfold pauseSlideshow.
  destruct (clearInterval_slides (set_isPlaying false q)) as [Hc Hp].
  split; [exact Hc|exact Hp].
Qed.

Lemma resumeSlideshow_slides q :
  currentIndex (resumeSlideshow q) = currentIndex q /\
  properties (resumeSlideshow q) = properties q.
Proof.
  unfold resumeSlideshow.
  destruct (startSlideshow_frame (set_isPlaying true q)) as (Hc & Hp & _).
  split; [exact Hc|exact Hp].
Qed.

Lemma togglePlayPause_slides q :
  currentIndex (togglePlayPause q) = currentIndex q /\
  properties (togglePlayPause q) = properties q.
Proof.
  unfold togglePlayPause.
  destruct (isPlaying q); [apply pauseSlideshow_slides|apply resumeSlideshow_slides].
Qed.

Lemma handleKeyPress_in_range_of q0 key q :
  in_range_of q0 q -> in_range_of q0 (snd (handleKeyPress key q)).
Proof.
  intros Hq. unfold handleKeyPress.
  destruct (_ || _); [by apply previousSlide_in_range_of|].
  destruct (_ || _); [by apply nextSlide_in_range_of|].
  destruct (String.eqb key " ").
  { destruct (togglePlayPause_slides q) as [Hc Hp].
    by apply (in_range_of_same q0 q). }
  destruct Hq as [(z & Hz & Hr) Hp] eqn:E. clear E.
  destruct (String.eqb key "Home");
    [apply goToSlide_in_range_of; [lia|done]|].
  destruct (String.eqb key "End"); [|done].
  unfold len. simpl. apply goToSlide_in_range_of; [lia|done].
Qed.

Lemma run_callback_in_range_of q0 cb q :
  in_range_of q0 q -> in_range_of q0 (snd (run_callback cb q)).
Proof.
  intros Hq. destruct cb as [| | |p]; cbn [run_callback].
  - by apply nextSlide_in_range_of.
  - destruct (isPlaying q); [by apply nextSlide_in_range_of|done].
  - done.
  - done.
Qed.

Lemma dispatch_in_range_of q0 g q e :
  in_range_of q0 q -> in_range_of q0 (snd (dispatch (g, q) e)).
Proof.
  intros Hq.
  destruct e as [| | |key|x y|x y|x l w|hidden|]; cbn [dispatch snd].
  - by apply previousSlide_in_range_of.
  - by apply nextSlide_in_range_of.
  - destruct (togglePlayPause_slides q) as [Hc Hp].
    by apply (in_range_of_same q0 q).
  - by apply handleKeyPress_in_range_of.
  - done.
  - unfold handleTouchEnd. cbv zeta.
    match goal with |- context [handleSwipe ?g' q] =>
      assert (H : in_range_of q0 (snd (handleSwipe g' q)));
        [|by destruct (handleSwipe g' q) as [r q']] end.
    unfold handleSwipe. cbv zeta. destruct (_ && _); [|done].
    destruct (SlideshowEvents.Qgtb _ _);
      [by apply nextSlide_in_range_of|by apply previousSlide_in_range_of].
  - unfold handleImageClick. cbv zeta.
    destruct (SlideshowEvents.Qgtb _ _);
      [by apply previousSlide_in_range_of|by apply nextSlide_in_range_of].
  - unfold handleVisibilityChange. destruct hidden.
    + destruct (pauseSlideshow_slides q) as [Hc Hp].
      by apply (in_range_of_same q0 q).
    + destruct (resumeSlideshow_slides q) as [Hc Hp].
      by apply (in_range_of_same q0 q).
  - unfold fire. destruct (first_timer (timers q)) as [tm|]; [|done].
    cbv zeta.
    match goal with |- context [run_callback _ ?x] =>
      assert (Hx : in_range_of q0 x) end.
    { apply (in_range_of_same q0 q); [| |done]; by destruct (period tm). }
    apply (run_callback_in_range_of q0 (action tm)) in Hx.
    destruct (run_callback _ _) as [r q']. exact Hx.
Qed.

(** Through the listeners the index never leaves the sequence. Once it is a
    position of the sequence it remains one, and the slides remain the same,
    after any clicks, keys, swipes, visibility changes and timers: the
    listeners call [goToSlide] with the first, the last or a neighbouring
    position only. *)
Theorem events_keep_index_in_range es g q :
  in_range q ->
  in_range (snd (dispatch_all es (g, q))) /\
  properties (snd (dispatch_all es (g, q))) = properties q.
Proof.
  intros Hq.
  assert (Hinv : forall es gq, in_range_of q (snd gq) ->
                               in_range_of q (snd (dispatch_all es gq))).
  { clear. unfold dispatch_all.
    induction es as [|e es IH]; intros [g q'] Hq; [done|].
    simpl. apply IH. by apply dispatch_in_range_of. }
  apply (Hinv es (g, q)). by split.
Qed.

Lemma events_keep_index_in_range_witness :
  in_range (snd (dispatch_all
    [KeyDown "End"; ClickNext; TimerFires; TimerFires; VisibilityChange true;
     ImageClick 10 0 400]
    (no_touch, three_villas))).
Proof.
  apply (events_keep_index_in_range _ no_touch three_villas).
  exists 0. vm_compute. split; [reflexivity|]. split; [discriminate|reflexivity].
Defined.

(** *** Showing the page again *)

(** Showing the page resumes the slideshow whatever its state: after
    [handleVisibilityChange()] with the page visible, [isPlaying] is set and
    the regular interval runs, also when the user had paused the slideshow
    before the page was hidden. *)
Theorem showing_the_page_resumes q :
  isPlaying (handleVisibilityChange false q) = true /\
  exists h,
    intervalId (handleVisibilityChange false q) = Some h /\
    In {| handle := h; due := clock q + Z.max 0 (slideInterval q);
          period := Some (Z.max 0 (slideInterval q)); action := CbNextSlide |}
       (timers (handleVisibilityChange false q)).
Proof.
  unfold handleVisibilityChange, resumeSlideshow, startSlideshow, clearInterval.
  cbn [intervalId isPlaying set_isPlaying].
  destruct (intervalId q) as [h|]; cbn; (split; [done|]);
    eexists; (split; [done|]); apply in_or_app; right; by left.
Qed.

(** *** The timers of a message slide *)








(** *** A message slide in time *)










(** *** The timers of a session *)

Definition is_interval (tm : timer) : bool :=
  match period tm with
  | Some _ => true
  | None => false
  end.

(** The pending [setInterval] timers. *)
Definition intervals_of (l : list timer) : list timer :=
  List.filter is_interval l.

(** Handles are not reused, and the only interval pending is the one
    recorded in [intervalId]. *)
Definition timers_sound (q : t) : Prop :=
  Forall (fun tm => (handle tm < next_handle q)%nat) (timers q) /\
  NoDup (map handle (timers q)) /\
  match intervalId q with
  | Some h =>
      exists tm, intervals_of (timers q) = [tm] /\ handle tm = h /\
                 action tm = CbNextSlide /\
                 period tm = Some (Z.max 0 (slideInterval q))
  | None => intervals_of (timers q) = []
  end.

Definition sound (q : t) : Prop :=
  timers_sound q /\ (is_Some (intervalId q) -> isPlaying q = true).

Lemma timers_sound_ext q q' :
  timers q' = timers q -> next_handle q' = next_handle q ->
  intervalId q' = intervalId q -> slideInterval q' = slideInterval q ->
  timers_sound q -> timers_sound q'.
Proof. unfold timers_sound. by intros -> -> -> ->. Qed.

Lemma sound_ext q q' :
  timers q' = timers q -> next_handle q' = next_handle q ->
  intervalId q' = intervalId q -> slideInterval q' = slideInterval q ->
  isPlaying q' = isPlaying q ->
  sound q -> sound q'.
Proof.
  intros Ht Hn Hi Hs Hp [Hq Hpl]. split.
  - by apply (timers_sound_ext q).
  - by rewrite Hi, Hp.
Qed.

Lemma filter_handles (P : timer -> bool) (l : list timer) :
  NoDup (map handle l) -> NoDup (map handle (List.filter P l)).
Proof.
  induction l as [|tm l IH]; [done|]. simpl. intros Hnd.
  apply NoDup_cons in Hnd as [Hnot Hnd]. destruct (P tm); [|by apply IH].
  simpl. apply NoDup_cons. split; [|by apply IH].
  intros Hin. apply Hnot. apply list_elem_of_In in Hin. apply list_elem_of_In.
  apply in_map_iff in Hin as (x & Hx & Hin). apply in_map_iff.
  exists x. split; [done|]. by apply filter_In in Hin as [? _].
Qed.

Lemma filter_Forall {A} (P : A -> bool) (Q : A -> Prop) (l : list A) :
  Forall Q l -> Forall Q (List.filter P l).
Proof.
  induction l as [|x l IH]; [done|]. intros HQ.
  apply Forall_cons in HQ as [Hx HQ]. simpl. destruct (P x); [|by apply IH].
  apply Forall_cons. split; [done|by apply IH].
Qed.

Lemma filter_comm {A} (P Q : A -> bool) (l : list A) :
  List.filter P (List.filter Q l) = List.filter Q (List.filter P l).
Proof.
  induction l as [|x l IH]; [done|]. simpl.
  destruct (P x) eqn:EP, (Q x) eqn:EQ; simpl; rewrite ?EP, ?EQ, IH; done.
Qed.

Lemma filter_all {A} (P : A -> bool) (l : list A) :
  (forall x, In x l -> P x = true) -> List.filter P l = l.
Proof.
  induction l as [|x l IH]; [done|]. intros Hall. simpl.
  rewrite (Hall x) by (by left). f_equal. apply IH. intros y Hy.
  apply Hall. by right.
Qed.

Lemma same_handle (l : list timer) a b :
  NoDup (map handle l) -> In a l -> In b l -> handle a = handle b -> a = b.
Proof.
  induction l as [|x l IH]; [done|]. simpl. intros Hnd Ha Hb Hh.
  apply NoDup_cons in Hnd as [Hnot Hnd].
  destruct Ha as [->|Ha], Hb as [->|Hb]; [done| | |by apply IH].
  - exfalso. apply Hnot. rewrite Hh. apply list_elem_of_In. by apply in_map.
  - exfalso. apply Hnot. rewrite <- Hh. apply list_elem_of_In. by apply in_map.
Qed.

(** A step that sets timeouts and clears nothing. *)
Definition adds_timeouts (q q' : t) : Prop :=
  intervalId q' = intervalId q /\ isPlaying q' = isPlaying q /\
  slideInterval q' = slideInterval q /\
  exists added,
    timers q' = timers q ++ added /\
    Forall (fun tm => period tm = None) added /\
    map handle added = seq (next_handle q) (length added) /\
    next_handle q' = (next_handle q + length added)%nat.

Lemma adds_nothing q q' :
  intervalId q' = intervalId q -> isPlaying q' = isPlaying q ->
  slideInterval q' = slideInterval q -> timers q' = timers q ->
  next_handle q' = next_handle q -> adds_timeouts q q'.
Proof.
  intros Hi Hp Hs Ht Hn. repeat split; try done.
  exists []. rewrite app_nil_r. repeat split; try done.
  simpl. lia.
Qed.

Lemma adds_timeouts_trans q1 q2 q3 :
  adds_timeouts q1 q2 -> adds_timeouts q2 q3 -> adds_timeouts q1 q3.
Proof.
  intros (Hi & Hp & Hs & a & Ht & Ha & Hh & Hn)
         (Hi' & Hp' & Hs' & a' & Ht' & Ha' & Hh' & Hn').
  repeat split; try congruence.
  exists (a ++ a'). repeat split.
  - by rewrite Ht', Ht, app_assoc.
  - by apply Forall_app.
  - rewrite map_app, length_app, seq_app, Hh, Hh', Hn. done.
  - rewrite length_app. lia.
Qed.

Lemma setTimeout_adds cb ms q : adds_timeouts q (snd (setTimeout cb ms q)).
Proof.
  repeat split. eexists [_]. repeat split.
  - by apply List.Forall_cons.
  - simpl. lia.
Qed.

Lemma adds_timeouts_sound q q' :
  adds_timeouts q q' -> sound q -> sound q'.
Proof.
  intros (Hi & Hp & Hs & added & Ht & Ha & Hh & Hn) [(Hlt & Hnd & Hint) Hpl].
  split; [|by rewrite Hi, Hp]. split; [|split].
  - rewrite Ht. apply Forall_app. split.
    + eapply Forall_impl; [exact Hlt|]. intros tm Htm. simpl in Htm. lia.
    + apply Forall_forall. intros tm Hin.
      assert (Hin' : In (handle tm) (map handle added)).
      { apply in_map. by apply list_elem_of_In. }
      rewrite Hh in Hin'. apply in_seq in Hin'. lia.
  - rewrite Ht, map_app, Hh. apply NoDup_app. split; [done|]. split.
    + intros h Hin Hin'. apply list_elem_of_In, in_seq in Hin'.
      apply list_elem_of_In, in_map_iff in Hin as (tm & <- & Hin).
      rewrite Forall_forall in Hlt.
      specialize (Hlt tm (proj2 (list_elem_of_In _ _) Hin)). simpl in Hlt. lia.
    + apply NoDup_seq.
  - assert (Hf : intervals_of (timers q') = intervals_of (timers q)).
    { rewrite Ht. unfold intervals_of. rewrite List.filter_app.
      assert (Hnone : List.filter is_interval added = []).
      { clear -Ha. induction added as [|tm l IH]; [done|].
        apply Forall_cons in Ha as [Htm Ha]. simpl. unfold is_interval at 1.
        rewrite Htm. by apply IH. }
      by rewrite Hnone, app_nil_r. }
    rewrite Hi, Hf, Hs. exact Hint.
Qed.

Lemma showMessage_adds m q : adds_timeouts q (showMessage m q).
Proof.
  unfold showMessage.
  set (q1 := write "description.innerHTML" _ _).
  assert (H1 : adds_timeouts q q1) by (by apply adds_nothing).
  set (q2 := if negb (String.eqb (backgroundColor m) "") then _ else q1).
  assert (H2 : adds_timeouts q q2).
  { subst q2. destruct (negb _); [|done].
    eapply adds_timeouts_trans; [exact H1|].
    eapply adds_timeouts_trans; [|apply setTimeout_adds].
    by apply adds_nothing. }
  set (q3 := if time_truthy (displayTime m) && isPlaying q2 then _ else q2).
  assert (H3 : adds_timeouts q q3).
  { subst q3. destruct (_ && _); [|done].
    eapply adds_timeouts_trans; [exact H2|apply setTimeout_adds]. }
  eapply adds_timeouts_trans; [exact H3|]. by apply adds_nothing.
Qed.

Lemma showProperty_adds p q : adds_timeouts q (showProperty p q).
Proof.
  unfold showProperty.
  set (q1 := write "image.style.opacity" _ _).
  eapply adds_timeouts_trans; [|eapply adds_timeouts_trans;
    [apply (setTimeout_adds (CbFadeIn p) 150 q1)|]]; by apply adds_nothing.
Qed.

Lemma updateDisplay_adds q : adds_timeouts q (snd (updateDisplay q)).
Proof.
  unfold updateDisplay.
  destruct (nth_index (properties q) (currentIndex q)) as [p|];
    [|by apply adds_nothing].
  destruct (isMessage p); [apply showMessage_adds|].
  destruct (isRental p && negb (truthy (mainImage p)));
    [by apply adds_nothing|apply showProperty_adds].
Qed.

Lemma clearInterval_sound q :
  timers_sound q ->
  timers_sound (clearInterval q) /\ intervalId (clearInterval q) = None /\
  intervals_of (timers (clearInterval q)) = [] /\
  next_handle (clearInterval q) = next_handle q /\
  isPlaying (clearInterval q) = isPlaying q /\
  slideInterval (clearInterval q) = slideInterval q /\
  clock (clearInterval q) = clock q.
Proof.
  intros (Hlt & Hnd & Hint). unfold clearInterval.
  destruct (intervalId q) as [h|] eqn:Hid.
  - destruct Hint as (tm & Htm & Hh & _).
    assert (Hnone : intervals_of
              (List.filter (fun x => negb (Nat.eqb (handle x) h)) (timers q)) = []).
    { unfold intervals_of in *. rewrite filter_comm, Htm. simpl.
      by rewrite Hh, Nat.eqb_refl. }
    repeat split; cbn; try done.
    + by apply filter_Forall.
    + by apply filter_handles.
  - repeat split; try done. by rewrite Hid.
Qed.

Lemma startSlideshow_sound q : timers_sound q -> sound (startSlideshow q).
Proof.
  intros Hq.
  destruct (clearInterval_sound q Hq)
    as ((Hlt & Hnd & _) & Hid & Hnone & Hn & Hp & Hs & Hc).
  unfold startSlideshow. set (q1 := clearInterval q) in *. clearbody q1.
  destruct (isPlaying q1) eqn:Hpl.
  - split; [|done]. unfold timers_sound. cbn. split; [|split].
    + apply Forall_app. split.
      * eapply Forall_impl; [exact Hlt|]. intros tm Htm. simpl in Htm. lia.
      * apply List.Forall_cons; [simpl; lia|apply List.Forall_nil].
    + rewrite map_app. apply NoDup_app. split; [done|]. split.
      * intros h Hin Hin'. simpl in Hin'.
        apply list_elem_of_In in Hin'. destruct Hin' as [<-|[]].
        apply list_elem_of_In, in_map_iff in Hin as (tm & Hh & Hin).
        rewrite Forall_forall in Hlt.
        specialize (Hlt tm (proj2 (list_elem_of_In _ _) Hin)). simpl in Hlt. lia.
      * apply NoDup_singleton.
    + eexists. unfold intervals_of in *. rewrite List.filter_app, Hnone.
      simpl. done.
  - split; [|by rewrite Hid; intros [? ?]].
    split; [done|]. split; [done|]. by rewrite Hid.
Qed.

Lemma goToSlide_sound i q : sound q -> sound (snd (goToSlide i q)).
Proof.
  intros Hq. unfold goToSlide, bind, modify.
  assert (Hq1 : sound (set_currentIndex i q)) by (by apply (sound_ext q)).
  assert (Hq2 := adds_timeouts_sound _ _
                   (updateDisplay_adds (set_currentIndex i q)) Hq1).
  destruct (updateDisplay (set_currentIndex i q)) as [[[]|e] q2];
    cbn [snd] in *; [|done].
  apply startSlideshow_sound. by destruct Hq2.
Qed.

Lemma pauseSlideshow_sound q : sound q -> sound (pauseSlideshow q).
Proof.
  intros [Hq _]. unfold pauseSlideshow.
  assert (Hq1 : timers_sound (set_isPlaying false q))
    by (by apply (timers_sound_ext q)).
  destruct (clearInterval_sound _ Hq1) as (Hs & Hid & _).
  set (q1 := clearInterval (set_isPlaying false q)) in *.
  split.
  - by apply (timers_sound_ext q1).
  - cbn. rewrite Hid. by intros [? ?].
Qed.

Lemma resumeSlideshow_sound q : sound q -> sound (resumeSlideshow q).
Proof.
  intros [Hq _]. unfold resumeSlideshow.
  assert (Hq1 : timers_sound (set_isPlaying true q))
    by (by apply (timers_sound_ext q)).
  apply startSlideshow_sound in Hq1.
  by apply (sound_ext (startSlideshow (set_isPlaying true q))).
Qed.

Lemma togglePlayPause_sound q : sound q -> sound (togglePlayPause q).
Proof.
  unfold togglePlayPause.
  destruct (isPlaying q); [apply pauseSlideshow_sound|apply resumeSlideshow_sound].
Qed.

Lemma nextSlide_sound q : sound q -> sound (snd (nextSlide q)).
Proof. apply goToSlide_sound. Qed.

Lemma previousSlide_sound q : sound q -> sound (snd (previousSlide q)).
Proof. apply goToSlide_sound. Qed.

Lemma run_callback_sound cb q : sound q -> sound (snd (run_callback cb q)).
Proof.
  intros Hq. destruct cb as [| | |p]; cbn [run_callback].
  - by apply nextSlide_sound.
  - destruct (isPlaying q); [by apply nextSlide_sound|done].
  - by apply (sound_ext q).
  - by apply (sound_ext q).
Qed.

Lemma first_timer_In l tm : first_timer l = Some tm -> In tm l.
Proof.
  revert tm. induction l as [|x l IH]; intros tm; [done|]. simpl.
  destruct (first_timer l) as [tm'|].
  - destruct (earlier x tm'); intros [= <-]; [by left|right; by apply IH].
  - intros [= <-]. by left.
Qed.

Lemma fire_sound q tm r q' :
  fire q = Some (tm, (r, q')) -> sound q -> sound q'.
Proof.
  unfold fire. destruct (first_timer (timers q)) as [tm0|] eqn:Hfirst; [|done].
  cbv zeta. intros Hf [(Hlt & Hnd & Hint) Hpl].
  apply first_timer_In in Hfirst.
  match type of Hf with Some (_, run_callback _ ?x) = _ =>
    assert (Hx : sound x) end.
  { set (rest := List.filter (fun x => negb (Nat.eqb (handle x) (handle tm0)))
                   (timers q)).
    assert (Hrest_lt : Forall (fun tm => (handle tm < next_handle q)%nat) rest)
      by (by apply filter_Forall).
    assert (Hrest_nd : NoDup (map handle rest)) by (by apply filter_handles).
    destruct (period tm0) as [p|] eqn:Hper.
    - (* an interval: armed again under its handle *)
      assert (Hin : In tm0 (intervals_of (timers q))).
      { apply filter_In. split; [done|]. unfold is_interval. by rewrite Hper. }
      destruct (intervalId q) as [h|] eqn:Hid; [|by rewrite Hint in Hin].
      destruct Hint as (ti & Hti & Hh & Hact & Hp).
      rewrite Hti in Hin. destruct Hin as [->|[]].
      assert (Hnone : intervals_of rest = []).
      { unfold intervals_of, rest in *. rewrite filter_comm, Hti. simpl.
        by rewrite Nat.eqb_refl. }
      split; [|cbn; rewrite Hid; exact Hpl].
      unfold timers_sound. cbn. fold rest. rewrite Hid. split; [|split].
      + apply Forall_app. split; [done|].
        apply List.Forall_cons; [|apply List.Forall_nil]. simpl.
        rewrite Forall_forall in Hlt.
        apply (Hlt tm0). by apply list_elem_of_In.
      + rewrite map_app. apply NoDup_app. split; [done|]. split.
        * intros h' Hin Hin'. simpl in Hin'.
          apply list_elem_of_In in Hin'. destruct Hin' as [<-|[]].
          apply list_elem_of_In, in_map_iff in Hin as (x & Hx & Hin).
          apply filter_In in Hin as [_ Hne].
          rewrite Hx, Nat.eqb_refl in Hne. done.
        * apply NoDup_singleton.
      + exists {| handle := handle tm0; due := due tm0 + p; period := Some p;
                  action := action tm0 |}.
        unfold intervals_of in *. rewrite List.filter_app, Hnone.
        simpl. repeat split; try done. congruence.
    - (* a timeout: dropped *)
      split; [|exact Hpl]. unfold timers_sound. cbn. fold rest.
      split; [done|]. split; [done|].
      assert (Hsame : intervals_of rest = intervals_of (timers q)).
      { unfold intervals_of, rest. rewrite filter_comm.
        fold (intervals_of (timers q)).
        assert (Hall : forall x, In x (intervals_of (timers q)) ->
                                 handle x <> handle tm0).
        { intros x Hx Heq. apply filter_In in Hx as [Hx Hix].
          assert (x = tm0) by (by apply (same_handle (timers q))).
          subst x. unfold is_interval in Hix. by rewrite Hper in Hix. }
        apply filter_all. intros x Hx.
        apply negb_true_iff, Nat.eqb_neq. by apply Hall. }
      unfold intervals_of in *. rewrite Hsame. exact Hint. }
  injection Hf as <- Hrun.
  apply (run_callback_sound (action tm0)) in Hx.
  apply (f_equal snd) in Hrun. cbn [snd] in Hrun. rewrite <- Hrun. exact Hx.
Qed.

Lemma init_sound loaded q : sound q -> sound (init loaded q).
Proof.
  intros [Hq _]. unfold init. cbv zeta.
  match goal with |- context [updateDisplay ?x] => set (q1 := x) end.
  assert (Hq1 : sound q1).
  { subst q1. apply startSlideshow_sound. by apply (timers_sound_ext q). }
  assert (Hq2 := adds_timeouts_sound _ _ (updateDisplay_adds q1) Hq1).
  destruct (updateDisplay q1) as [[[]|e] q2]; cbn [snd] in Hq2;
    by apply (sound_ext q2).
Qed.

Lemma handleKeyPress_sound key q : sound q -> sound (snd (handleKeyPress key q)).
Proof.
  intros Hq. unfold handleKeyPress.
  destruct (_ || _); [by apply previousSlide_sound|].
  destruct (_ || _); [by apply nextSlide_sound|].
  destruct (String.eqb key " "); [by apply togglePlayPause_sound|].
  destruct (String.eqb key "Home"); [by apply goToSlide_sound|].
  destruct (String.eqb key "End"); [by apply goToSlide_sound|done].
Qed.

Lemma dispatch_sound g q e : sound q -> sound (snd (dispatch (g, q) e)).
Proof.
  intros Hq.
  destruct e as [| | |key|x y|x y|x l w|hidden|]; cbn [dispatch snd].
  - by apply previousSlide_sound.
  - by apply nextSlide_sound.
  - by apply togglePlayPause_sound.
  - by apply handleKeyPress_sound.
  - done.
  - unfold handleTouchEnd. cbv zeta.
    match goal with |- context [handleSwipe ?g' q] =>
      assert (H : sound (snd (handleSwipe g' q)));
        [|by destruct (handleSwipe g' q) as [r q']] end.
    unfold handleSwipe. cbv zeta. destruct (_ && _); [|done].
    destruct (SlideshowEvents.Qgtb _ _);
      [by apply nextSlide_sound|by apply previousSlide_sound].
  - unfold handleImageClick. cbv zeta.
    destruct (SlideshowEvents.Qgtb _ _);
      [by apply previousSlide_sound|by apply nextSlide_sound].
  - unfold handleVisibilityChange.
    destruct hidden; [by apply pauseSlideshow_sound|by apply resumeSlideshow_sound].
  - destruct (fire q) as [[tm [r q']]|] eqn:Hf; [|done].
    by apply (fire_sound q tm r q').
Qed.

(** [slideInterval] is never assigned after the constructor. *)
Lemma goToSlide_interval i q :
  slideInterval (snd (goToSlide i q)) = slideInterval q.
Proof.
  unfold goToSlide, bind, modify.
  destruct (updateDisplay_frame (set_currentIndex i q)) as (_ & _ & _ & Hs & _).
  destruct (updateDisplay (set_currentIndex i q)) as [[[]|e] q1];
    cbn [snd] in *; [|done].
  by destruct (startSlideshow_frame q1) as (_ & _ & _ & -> & _).
Qed.

Lemma pauseSlideshow_interval q :
  slideInterval (pauseSlideshow q) = slideInterval q.
Proof. unfold pauseSlideshow, clearInterval. by destruct (intervalId _). Qed.

Lemma resumeSlideshow_interval q :
  slideInterval (resumeSlideshow q) = slideInterval q.
Proof.
  unfold resumeSlideshow.
  by destruct (startSlideshow_frame (set_isPlaying true q))
    as (_ & _ & _ & Hs & _).
Qed.

Lemma run_callback_interval cb q :
  slideInterval (snd (run_callback cb q)) = slideInterval q.
Proof.
  destruct cb as [| | |p]; cbn [run_callback]; try done.
  - apply goToSlide_interval.
  - destruct (isPlaying q); [apply goToSlide_interval|done].
Qed.

Lemma dispatch_interval g q e :
  slideInterval (snd (dispatch (g, q) e)) = slideInterval q.
Proof.
  destruct e as [| | |key|x y|x y|x l w|hidden|]; cbn [dispatch snd];
    try apply goToSlide_interval; try done.
  - unfold togglePlayPause.
    destruct (isPlaying q);
      [apply pauseSlideshow_interval|apply resumeSlideshow_interval].
  - unfold handleKeyPress.
    destruct (_ || _); [apply goToSlide_interval|].
    destruct (_ || _); [apply goToSlide_interval|].
    destruct (String.eqb key " ").
    { cbn [modify snd]. unfold togglePlayPause.
      destruct (isPlaying q);
        [apply pauseSlideshow_interval|apply resumeSlideshow_interval]. }
    destruct (String.eqb key "Home"); [apply goToSlide_interval|].
    destruct (String.eqb key "End"); [apply goToSlide_interval|done].
  - unfold handleTouchEnd. cbv zeta.
    match goal with |- context [handleSwipe ?g' q] =>
      assert (H : slideInterval (snd (handleSwipe g' q)) = slideInterval q);
        [|by destruct (handleSwipe g' q) as [r q']] end.
    unfold handleSwipe. cbv zeta. destruct (_ && _); [|done].
    destruct (SlideshowEvents.Qgtb _ _); apply goToSlide_interval.
  - unfold handleImageClick. cbv zeta.
    destruct (SlideshowEvents.Qgtb _ _); apply goToSlide_interval.
  - unfold handleVisibilityChange.
    destruct hidden;
      [apply pauseSlideshow_interval|apply resumeSlideshow_interval].
  - unfold fire. destruct (first_timer (timers q)) as [tm|]; [|done].
    cbv zeta.
    match goal with |- context [run_callback ?a ?x] =>
      assert (H := run_callback_interval a x);
      destruct (run_callback a x) as [r q'] end.
    cbn [snd] in *. rewrite H. by destruct (period tm).
Qed.

Lemma init_interval loaded q : slideInterval (init loaded q) = slideInterval q.
Proof.
  unfold init. cbv zeta.
  match goal with |- context [updateDisplay ?x] => set (q1 := x) end.
  assert (H1 : slideInterval q1 = slideInterval q).
  { subst q1.
    match goal with |- slideInterval (startSlideshow ?x) = _ =>
      by destruct (startSlideshow_frame x) as (_ & _ & _ & -> & _) end. }
  destruct (updateDisplay_frame q1) as (_ & _ & _ & Hs & _).
  destruct (updateDisplay q1) as [[[]|e] q2]; cbn [snd] in Hs; cbn; congruence.
Qed.

(** The page from its construction on: [init()] with the slides [loaded],
    then the events [es]. *)
Definition session (document : gmap string value) (time : Z)
  (loaded : list slide) (es : list event) : t :=
  snd (dispatch_all es (no_touch, init loaded (constructor document time))).

(** The timers of a session. Whatever slides are loaded and whatever
    events follow, timer handles are never shared, and at most one interval
    is pending: the one recorded in [intervalId], which calls [nextSlide()]
    every 8000 ms and exists only while [isPlaying] is set. A paused
    slideshow has no interval at all; the timers that pile up are one-shot
    timeouts. *)
Theorem one_interval_at_most document time loaded es :
  NoDup (map handle (timers (session document time loaded es))) /\
  match intervalId (session document time loaded es) with
  | Some h =>
      isPlaying (session document time loaded es) = true /\
      exists tm,
        intervals_of (timers (session document time loaded es)) = [tm] /\
        handle tm = h /\ action tm = CbNextSlide /\ period tm = Some 8000
  | None => intervals_of (timers (session document time loaded es)) = []
  end.
Proof.
  assert (Hinv : forall es gq,
            sound (snd gq) /\ slideInterval (snd gq) = 8000 ->
            sound (snd (dispatch_all es gq)) /\
            slideInterval (snd (dispatch_all es gq)) = 8000).
  { clear. unfold dispatch_all.
    induction es as [|e es IH]; intros [g q] [Hq Hs]; [done|].
    cbn [fold_left]. apply IH. cbn [snd] in Hq, Hs.
    split; [by apply dispatch_sound|].
    rewrite <- Hs. apply dispatch_interval. }
  destruct (Hinv es (no_touch, init loaded (constructor document time)))
    as [[(_ & Hnd & Hint) Hpl] Hs].
  { cbn [snd]. split; [|by rewrite init_interval].
    apply init_sound. split; [|by intros [? ?]].
    split; [apply List.Forall_nil|]. split; [apply NoDup_nil_2|done]. }
  fold (session document time loaded es) in *.
  split; [exact Hnd|].
  destruct (intervalId (session document time loaded es)) as [h|]; [|done].
  split; [by apply Hpl|].
  destruct Hint as (tm & ? & ? & ? & Hp). exists tm. rewrite Hs in Hp.
  repeat split; done.
Qed.

Lemma goToSlide_throws_at i q :
  nth_index (properties q) i = None ->
  exists e, goToSlide i q = (Api.Throw e, set_currentIndex i q).
Proof.
  intros E. unfold goToSlide, bind, modify, updateDisplay.
  cbn [properties currentIndex set_currentIndex]. rewrite E. eauto.
Qed.

(** *** Navigation without slides *)

(** With no slides every navigation call throws, and the index is lost:
    [nextSlide()] and [previousSlide()] store [NaN], the End key stores -1.
    In each case the [TypeError] of [updateDisplay()] ends the call before
    the timer is restarted. *)
Theorem navigation_without_slides q :
  properties q = [] ->
  (exists e, nextSlide q = (Api.Throw e, set_currentIndex INaN q)) /\
  (exists e, previousSlide q = (Api.Throw e, set_currentIndex INaN q)) /\
  (exists e, handleKeyPress "End" q
             = (Api.Throw e, set_currentIndex (Idx (-1)) q)) /\
  (exists e, handleKeyPress "Home" q
             = (Api.Throw e, set_currentIndex (Idx 0) q)).
Proof.
  intros Hempty.
  assert (Hgo : forall i, exists e,
            goToSlide i q = (Api.Throw e, set_currentIndex i q)).
  { intros i. destruct (goToSlide_throws_at i q) as [e He]; eauto.
    rewrite Hempty. destruct i as [|z]; [done|]. simpl.
    destruct (z <? 0); [done|]. by destruct (Z.to_nat z). }
  split; [|split; [|split]].
  - unfold nextSlide. rewrite Hempty.
    assert (Ht : idx_rem (idx_add (currentIndex q) (Idx 1)) (len (@nil slide))
                 = INaN) by (by destruct (currentIndex q)).
    rewrite Ht. apply Hgo.
  - unfold previousSlide. rewrite Hempty.
    assert (Ht : idx_rem (idx_add (idx_sub (currentIndex q) (Idx 1))
                            (len (@nil slide))) (len (@nil slide)) = INaN)
      by (by destruct (currentIndex q)).
    rewrite Ht. apply Hgo.
  - unfold handleKeyPress. cbn. rewrite Hempty. apply Hgo.
  - unfold handleKeyPress. cbn. apply Hgo.
Qed.

Lemma navigation_without_slides_witness :
  currentIndex (snd (nextSlide (init [] (constructor ∅ 0)))) = INaN.
Proof.
  destruct (navigation_without_slides (init [] (constructor ∅ 0)) eq_refl)
    as ((e & He) & _).
  by rewrite He.
Defined.

End PropertySlideshowMore.
